(** * Domain-decomposition interface operators of [examples/ddoper.hpp]

    A shallow embedding of the interface-coupling engine: the geometric face
    matcher, the interface-to-surface DOF map, the two injection operators
    and the assembly of the global operator [I + S C].

    Conventions of the embedding.
    - A C++ [int] is a [Z]; the sums and differences of sizes and offsets
      wrap around in 32 bits ([int_add], [int_sub]); the arithmetic on
      indices stays in the range of [int].
    - A [double] coordinate is a binary64 [float] of the kernel, so the
      tolerance test of the matcher is the one the machine evaluates.
    - [MFEM_VERIFY] is always compiled in: a failed check is [Abort].
    - [Vector::operator[]] and [std::vector::operator[]] do not check their
      index: an index outside the array is [OutOfBounds]; the use of a null
      pointer is [NullDeref]. *)

From Stdlib Require Import ZArith Lia Bool Floats.
From stdpp Require Import base option list gmap.

Set Warnings "-inexact-float".
Open Scope Z_scope.

(** ** Outcomes of fallible code *)

Inductive Res (A : Type) : Type :=
| Ok (a : A)
| Abort
| OutOfBounds
| NullDeref.
Arguments Ok {A} a.
Arguments Abort {A}.
Arguments OutOfBounds {A}.
Arguments NullDeref {A}.

#[global] Instance Res_ret : MRet Res := fun _ a => Ok a.
#[global] Instance Res_bind : MBind Res := fun _ _ f r =>
  match r with
  | Ok a => f a
  | Abort => Abort
  | OutOfBounds => OutOfBounds
  | NullDeref => NullDeref
  end.

(** [*p] for a pointer that may be null. *)
Definition deref {A : Type} (p : option A) : Res A :=
  match p with
  | Some a => Ok a
  | None => NullDeref
  end.

(** [MFEM_VERIFY(cond, "")] *)
Definition MFEM_VERIFY (cond : bool) : Res unit :=
  if cond then Ok tt else Abort.

(** A loop [for (x : l) body] whose body may fail, threading the state [s]. *)
Fixpoint forM {A S : Type} (body : S -> A -> Res S) (l : list A) (s : S) : Res S :=
  match l with
  | [] => Ok s
  | x :: l' => s' ← body s x; forM body l' s'
  end.

(** ** Meshes and finite element spaces (external collaborators)

    Only the queries [ddoper.hpp] makes are listed; each is a total function
    of the index it receives. *)

Record Vertex : Type := mkVertex { vx : float; vy : float; vz : float }.

(** [v[k]] for [k] in [0, 3). *)
Definition coord (v : Vertex) (k : nat) : float :=
  match k with
  | O => vx v
  | S O => vy v
  | _ => vz v
  end.

Inductive Geometry : Type :=
| POINT | SEGMENT | TRIANGLE | SQUARE | TETRAHEDRON | CUBE.

Record ParMesh : Type := mkParMesh {
  GetNE : Z;
  GetNBE : Z;
  GetAttribute : Z -> Z;
  GetElementFaces : Z -> list Z;
  GetElementVertices : Z -> list Z;
  GetElementEdges : Z -> list Z;
  GetFaceVertices : Z -> list Z;
  GetFaceEdges : Z -> list Z;
  GetEdgeVertices : Z -> list Z;
  GetVertex : Z -> Vertex;
  GetFaceGeometryType : Z -> Geometry
}.

(** ** The geometric face matcher *)

(** The loop over [k] of [FacesCoincideGeometrically]:
    [if (fabs(vi[k] - vj[k]) > tol) verticesEqual = false]. *)
Definition verticesEqual (tol : float) (vi vj : Vertex) : bool :=
  fold_left
    (fun eq k => if (tol <? abs (coord vi k - coord vj k))%float then false else eq)
    (seq 0 3) true.

Definition faceTol : float := 1.0e-12%float.

(** The loop over [j]: [if (verticesEqual) vertexFound = true]. *)
Definition vertexFound (surfaceMesh : ParMesh) (vi : Vertex) (elemVert : list Z) : bool :=
  fold_left
    (fun found ev =>
       if verticesEqual faceTol vi (GetVertex surfaceMesh ev) then true else found)
    elemVert false.

(** The loop over [i]: [if (!vertexFound) return false], then [return true]. *)
Fixpoint allVerticesFound (volumeMesh surfaceMesh : ParMesh)
    (faceVert elemVert : list Z) : bool :=
  match faceVert with
  | [] => true
  | fv :: rest =>
      if vertexFound surfaceMesh (GetVertex volumeMesh fv) elemVert
      then allVerticesFound volumeMesh surfaceMesh rest elemVert
      else false
  end.

(** The inner loop runs [j] over [0, faceVert.Size()) and reads [elemVert[j]]. *)
Definition FacesCoincideGeometrically (volumeMesh : ParMesh) (face : Z)
    (surfaceMesh : ParMesh) (elem : Z) : bool :=
  let faceVert := GetFaceVertices volumeMesh face in
  let elemVert := GetElementVertices surfaceMesh elem in
  if negb (length faceVert =? length elemVert)%nat then false
  else allVerticesFound volumeMesh surfaceMesh faceVert
         (take (length faceVert) elemVert).

(** The coordinates of a list of vertex indices. *)
Definition vertexCoords (mesh : ParMesh) (verts : list Z) : list Vertex :=
  map (GetVertex mesh) verts.

(** The spec's words: two vertices match when their coordinates are equal
    within the absolute tolerance, componentwise in 3 dimensions. *)
Definition closeVertices (a b : Vertex) : Prop :=
  forall k : nat, (k < 3)%nat ->
    (faceTol <? abs (coord a k - coord b k))%float = false.

(** The spec's words: the two vertex sets coincide when every vertex of one
    face has a matching vertex in the other. *)
Definition vertexSetsCoincide (A B : list Vertex) : Prop :=
  (forall a, In a A -> exists b, In b B /\ closeVertices a b) /\
  (forall b, In b B -> exists a, In a A /\ closeVertices a b).

(** What the loops test: every vertex of the first face matches some vertex
    of the second. *)
Definition firstFaceCovered (A B : list Vertex) : Prop :=
  forall a, In a A -> exists b, In b B /\ closeVertices a b.

(** ** Arrays, sets and maps of the standard library *)

(** [v[i]] read, for [Array<int>], [std::vector] and [Vector]. *)
Definition vecGet {A : Type} (v : list A) (i : Z) : Res A :=
  if 0 <=? i then
    match v !! Z.to_nat i with
    | Some a => Ok a
    | None => OutOfBounds
    end
  else OutOfBounds.

(** [v[i] = a]. *)
Definition vecSet {A : Type} (v : list A) (i : Z) (a : A) : Res (list A) :=
  if (0 <=? i) && (i <? Z.of_nat (length v)) then Ok (<[Z.to_nat i := a]> v)
  else OutOfBounds.

(** ** [int] arithmetic *)

(** The sizes and the offsets are [int]s, 32 bits wide in two's complement:
    a sum or a difference that leaves the range wraps around. *)
Definition int_wrap (z : Z) : Z := (z + 2 ^ 31) mod 2 ^ 32 - 2 ^ 31.
Definition int_add (a b : Z) : Z := int_wrap (a + b).
Definition int_sub (a b : Z) : Z := int_wrap (a - b).
Definition INT_MAX : Z := 2 ^ 31 - 1.

(** Two numbers that are the same [int]. *)
Definition eqm32 (x y : Z) : Prop := int_wrap x = int_wrap y.

(** A [std::set<int>] is the ascending sequence its iterator yields. *)
Abbreviation std_set := (list Z) (only parsing).

Fixpoint set_insert (x : Z) (s : std_set) : std_set :=
  match s with
  | [] => [x]
  | y :: s' =>
      if x <? y then x :: s
      else if x =? y then s
      else y :: set_insert x s'
  end.

(** [s.find(x) != s.end()] *)
Definition set_mem (x : Z) (s : std_set) : bool := existsb (Z.eqb x) s.

(** ** Finite element spaces *)

Record ParFiniteElementSpace : Type := mkParFiniteElementSpace {
  GetParMesh : ParMesh;
  GetVSize : Z;
  GetTrueVSize : Z;
  GetLocalTDofNumber : Z -> Z;
  GetBdrElementDofs : Z -> list Z;
  GetVertexDofs : Z -> list Z;
  GetEdgeDofs : Z -> list Z;
  GetFaceDofs : Z -> list Z
}.

Record FiniteElementCollection : Type := mkFiniteElementCollection {
  DofForGeometry : Geometry -> Z
}.

(** ** FindBoundaryTrueDOFs *)

Definition FindBoundaryTrueDOFs (pfespace : ParFiniteElementSpace)
    (tdofsBdry : std_set) : std_set :=
  let pmesh := GetParMesh pfespace in
  fold_left
    (fun tdofs be =>
       let dofs := GetBdrElementDofs pfespace be in
       fold_left
         (fun tdofs dof =>
            let dof_i := if dof >=? 0 then dof else -1 - dof in
            let ldof := GetLocalTDofNumber pfespace dof_i in
            if ldof >=? 0 then set_insert ldof tdofs else tdofs)
         dofs tdofs)
    (seqZ 0 (GetNBE pmesh)) tdofsBdry.

(** ** SetInterfaceToSurfaceDOFMap *)

(** The table under construction.  [writes] is a ghost history of the
    assignments [dofmap[ifdofs[d]] = sdtdof], latest first; no code reads it. *)
Record DofTable : Type := mkDofTable {
  dofmap : list Z;
  writes : list (Z * Z)
}.

(** [MFEM_VERIFY(dofmap[ifdof] == sdtdof || dofmap[ifdof] == -1, "");
     dofmap[ifdof] = sdtdof;] *)
Definition setDof (t : DofTable) (ifdof sdtdof : Z) : Res DofTable :=
  cur ← vecGet (dofmap t) ifdof;
  _ ← MFEM_VERIFY ((cur =? sdtdof) || (cur =? -1));
  dm ← vecSet (dofmap t) ifdof sdtdof;
  Ok (mkDofTable dm ((ifdof, sdtdof) :: writes t)).

(** The loop over [d] that ends each of the vertex, edge and face parts:
    the size check, then for each pair of DOFs the lookup of the true DOF
    and the guarded write. *)
Definition mapDofs (fespace : ParFiniteElementSpace) (ifdofs sddofs : list Z)
    (t : DofTable) : Res DofTable :=
  _ ← MFEM_VERIFY (length ifdofs =? length sddofs)%nat;
  forM
    (fun t '(ifdof, sddof) =>
       let sdtdof := GetLocalTDofNumber fespace sddof in
       if sdtdof >=? 0 then setDof t ifdof sdtdof else Ok t)
    (zip ifdofs sddofs) t.

Definition vertexTol : float := 1.0e-12%float.

(** First loop: the map from the faces of the interface to the elements of
    [pmesh] with attribute [sdAttribute] that contain them. *)
Definition faceToElemLoop (pmesh : ParMesh) (sdAttribute : Z)
    (pmeshFacesInInterface : std_set) : Res (gmap Z Z * std_set) :=
  forM
    (fun st elId =>
       if GetAttribute pmesh elId =? sdAttribute then
         forM
           (fun '(pmeshFaceToElem, pmeshElemsByInterface) f =>
              if set_mem f pmeshFacesInInterface then
                _ ← MFEM_VERIFY (bool_decide (pmeshFaceToElem !! f = None));
                Ok (<[f := elId]> pmeshFaceToElem,
                    set_insert elId pmeshElemsByInterface)
              else Ok (pmeshFaceToElem, pmeshElemsByInterface))
           (GetElementFaces pmesh elId) st
       else Ok st)
    (seqZ 0 (GetNE pmesh)) (∅, []).

(** Second loop: the map from elements of [pmesh] next to the interface to
    elements of [sdMesh]. *)
Definition elemToSDmeshLoop (sdMesh : ParMesh) (pmeshElemsByInterface : std_set)
    : gmap Z Z :=
  fold_left
    (fun pmeshElemToSDmesh elId =>
       let pmeshElemId := GetAttribute sdMesh elId - 1 in
       if set_mem pmeshElemId pmeshElemsByInterface
       then <[pmeshElemId := elId]> pmeshElemToSDmesh
       else pmeshElemToSDmesh)
    (seqZ 0 (GetNE sdMesh)) ∅.

(** The scan of the faces of the subdomain element:
    [if (FacesCoincideGeometrically(sdMesh, elFaces[j], ifMesh, i))
       sdMeshFace = elFaces[j];] starting from [sdMeshFace = -1]. *)
Definition scanElementFaces (sdMesh ifMesh : ParMesh) (i : Z) (elFaces : list Z) : Z :=
  fold_left
    (fun sdMeshFace f =>
       if FacesCoincideGeometrically sdMesh f ifMesh i then f else sdMeshFace)
    elFaces (-1).

(** The scan followed by [MFEM_VERIFY(sdMeshFace >= 0, "")]. *)
Definition findSdMeshFace (sdMesh ifMesh : ParMesh) (i sdMeshElem : Z) : Res Z :=
  let elFaces := GetElementFaces sdMesh sdMeshElem in
  let sdMeshFace := scanElementFaces sdMesh ifMesh i elFaces in
  _ ← MFEM_VERIFY (sdMeshFace >=? 0);
  Ok sdMeshFace.

(** Vertex DOFs of interface face [i] against those of [sdMeshFace]. *)
Definition mapVertexDofs (ifespace fespace : ParFiniteElementSpace)
    (i sdMeshFace : Z) (t : DofTable) : Res DofTable :=
  let ifMesh := GetParMesh ifespace in
  let sdMesh := GetParMesh fespace in
  let ifVert := GetFaceVertices ifMesh i in
  let sdVert := GetFaceVertices sdMesh sdMeshFace in
  _ ← MFEM_VERIFY (length ifVert =? length sdVert)%nat;
  forM
    (fun t ifVert_j =>
       let ifv := GetVertex ifMesh ifVert_j in
       '(vertexFound, t) ←
         forM
           (fun '(vertexFound, t) sdVert_k =>
              let sdv := GetVertex sdMesh sdVert_k in
              if verticesEqual vertexTol ifv sdv then
                t' ← mapDofs fespace (GetVertexDofs ifespace ifVert_j)
                       (GetVertexDofs fespace sdVert_k) t;
                Ok (true, t')
              else Ok (vertexFound, t))
           sdVert (false, t);
       _ ← MFEM_VERIFY vertexFound;
       Ok t)
    ifVert t.

(** [edgesMatch]: both end points equal, in the order the meshes list them. *)
Definition edgesMatch (ifMesh sdMesh : ParMesh) (ifVert sdVert : list Z) : Res bool :=
  forM
    (fun edgesMatch v =>
       ifVert_v ← vecGet ifVert v;
       sdVert_v ← vecGet sdVert v;
       if verticesEqual vertexTol (GetVertex ifMesh ifVert_v) (GetVertex sdMesh sdVert_v)
       then Ok edgesMatch else Ok false)
    (seqZ 0 2) true.

(** Edge DOFs of interface element [i] against those of [sdMeshFace]. *)
Definition mapEdgeDofs (ifespace fespace : ParFiniteElementSpace)
    (i sdMeshFace : Z) (t : DofTable) : Res DofTable :=
  let ifMesh := GetParMesh ifespace in
  let sdMesh := GetParMesh fespace in
  let ifEdge := GetElementEdges ifMesh i in
  let sdEdge := GetFaceEdges sdMesh sdMeshFace in
  _ ← MFEM_VERIFY (length ifEdge =? length sdEdge)%nat;
  forM
    (fun t ifEdge_j =>
       let ifVert := GetEdgeVertices ifMesh ifEdge_j in
       _ ← MFEM_VERIFY (length ifVert =? 2)%nat;
       sd_k ←
         forM
           (fun sd_k k =>
              sdEdge_k ← vecGet sdEdge k;
              let sdVert := GetEdgeVertices sdMesh sdEdge_k in
              _ ← MFEM_VERIFY (length sdVert =? 2)%nat;
              m ← edgesMatch ifMesh sdMesh ifVert sdVert;
              if (m : bool) then
                _ ← MFEM_VERIFY (sd_k =? -1);
                Ok k
              else Ok sd_k)
           (seqZ 0 (Z.of_nat (length sdEdge))) (-1);
       _ ← MFEM_VERIFY (sd_k >=? 0);
       sdEdge_k ← vecGet sdEdge sd_k;
       mapDofs fespace (GetEdgeDofs ifespace ifEdge_j) (GetEdgeDofs fespace sdEdge_k) t)
    ifEdge t.

(** Face DOFs of interface element [i] against those of [sdMeshFace]. *)
Definition mapFaceDofs (ifespace fespace : ParFiniteElementSpace)
    (i sdMeshFace : Z) (t : DofTable) : Res DofTable :=
  mapDofs fespace (GetFaceDofs ifespace i) (GetFaceDofs fespace sdMeshFace) t.

(** The body of the loop over the faces of the interface; [i] counts the
    iterations, [pmeshFace] is [*it]. *)
Definition interfaceFaceStep (ifespace fespace : ParFiniteElementSpace)
    (fec : FiniteElementCollection)
    (pmeshFaceToElem pmeshElemToSDmesh : gmap Z Z)
    (t : DofTable) (it : Z * Z) : Res DofTable :=
  let '(i, pmeshFace) := it in
  let ifMesh := GetParMesh ifespace in
  let sdMesh := GetParMesh fespace in
  match pmeshFaceToElem !! pmeshFace with
  | None => Ok t
  | Some pmeshElem =>
      match pmeshElemToSDmesh !! pmeshElem with
      | None => Abort
      | Some sdMeshElem =>
          sdMeshFace ← findSdMeshFace sdMesh ifMesh i sdMeshElem;
          let nv := DofForGeometry fec POINT in
          t ← (if nv >? 0 then mapVertexDofs ifespace fespace i sdMeshFace t else Ok t);
          let ne := DofForGeometry fec SEGMENT in
          t ← (if ne >? 0 then mapEdgeDofs ifespace fespace i sdMeshFace t else Ok t);
          let nf := DofForGeometry fec (GetFaceGeometryType sdMesh 0) in
          if nf >? 0 then mapFaceDofs ifespace fespace i sdMeshFace t else Ok t
      end
  end.

Definition SetInterfaceToSurfaceDOFMap_run (ifespace fespace : ParFiniteElementSpace)
    (pmesh : ParMesh) (sdAttribute : Z) (pmeshFacesInInterface : std_set)
    (fec : FiniteElementCollection) : Res DofTable :=
  let ifSize := GetVSize ifespace in
  let t := mkDofTable (replicate (Z.to_nat ifSize) (-1)) [] in
  let sdMesh := GetParMesh fespace in
  '(pmeshFaceToElem, pmeshElemsByInterface) ←
    faceToElemLoop pmesh sdAttribute pmeshFacesInInterface;
  let pmeshElemToSDmesh := elemToSDmeshLoop sdMesh pmeshElemsByInterface in
  forM (interfaceFaceStep ifespace fespace fec pmeshFaceToElem pmeshElemToSDmesh)
    (zip (seqZ 0 (Z.of_nat (length pmeshFacesInInterface))) pmeshFacesInInterface) t.

(** The table the caller receives in [dofmap]. *)
Definition SetInterfaceToSurfaceDOFMap (ifespace fespace : ParFiniteElementSpace)
    (pmesh : ParMesh) (sdAttribute : Z) (pmeshFacesInInterface : std_set)
    (fec : FiniteElementCollection) : Res (list Z) :=
  t ← SetInterfaceToSurfaceDOFMap_run ifespace fespace pmesh sdAttribute
         pmeshFacesInInterface fec;
  Ok (dofmap t).

(** ** Scalars, vectors and linear operators *)

(** The operations on [double] that [ddoper.hpp] and the operator wrappers
    use.  The development is generic in the scalars: theorems that need an
    algebraic law assume it of the instance. *)
Class Scalar (R : Type) : Type := mkScalar {
  rzero : R;
  rone : R;
  radd : R -> R -> R;
  rmul : R -> R -> R;
  ropp : R -> R;
  rdiv : R -> R -> R
}.

#[global] Instance float_Scalar : Scalar float :=
  mkScalar float 0%float 1%float PrimFloat.add PrimFloat.mul PrimFloat.opp PrimFloat.div.

#[global] Instance Z_Scalar : Scalar Z :=
  mkScalar Z 0 1 Z.add Z.mul Z.opp Z.div.

(** A [Vector] is the list of its entries. *)
Abbreviation Vector R := (list R) (only parsing).

Section Operators.
Context {R : Type} {sc : Scalar R}.

(** [y = 0.0] for a vector of size [n]. *)
Definition zeros (n : Z) : Vector R := replicate (Z.to_nat n) rzero.

(** Modelled from the spec: the linear-operator contract, [Height], [Width],
    [Mult] and [MultTranspose]; the class [Operator] is not in this file. *)
Record Operator : Type := mkOperator {
  Height : Z;
  Width : Z;
  Mult : Vector R -> Res (Vector R);
  MultTranspose : Vector R -> Res (Vector R)
}.

(** Modelled from the spec: [IdentityOperator(n)]. *)
Definition IdentityOperator (n : Z) : Operator :=
  mkOperator n n (fun x => Ok x) (fun x => Ok x).

(** Modelled from the spec: [TransposeOperator(A)] swaps the two actions. *)
Definition TransposeOperator (A : Operator) : Operator :=
  mkOperator (Width A) (Height A) (MultTranspose A) (Mult A).

(** Modelled from the spec: [ProductOperator(A, B, false, false)], the
    action of [B] followed by that of [A]. *)
Definition ProductOperator (A B : Operator) : Operator :=
  mkOperator (Height A) (Width B)
    (fun x => z ← Mult B x; Mult A z)
    (fun x => z ← MultTranspose A x; MultTranspose B z).

(** Modelled from the spec: [TripleProductOperator(A, B, C, ...)], the
    action of [C], then [B], then [A]. *)
Definition TripleProductOperator (A B C : Operator) : Operator :=
  mkOperator (Height A) (Width C)
    (fun x => t1 ← Mult C x; t2 ← Mult B t1; Mult A t2)
    (fun x => t2 ← MultTranspose A x; t1 ← MultTranspose B t2; MultTranspose C t1).

(** [a z + b y], entry by entry. *)
Definition vadd (a : R) (z : Vector R) (b : R) (y : Vector R) : Vector R :=
  zip_with (fun zi yi => radd (rmul a zi) (rmul b yi)) z y.

(** Modelled from the spec: [SumOperator(A, B, false, false, alpha, beta)],
    the action [alpha A(x) + beta B(x)]. *)
Definition SumOperator (A B : Operator) (alpha beta : R) : Operator :=
  mkOperator (Height A) (Width A)
    (fun x => z ← Mult A x; y ← Mult B x; Ok (vadd alpha z beta y))
    (fun x => z ← MultTranspose A x; y ← MultTranspose B x; Ok (vadd alpha z beta y)).

(** Modelled from the spec: [ScaledOperator(A, a)], the action [a A(x)]. *)
Definition ScaledOperator (A : Operator) (a : R) : Operator :=
  mkOperator (Height A) (Width A)
    (fun x => z ← Mult A x; Ok (map (rmul a) z))
    (fun x => z ← MultTranspose A x; Ok (map (rmul a) z)).

(** *** Block operators *)

(** Modelled from the spec: a block operator is a grid of sub-operators
    acting on a vector partitioned by offsets; a block never set is null. *)
Record BlockOperator : Type := mkBlockOperator {
  row_offsets : list Z;
  col_offsets : list Z;
  blocks : Z -> Z -> option (Operator * R)
}.

(** [BlockOperator(row_offsets, col_offsets)]: every block null. *)
Definition new_BlockOperator (rows cols : list Z) : BlockOperator :=
  mkBlockOperator rows cols (fun _ _ => None).

(** [SetBlock(iRow, iCol, op, c)]. *)
Definition SetBlock (B : BlockOperator) (iRow iCol : Z) (A : Operator) (c : R)
    : BlockOperator :=
  mkBlockOperator (row_offsets B) (col_offsets B)
    (fun i j => if (i =? iRow) && (j =? iCol) then Some (A, c) else blocks B i j).

(** [Array<int>::PartialSum()]: each entry becomes the sum, an [int], of the
    entries up to it. *)
Fixpoint PartialSum_from (acc : Z) (l : list Z) : list Z :=
  match l with
  | [] => []
  | x :: l' => int_add acc x :: PartialSum_from (int_add acc x) l'
  end.
Definition PartialSum (l : list Z) : list Z := PartialSum_from 0 l.

(** [Array<int>::Last()] *)
Definition Last (l : list Z) : Res Z :=
  match last l with
  | Some x => Ok x
  | None => OutOfBounds
  end.

Definition numBlocks (offsets : list Z) : Z := Z.of_nat (length offsets) - 1.

(** The block [j] of a vector partitioned by [offsets]. *)
Definition GetBlock (offsets : list Z) (v : Vector R) (j : Z) : Res (Vector R) :=
  lo ← vecGet offsets j;
  hi ← vecGet offsets (j + 1);
  if (0 <=? lo) && (lo <=? hi) && (hi <=? Z.of_nat (length v))
  then Ok (take (Z.to_nat (hi - lo)) (drop (Z.to_nat lo) v))
  else OutOfBounds.

(** [y.Add(c, tmp)]: [y += c tmp]. *)
Definition vaxpy (y : Vector R) (c : R) (tmp : Vector R) : Vector R :=
  zip_with (fun yi ti => radd yi (rmul c ti)) y tmp.

(** One block row of [BlockOperator::Mult]: starting from zero, add
    [coef(i,j) op(i,j)(x_j)] for every block that is set. *)
Definition blockRow (act : Operator -> Vector R -> Res (Vector R))
    (inOffsets : list Z) (block : Z -> option (Operator * R))
    (rowSize : Z) (x : Vector R) : Res (Vector R) :=
  forM
    (fun yi j =>
       match block j with
       | None => Ok yi
       | Some (A, c) =>
           xj ← GetBlock inOffsets x j;
           tmp ← act A xj;
           Ok (vaxpy yi c tmp)
       end)
    (seqZ 0 (numBlocks inOffsets)) (zeros rowSize).

Definition BlockOperator_Mult (B : BlockOperator) (x : Vector R) : Res (Vector R) :=
  forM
    (fun y i =>
       lo ← vecGet (row_offsets B) i;
       hi ← vecGet (row_offsets B) (i + 1);
       yi ← blockRow Mult (col_offsets B) (fun j => blocks B i j) (hi - lo) x;
       Ok (y ++ yi))
    (seqZ 0 (numBlocks (row_offsets B))) [].

Definition BlockOperator_MultTranspose (B : BlockOperator) (x : Vector R) : Res (Vector R) :=
  forM
    (fun y j =>
       lo ← vecGet (col_offsets B) j;
       hi ← vecGet (col_offsets B) (j + 1);
       yj ← blockRow MultTranspose (row_offsets B) (fun i => blocks B i j) (hi - lo) x;
       Ok (y ++ yj))
    (seqZ 0 (numBlocks (col_offsets B))) [].

(** A block operator used as an [Operator]; its height and width are the
    last offsets. *)
Definition BlockOperator_Operator (B : BlockOperator) : Operator :=
  mkOperator (default 0 (last (row_offsets B))) (default 0 (last (col_offsets B)))
    (BlockOperator_Mult B) (BlockOperator_MultTranspose B).

(** Modelled from the spec: the class [BlockOperator] is not in this file.
    A block operator does not copy the offsets it is built over, it refers
    to the arrays of its caller, which is why the object keeps the arrays
    of offsets as members: its height and its width are the last offsets
    at the time it is built, and [Mult] partitions the vectors by what the
    arrays hold when it runs.  [BlockOperator_ref B rows cols] is
    [B], built when the arrays held [row_offsets B] and [col_offsets B],
    applied when they hold [rows] and [cols]. *)
Definition BlockOperator_ref (B : BlockOperator) (rows cols : list Z) : Operator :=
  let B' := mkBlockOperator rows cols (blocks B) in
  mkOperator (Height (BlockOperator_Operator B)) (Width (BlockOperator_Operator B))
    (BlockOperator_Mult B') (BlockOperator_MultTranspose B').

(** *** The injection operators *)

(** [SetInjectionOperator::Mult]: [y = 0.0], then [y[*it] = x[i]] with [i]
    counting the iterations over the set. *)
Definition SetInjectionOperator_Mult (height : Z) (id : std_set) (x : Vector R)
    : Res (Vector R) :=
  forM
    (fun y '(i, it) => xi ← vecGet x i; vecSet y it xi)
    (zip (seqZ 0 (Z.of_nat (length id))) id) (zeros height).

(** [SetInjectionOperator::MultTranspose]: [y[i] = x[*it]]; [y] has the size
    of the set, so every entry of it is written. *)
Definition SetInjectionOperator_MultTranspose (width : Z) (id : std_set) (x : Vector R)
    : Res (Vector R) :=
  forM
    (fun y '(i, it) => xit ← vecGet x it; vecSet y i xit)
    (zip (seqZ 0 (Z.of_nat (length id))) id) (zeros width).

(** The constructor [SetInjectionOperator(height, a)]. *)
Definition new_SetInjectionOperator (height : Z) (a : std_set) : Res Operator :=
  let width := Z.of_nat (length a) in
  _ ← MFEM_VERIFY (height >=? width);
  Ok (mkOperator height width
        (SetInjectionOperator_Mult height a)
        (SetInjectionOperator_MultTranspose width a)).

(** The grid function [gf] of an [InjectionOperator]: the transfers between
    the true DOFs and the full DOFs of the interface space are the finite
    element library's. *)
Record ParGridFunction : Type := mkParGridFunction {
  SetFromTrueDofs : Vector R -> Vector R;
  GetTrueDofs : Vector R -> Vector R
}.

(** [InjectionOperator::Mult]: [gf.SetFromTrueDofs(x); y = 0.0;
    for (i < fullWidth) y[id[i]] = gf[i];] *)
Definition InjectionOperator_Mult (height fullWidth : Z) (id : list Z)
    (gf : ParGridFunction) (x : Vector R) : Res (Vector R) :=
  let g := SetFromTrueDofs gf x in
  forM
    (fun y i => id_i ← vecGet id i; g_i ← vecGet g i; vecSet y id_i g_i)
    (seqZ 0 fullWidth) (zeros height).

(** [InjectionOperator::MultTranspose]:
    [for (i < fullWidth) gf[i] = x[id[i]]; gf.GetTrueDofs(y);] *)
Definition InjectionOperator_MultTranspose (fullWidth : Z) (id : list Z)
    (gf : ParGridFunction) (x : Vector R) : Res (Vector R) :=
  g ← forM
        (fun g i => id_i ← vecGet id i; x_i ← vecGet x id_i; vecSet g i x_i)
        (seqZ 0 fullWidth) (zeros fullWidth);
  Ok (GetTrueDofs gf g).

(** The constructor [InjectionOperator(height, interfaceSpace, a)]; [gf] is
    the grid function of [interfaceSpace]. *)
Definition new_InjectionOperator (height : Z) (interfaceSpace : ParFiniteElementSpace)
    (gf : ParGridFunction) (a : list Z) : Res Operator :=
  let width := GetTrueVSize interfaceSpace in
  let fullWidth := GetVSize interfaceSpace in
  _ ← MFEM_VERIFY (height >=? width);
  Ok (mkOperator height width
        (InjectionOperator_Mult height fullWidth a gf)
        (InjectionOperator_MultTranspose fullWidth a gf)).

End Operators.
Arguments Operator R : clear implicits.
Arguments BlockOperator R : clear implicits.
Arguments ParGridFunction R : clear implicits.

(** ** DDMInterfaceOperator *)

Record SubdomainInterface : Type := mkSubdomainInterface {
  FirstSubdomain : Z;
  SecondSubdomain : Z;
  faces : std_set
}.

Section DDM.
Context {R : Type} {sc : Scalar R}.

(** What the constructor obtains from the finite element library and the
    solvers: spaces over a mesh for the three collections [fec], [fecbdry]
    and [fecbdryH1], grid functions, assembled matrices, the direct solver
    and GMRES. *)
Record Library : Type := mkLibrary {
  fec_Space : ParMesh -> ParFiniteElementSpace;
  fecbdry_Space : ParMesh -> ParFiniteElementSpace;
  fecbdryH1_Space : ParMesh -> ParFiniteElementSpace;
  fecbdry : FiniteElementCollection;
  new_ParGridFunction : ParFiniteElementSpace -> ParGridFunction R;
  assemble_NDmass : ParFiniteElementSpace -> Operator R;
  assemble_NDcurlcurl : ParFiniteElementSpace -> Operator R;
  assemble_H1mass : ParFiniteElementSpace -> Operator R;
  assemble_NDH1grad : ParFiniteElementSpace -> ParFiniteElementSpace -> Operator R;
  assemble_sdND : ParFiniteElementSpace -> Operator R;
  STRUMPACKSolver : Operator R -> Operator R;
  GMRESSolver : Operator R -> Operator R -> Operator R
}.

(** The arguments of the constructor ([orderND] and [spaceDim] only select
    the collections of the [Library]). *)
Record DDMArgs : Type := mkDDMArgs {
  numSubdomains : Z;
  numInterfaces : Z;
  pmesh : ParMesh;
  pmeshSD : list (option ParMesh);
  pmeshIF : list (option ParMesh);
  localInterfaces : list SubdomainInterface;
  interfaceLocalIndex : list Z
}.

(** The entries at one interface index of the arrays [ifespace],
    [iH1fespace], [ifNDmass], [ifNDcurlcurl], [ifNDH1grad] and [ifH1mass];
    the constructor sets the six to null together. *)
Record InterfaceObjects : Type := mkInterfaceObjects {
  ifespace : ParFiniteElementSpace;
  iH1fespace : ParFiniteElementSpace;
  ifNDmass : Operator R;
  ifNDcurlcurl : Operator R;
  ifNDH1grad : Operator R;
  ifH1mass : Operator R
}.

Variable lib : Library.
Variable args : DDMArgs.

Definition alpha : R := rone.
Definition beta : R := rone.
Definition gamma : R := rone.

(** The two spaces of an interface mesh and [CreateInterfaceMatrices]. *)
Definition CreateInterfaceMatrices (mesh : ParMesh) : InterfaceObjects :=
  let nd := fecbdry_Space lib mesh in
  let h1 := fecbdryH1_Space lib mesh in
  mkInterfaceObjects nd h1
    (assemble_NDmass lib nd) (assemble_NDcurlcurl lib nd)
    (assemble_NDH1grad lib h1 nd) (assemble_H1mass lib h1).

(** [v[sd].push_back(i)] on a vector of vectors. *)
Definition push_back_at (v : list (list Z)) (sd : Z) (i : Z) : Res (list (list Z)) :=
  l ← vecGet v sd;
  vecSet v sd (l ++ [i]).

(** [a[i] += x] *)
Definition addAt (a : list Z) (i : Z) (x : Z) : Res (list Z) :=
  cur ← vecGet a i;
  vecSet a i (int_add cur x).

(** The members the loop over the interfaces fills. *)
Record InterfaceMembers : Type := mkInterfaceMembers {
  interfaceObjects : list (option InterfaceObjects);
  subdomainLocalInterfaces : list (list Z);
  globalInterfaceIndex : list Z
}.

Definition numLocalInterfaces : Z := Z.of_nat (length (localInterfaces args)).

(** The loop [for (i < numInterfaces)] of the constructor. *)
Definition interfaceLoop : Res InterfaceMembers :=
  forM
    (fun st i =>
       pm ← vecGet (pmeshIF args) i;
       let obj := CreateInterfaceMatrices <$> pm in
       ifli ← vecGet (interfaceLocalIndex args) i;
       _ ← MFEM_VERIFY (eqb (ifli >=? 0) (bool_decide (is_Some pm)));
       if ifli >=? 0 then
         li ← vecGet (localInterfaces args) ifli;
         sdli ← push_back_at (subdomainLocalInterfaces st) (FirstSubdomain li) i;
         sdli ← push_back_at sdli (SecondSubdomain li) i;
         g ← vecGet (globalInterfaceIndex st) ifli;
         _ ← MFEM_VERIFY ((g =? i) || (g =? -1));
         gii ← vecSet (globalInterfaceIndex st) ifli i;
         Ok (mkInterfaceMembers (interfaceObjects st ++ [obj]) sdli gii)
       else
         Ok (mkInterfaceMembers (interfaceObjects st ++ [obj])
               (subdomainLocalInterfaces st) (globalInterfaceIndex st)))
    (seqZ 0 (numInterfaces args))
    (mkInterfaceMembers []
       (replicate (Z.to_nat (numSubdomains args)) [])
       (replicate (Z.to_nat numLocalInterfaces) (-1))).

(** [ifespace[interfaceIndex]->...]: the objects of an interface that must
    not be null. *)
Definition interfaceAt (im : InterfaceMembers) (interfaceIndex : Z) : Res InterfaceObjects :=
  p ← vecGet (interfaceObjects im) interfaceIndex;
  deref p.

(** The sum [ifespace->GetTrueVSize() + iH1fespace->GetTrueVSize()]. *)
Definition ifTrueSize (obj : InterfaceObjects) : Z :=
  int_add (GetTrueVSize (ifespace obj)) (GetTrueVSize (iH1fespace obj)).

(** The members the first loop over the subdomains fills. *)
Record SurfaceMembers : Type := mkSurfaceMembers {
  size1 : Z;
  block_trueOffsets1 : list Z;
  fespace : list (option ParFiniteElementSpace);
  InterfaceToSurfaceInjection : list (list (Operator R));
  InterfaceToSurfaceInjectionData : list (list (list Z))
}.

(** The loop over the interfaces of subdomain [m], in the first loop over
    the subdomains. *)
Definition surfaceInnerLoop (im : InterfaceMembers) (m : Z)
    (fespace_m : option ParFiniteElementSpace) (sdli_m : list Z)
    (size : Z) (offsets : list Z)
    : Res (Z * list Z * list (Operator R) * list (list Z)) :=
  forM
    (fun '(size, offsets, injs, datas) interfaceIndex =>
       obj ← interfaceAt im interfaceIndex;
       let size := int_add size (GetTrueVSize (ifespace obj)) in
       let size := int_add size (GetTrueVSize (iH1fespace obj)) in
       offsets ← addAt offsets (m + 1) (GetTrueVSize (ifespace obj));
       offsets ← addAt offsets (m + 1) (GetTrueVSize (iH1fespace obj));
       ifli ← vecGet (interfaceLocalIndex args) interfaceIndex;
       _ ← MFEM_VERIFY (ifli >=? 0);
       li ← vecGet (localInterfaces args) ifli;
       fes ← deref fespace_m;
       data ← SetInterfaceToSurfaceDOFMap (ifespace obj) fes (pmesh args) (m + 1)
                (faces li) (fecbdry lib);
       inj ← new_InjectionOperator (GetTrueVSize fes) (ifespace obj)
               (new_ParGridFunction lib (ifespace obj)) data;
       Ok (size, offsets, injs ++ [inj], datas ++ [data]))
    sdli_m (size, offsets, [], []).

(** The first loop [for (m < numSubdomains)] of the constructor. *)
Definition surfaceLoop (im : InterfaceMembers) : Res SurfaceMembers :=
  forM
    (fun st m =>
       sdli_m ← vecGet (subdomainLocalInterfaces im) m;
       pm ← vecGet (pmeshSD args) m;
       let fespace_m := fec_Space lib <$> pm in
       '(size, offsets, injs, datas) ←
         surfaceInnerLoop im m fespace_m sdli_m (size1 st) (block_trueOffsets1 st);
       Ok (mkSurfaceMembers size offsets (fespace st ++ [fespace_m])
             (InterfaceToSurfaceInjection st ++ [injs])
             (InterfaceToSurfaceInjectionData st ++ [datas])))
    (seqZ 0 (numSubdomains args))
    (mkSurfaceMembers 0 (replicate (Z.to_nat (numSubdomains args + 1)) 0) [] [] []).

(** The offsets [trueOffsetsSD[subdomain]] that [CreateSubdomainOperator]
    computes: one block for the subdomain and two for each interface. *)
Definition subdomainOffsets (im : InterfaceMembers) (sm : SurfaceMembers)
    (subdomain : Z) : Res (list Z) :=
  sdli ← vecGet (subdomainLocalInterfaces im) subdomain;
  let numBlocks := 2 * Z.of_nat (length sdli) + 1 in
  let offsets := replicate (Z.to_nat (numBlocks + 1)) 0 in
  p ← vecGet (fespace sm) subdomain;
  fes ← deref p;
  offsets ← vecSet offsets 1 (GetTrueVSize fes);
  offsets ←
    forM
      (fun offsets '(i, interfaceIndex) =>
         p ← vecGet (interfaceObjects im) interfaceIndex;
         match p with
         | None => Abort
         | Some obj =>
             offsets ← addAt offsets (2 * i + 2) (GetTrueVSize (ifespace obj));
             addAt offsets (2 * i + 3) (GetTrueVSize (iH1fespace obj))
         end)
      (zip (seqZ 0 (Z.of_nat (length sdli))) sdli) offsets;
  Ok (PartialSum offsets).

(** The six [SetBlock] calls of [CreateSubdomainOperator] for the [i]-th
    interface of the subdomain. *)
Definition subdomainInterfaceBlocks (obj : InterfaceObjects) (inj : Operator R)
    (i : Z) (op : BlockOperator R) : BlockOperator R :=
  let op := SetBlock op 0 (2 * i + 2)
              (ProductOperator inj (ifNDH1grad obj)) (ropp gamma) in
  let op := SetBlock op (2 * i + 1) (2 * i + 2) (ifNDH1grad obj) (rdiv gamma alpha) in
  let op := SetBlock op (2 * i + 1) 0
              (ProductOperator
                 (SumOperator (ifNDmass obj) (ifNDcurlcurl obj) rone (rdiv beta alpha))
                 (TransposeOperator inj)) rone in
  let op := SetBlock op (2 * i + 2) (2 * i + 1) (TransposeOperator (ifNDH1grad obj)) rone in
  let op := SetBlock op (2 * i + 1) (2 * i + 1) (ifNDmass obj) (rdiv rone alpha) in
  SetBlock op (2 * i + 2) (2 * i + 2) (ifH1mass obj) rone.

(** [CreateSubdomainOperator(subdomain)]; [sdND_m] is [sdND[subdomain]].
    Returns the operator with [trueOffsetsSD[subdomain]]. *)
Definition CreateSubdomainOperator (im : InterfaceMembers) (sm : SurfaceMembers)
    (subdomain : Z) (sdND_m : Operator R) : Res (BlockOperator R * list Z) :=
  trueOffsetsSD ← subdomainOffsets im sm subdomain;
  sdli ← vecGet (subdomainLocalInterfaces im) subdomain;
  let op := SetBlock (new_BlockOperator trueOffsetsSD trueOffsetsSD) 0 0 sdND_m rone in
  op ←
    forM
      (fun op '(i, interfaceIndex) =>
         obj ← interfaceAt im interfaceIndex;
         injs ← vecGet (InterfaceToSurfaceInjection sm) subdomain;
         inj ← vecGet injs i;
         Ok (subdomainInterfaceBlocks obj inj i op))
      (zip (seqZ 0 (Z.of_nat (length sdli))) sdli) op;
  Ok (op, trueOffsetsSD).

(** [CreateSubdomainPreconditionerStrumpack(subdomain)]: a block diagonal
    operator of direct solvers over [trueOffsetsSD[subdomain]]. *)
Definition CreateSubdomainPreconditionerStrumpack (im : InterfaceMembers)
    (subdomain : Z) (sdND_m : Operator R) (trueOffsetsSD : list Z)
    : Res (BlockOperator R) :=
  sdli ← vecGet (subdomainLocalInterfaces im) subdomain;
  let op := SetBlock (new_BlockOperator trueOffsetsSD trueOffsetsSD) 0 0
              (STRUMPACKSolver lib sdND_m) rone in
  forM
    (fun op '(i, interfaceIndex) =>
       obj ← interfaceAt im interfaceIndex;
       let A_FF_solver := ScaledOperator (STRUMPACKSolver lib (ifNDmass obj)) alpha in
       let op := SetBlock op (2 * i + 1) (2 * i + 1) A_FF_solver rone in
       let A_rr_solver := STRUMPACKSolver lib (ifH1mass obj) in
       Ok (SetBlock op (2 * i + 2) (2 * i + 2) A_rr_solver rone))
    (zip (seqZ 0 (Z.of_nat (length sdli))) sdli) op.

(** The entries at one subdomain index of [tdofsBdryInjection], [sdND],
    [Asd], [precAsd], [invAsd] and [trueOffsetsSD]; null together when the
    subdomain mesh is null. *)
Record SubdomainObjects : Type := mkSubdomainObjects {
  tdofsBdryInjection : Operator R;
  sdND : Operator R;
  Asd : BlockOperator R;
  precAsd : BlockOperator R;
  invAsd : Operator R;
  trueOffsetsSD : list Z
}.

Definition tdofsBdryInjectionTranspose (o : SubdomainObjects) : Operator R :=
  TransposeOperator (tdofsBdryInjection o).

(** The members the second loop over the subdomains fills. *)
Record SubdomainMembers : Type := mkSubdomainMembers {
  size2 : Z;
  block_trueOffsets2 : list Z;
  tdofsBdry : list std_set;
  subdomainObjects : list (option SubdomainObjects)
}.

(** The second loop [for (m < numSubdomains)] of the constructor. *)
Definition subdomainLoop (im : InterfaceMembers) (sm : SurfaceMembers)
    : Res SubdomainMembers :=
  forM
    (fun st m =>
       pm ← vecGet (pmeshSD args) m;
       match pm with
       | None =>
           Ok (mkSubdomainMembers (size2 st) (block_trueOffsets2 st)
                 (tdofsBdry st ++ [[]]) (subdomainObjects st ++ [None]))
       | Some _ =>
           p ← vecGet (fespace sm) m;
           fes ← deref p;
           let tdofs := FindBoundaryTrueDOFs fes [] in
           let size := int_add (size2 st) (Z.of_nat (length tdofs)) in
           offsets ← addAt (block_trueOffsets2 st) (m + 1) (Z.of_nat (length tdofs));
           inj ← new_SetInjectionOperator (GetTrueVSize fes) tdofs;
           let sdND_m := assemble_sdND lib fes in
           '(A, offs) ← CreateSubdomainOperator im sm m sdND_m;
           prec ← CreateSubdomainPreconditionerStrumpack im m sdND_m offs;
           let gmres := GMRESSolver lib (BlockOperator_Operator A)
                          (BlockOperator_Operator prec) in
           Ok (mkSubdomainMembers size offsets (tdofsBdry st ++ [tdofs])
                 (subdomainObjects st
                    ++ [Some (mkSubdomainObjects inj sdND_m A prec gmres offs)]))
       end)
    (seqZ 0 (numSubdomains args))
    (mkSubdomainMembers (size1 sm) (block_trueOffsets1 sm) [] []).

Definition subdomainAt (sd : SubdomainMembers) (m : Z) : Res SubdomainObjects :=
  p ← vecGet (subdomainObjects sd) m;
  deref p.

(** [tdofsBdry[sd].size()] *)
Definition tdofsBdrySize (sd : SubdomainMembers) (m : Z) : Res Z :=
  s ← vecGet (tdofsBdry sd) m;
  Ok (Z.of_nat (length s)).

(** [CreateCij(localInterfaceIndex, orientation)]: the coupling of one
    interface from [(u^s, f, rho)] to [(u^s, f)]. *)
Definition CreateCij (im : InterfaceMembers) (localInterfaceIndex orientation : Z)
    : Res (BlockOperator R) :=
  interfaceIndex ← vecGet (globalInterfaceIndex im) localInterfaceIndex;
  obj ← interfaceAt im interfaceIndex;
  let nd := GetTrueVSize (ifespace obj) in
  let h1 := GetTrueVSize (iH1fespace obj) in
  let rowTrueOffsetsIF := PartialSum [0; nd; nd] in
  let colTrueOffsetsIF := PartialSum [0; nd; nd; h1] in
  let op := new_BlockOperator rowTrueOffsetsIF colTrueOffsetsIF in
  let op := SetBlock op 0 0
              (SumOperator (ifNDmass obj) (ifNDcurlcurl obj) alpha beta) rone in
  let op := SetBlock op 0 1 (ifNDmass obj) (ropp rone) in
  let op := SetBlock op 0 2 (ifNDH1grad obj) (ropp gamma) in
  let op := SetBlock op 1 0
              (SumOperator (ifNDmass obj) (ifNDcurlcurl obj)
                 (ropp rone) (rdiv (ropp beta) alpha)) rone in
  let op := SetBlock op 1 1 (ifNDmass obj) (rdiv rone alpha) in
  let op := SetBlock op 1 2 (ifNDH1grad obj) (rdiv gamma alpha) in
  Ok op.

(** The loop of [CreateInterfaceOperator] that finds the position [sdif] of
    the interface among those of subdomain [sd], the size [os] of the
    interfaces before it and the size [osComp] from it on. *)
Definition findInterfaceInSubdomain (im : InterfaceMembers) (sd interfaceIndex : Z)
    : Res (Z * Z * Z) :=
  sdli ← vecGet (subdomainLocalInterfaces im) sd;
  forM
    (fun '(sdif, os, osComp) '(i, sdli_i) =>
       sdif ← (if sdli_i =? interfaceIndex
               then _ ← MFEM_VERIFY (sdif =? -1); Ok i
               else Ok sdif);
       obj ← interfaceAt im sdli_i;
       if sdif =? -1 then Ok (sdif, int_add os (ifTrueSize obj), osComp)
       else Ok (sdif, os, int_add osComp (ifTrueSize obj)))
    (zip (seqZ 0 (Z.of_nat (length sdli))) sdli) (-1, 0, 0).

(** The ten arrays of offsets [rowTrueOffsetsIF[ili]], ...,
    [colTrueOffsetsIFBR[ili]] that the object keeps for the local interface
    [ili]. *)
Record InterfaceOffsets : Type := mkInterfaceOffsets {
  rowTrueOffsetsIF : list Z;
  colTrueOffsetsIF : list Z;
  rowTrueOffsetsIFR : list Z;
  colTrueOffsetsIFR : list Z;
  rowTrueOffsetsIFL : list Z;
  colTrueOffsetsIFL : list Z;
  rowTrueOffsetsIFBL : list Z;
  colTrueOffsetsIFBL : list Z;
  rowTrueOffsetsIFBR : list Z;
  colTrueOffsetsIFBR : list Z
}.

(** The arrays of a local interface after the [resize] of the vectors. *)
Definition emptyInterfaceOffsets : InterfaceOffsets :=
  mkInterfaceOffsets [] [] [] [] [] [] [] [] [] [].

#[global] Instance InterfaceOffsets_inhabited : Inhabited InterfaceOffsets :=
  populate emptyInterfaceOffsets.

(** [CreateInterfaceOperator(localInterfaceIndex, orientation)]: [Cij]
    between the block spaces of the two subdomains.  The call writes the ten
    arrays of the local interface, whatever the orientation, and builds its
    block operators over them; it returns what it has written and the
    operator, given what the arrays hold when the operator is applied. *)
Definition CreateInterfaceOperator (im : InterfaceMembers) (sm : SurfaceMembers)
    (sd : SubdomainMembers) (localInterfaceIndex orientation : Z)
    : Res (InterfaceOffsets * (InterfaceOffsets -> Operator R)) :=
  li ← vecGet (localInterfaces args) localInterfaceIndex;
  let sd0 := if orientation =? 0 then FirstSubdomain li else SecondSubdomain li in
  let sd1 := if orientation =? 0 then SecondSubdomain li else FirstSubdomain li in
  interfaceIndex ← vecGet (globalInterfaceIndex im) localInterfaceIndex;
  p ← vecGet (interfaceObjects im) interfaceIndex;
  _ ← MFEM_VERIFY (bool_decide (is_Some p));
  obj ← deref p;
  let nd := GetTrueVSize (ifespace obj) in
  let h1 := GetTrueVSize (iH1fespace obj) in
  '(sd0if, sd0os, sd0osComp) ← findInterfaceInSubdomain im sd0 interfaceIndex;
  '(sd1if, sd1os, sd1osComp) ← findInterfaceInSubdomain im sd1 interfaceIndex;
  _ ← MFEM_VERIFY (sd0if >=? 0);
  _ ← MFEM_VERIFY (sd1if >=? 0);
  let sd0osComp := int_sub sd0osComp nd in
  let sd1osComp := int_sub sd1osComp (int_add nd h1) in
  Cij ← CreateCij im localInterfaceIndex orientation;
  bdry0 ← tdofsBdrySize sd sd0;
  bdry1 ← tdofsBdrySize sd sd1;
  injs0 ← vecGet (InterfaceToSurfaceInjection sm) sd0;
  inj0 ← vecGet injs0 sd0if;
  injs1 ← vecGet (InterfaceToSurfaceInjection sm) sd1;
  inj1 ← vecGet injs1 sd1if;
  (* right injection, for sd1 *)
  let rowIFR := PartialSum [0; nd; int_add nd h1] in
  let colIFR := PartialSum [0; bdry1; int_add nd h1] in
  p1 ← vecGet (subdomainObjects sd) sd1;
  o1 ← deref p1;
  let rightInjection := new_BlockOperator rowIFR colIFR in
  let rightInjection :=
    SetBlock rightInjection 0 0
      (ProductOperator (TransposeOperator inj1) (tdofsBdryInjection o1)) rone in
  let rightInjection :=
    SetBlock rightInjection 1 1 (IdentityOperator (int_add nd h1)) rone in
  (* left injection, for sd0 *)
  let rowIFL := PartialSum [0; bdry0; nd] in
  let colIFL := PartialSum [0; nd; nd] in
  p0 ← vecGet (subdomainObjects sd) sd0;
  o0 ← deref p0;
  let leftInjection := new_BlockOperator rowIFL colIFL in
  let leftInjection :=
    SetBlock leftInjection 0 0
      (ProductOperator (tdofsBdryInjectionTranspose o0) inj0) rone in
  let leftInjection := SetBlock leftInjection 1 1 (IdentityOperator nd) rone in
  (* block injection on the left, over all the interfaces of sd0 *)
  let rowIFBL := PartialSum [0; bdry0; sd0os; nd; sd0osComp] in
  let colIFBL := PartialSum [0; bdry0; nd] in
  let blockInjectionLeft := new_BlockOperator rowIFBL colIFBL in
  let blockInjectionLeft := SetBlock blockInjectionLeft 0 0 (IdentityOperator bdry0) rone in
  let blockInjectionLeft := SetBlock blockInjectionLeft 2 1 (IdentityOperator nd) rone in
  (* block injection on the right, over all the interfaces of sd1 *)
  let rowIFBR := PartialSum [0; bdry1; int_add nd h1] in
  let colIFBR := PartialSum [0; bdry1; sd1os; int_add nd h1; sd1osComp] in
  let blockInjectionRight := new_BlockOperator rowIFBR colIFBR in
  let blockInjectionRight := SetBlock blockInjectionRight 0 0 (IdentityOperator bdry1) rone in
  let blockInjectionRight :=
    SetBlock blockInjectionRight 1 2 (IdentityOperator (int_add nd h1)) rone in
  Ok (mkInterfaceOffsets (row_offsets Cij) (col_offsets Cij) rowIFR colIFR rowIFL colIFL
        rowIFBL colIFBL rowIFBR colIFBR,
      fun arrays =>
        let CijS :=
          TripleProductOperator
            (BlockOperator_ref leftInjection
               (rowTrueOffsetsIFL arrays) (colTrueOffsetsIFL arrays))
            (BlockOperator_ref Cij (rowTrueOffsetsIF arrays) (colTrueOffsetsIF arrays))
            (BlockOperator_ref rightInjection
               (rowTrueOffsetsIFR arrays) (colTrueOffsetsIFR arrays)) in
        TripleProductOperator
          (BlockOperator_ref blockInjectionLeft
             (rowTrueOffsetsIFBL arrays) (colTrueOffsetsIFBL arrays))
          CijS
          (BlockOperator_ref blockInjectionRight
             (rowTrueOffsetsIFBR arrays) (colTrueOffsetsIFBR arrays))).

(** The loop over the local interfaces that sets the blocks of
    [globalInterfaceOp].  The two calls for a local interface write the same
    ten arrays, the second over the first; the operators are applied after
    the constructor has returned, to what the arrays hold then. *)
Definition globalInterfaceLoop (im : InterfaceMembers) (sm : SurfaceMembers)
    (sd : SubdomainMembers) (block_trueOffsets : list Z)
    : Res (BlockOperator R * list InterfaceOffsets) :=
  '(op, arrays) ←
    forM
      (fun '(op, arrays) ili =>
         li ← vecGet (localInterfaces args) ili;
         let sd0 := FirstSubdomain li in
         let sd1 := SecondSubdomain li in
         _ ← MFEM_VERIFY (sd0 <? sd1);
         '(written, c01) ← CreateInterfaceOperator im sm sd ili 0;
         arrays ← vecSet arrays ili written;
         '(written, c10) ← CreateInterfaceOperator im sm sd ili 1;
         arrays ← vecSet arrays ili written;
         Ok (fun final : list InterfaceOffsets =>
               SetBlock
                 (SetBlock (op final) sd0 sd1 (c01 (final !!! Z.to_nat ili)) rone)
                 sd1 sd0 (c10 (final !!! Z.to_nat ili)) rone,
             arrays))
      (seqZ 0 numLocalInterfaces)
      (fun _ => new_BlockOperator block_trueOffsets block_trueOffsets,
       replicate (Z.to_nat numLocalInterfaces) emptyInterfaceOffsets);
  Ok (op arrays, arrays).

(** The block injection [inj] of subdomain [m], from the [(u^s, f, rho)]
    space to the [(u, f, rho)] space. *)
Definition subdomainInjection (im : InterfaceMembers) (sm : SurfaceMembers)
    (sd : SubdomainMembers) (m : Z) (o : SubdomainObjects) : Res (BlockOperator R) :=
  p ← vecGet (fespace sm) m;
  fes ← deref p;
  sdli ← vecGet (subdomainLocalInterfaces im) m;
  ifsize ←
    forM
      (fun ifsize interfaceIndex =>
         p ← vecGet (interfaceObjects im) interfaceIndex;
         match p with
         | None => Abort
         | Some obj => Ok (int_add ifsize (ifTrueSize obj))
         end)
      sdli 0;
  bdry ← tdofsBdrySize sd m;
  let rowTrueOffsetsSD := PartialSum [0; GetTrueVSize fes; ifsize] in
  let colTrueOffsetsSD := PartialSum [0; bdry; ifsize] in
  let inj := new_BlockOperator rowTrueOffsetsSD colTrueOffsetsSD in
  let inj := SetBlock inj 0 0 (tdofsBdryInjection o) rone in
  Ok (SetBlock inj 1 1 (IdentityOperator ifsize) rone).

(** The diagonal block of [globalSubdomainOp] for a subdomain with
    injection [inj]. *)
Definition subdomainBlock (inj : BlockOperator R) (o : SubdomainObjects) : Operator R :=
  TripleProductOperator (TransposeOperator (BlockOperator_Operator inj))
    (invAsd o) (BlockOperator_Operator inj).

(** The loop over the subdomains that sets the diagonal blocks of
    [globalSubdomainOp]. *)
Definition globalSubdomainLoop (im : InterfaceMembers) (sm : SurfaceMembers)
    (sd : SubdomainMembers) (block_trueOffsets : list Z) : Res (BlockOperator R) :=
  forM
    (fun op m =>
       p ← vecGet (subdomainObjects sd) m;
       match p with
       | None => Ok op
       | Some o =>
           inj ← subdomainInjection im sm sd m o;
           Ok (SetBlock op m m (subdomainBlock inj o) rone)
       end)
    (seqZ 0 (numSubdomains args))
    (new_BlockOperator block_trueOffsets block_trueOffsets).

(** [MFEM_VERIFY(block_trueOffsets.Last() == size, "")] *)
Definition verifyOffsets (block_trueOffsets : list Z) (size : Z) : Res unit :=
  l ← Last block_trueOffsets;
  MFEM_VERIFY (l =? size).

(** The object the constructor leaves.  [globalInterfaceOp] and
    [globalSubdomainOp] are the two block operators [globalOp] is made of. *)
Record DDMInterfaceOperator : Type := mkDDMInterfaceOperator {
  height : Z;
  width : Z;
  interfaceMembers : InterfaceMembers;
  surfaceMembers : SurfaceMembers;
  subdomainMembers : SubdomainMembers;
  block_trueOffsets : list Z;
  interfaceOffsets : list InterfaceOffsets;
  globalInterfaceOp : BlockOperator R;
  globalSubdomainOp : BlockOperator R;
  globalOp : Operator R
}.

(** The constructor from [height = size] on: the partial sums of the block
    sizes, their check against the accumulated size, the two global block
    operators and [globalOp]. *)
Definition assembleGlobalOp (im : InterfaceMembers) (sm : SurfaceMembers)
    (sd : SubdomainMembers) : Res DDMInterfaceOperator :=
  let size := size2 sd in
  let offsets := PartialSum (block_trueOffsets2 sd) in
  _ ← verifyOffsets offsets size;
  '(C, arrays) ← globalInterfaceLoop im sm sd offsets;
  S ← globalSubdomainLoop im sm sd offsets;
  let globalOp :=
    SumOperator
      (ProductOperator (BlockOperator_Operator S) (BlockOperator_Operator C))
      (IdentityOperator size) rone rone in
  Ok (mkDDMInterfaceOperator size size im sm sd offsets arrays C S globalOp).

(** The constructor of [DDMInterfaceOperator]. *)
Definition new_DDMInterfaceOperator : Res DDMInterfaceOperator :=
  _ ← MFEM_VERIFY (numSubdomains args >? 0);
  _ ← MFEM_VERIFY (Z.of_nat (length (interfaceLocalIndex args)) =? numInterfaces args);
  im ← interfaceLoop;
  sm ← surfaceLoop im;
  sd ← subdomainLoop im sm;
  assembleGlobalOp im sm sd.

(** [DDMInterfaceOperator::Mult(x, y)]: [globalOp->Mult(x, y)]. *)
Definition DDMInterfaceOperator_Mult (ddm : DDMInterfaceOperator) (x : Vector R)
    : Res (Vector R) :=
  Mult (globalOp ddm) x.

End DDM.
Arguments Library R : clear implicits.
Arguments InterfaceObjects R : clear implicits.
Arguments InterfaceMembers R : clear implicits.
Arguments SurfaceMembers R : clear implicits.
Arguments SubdomainObjects R : clear implicits.
Arguments SubdomainMembers R : clear implicits.
Arguments DDMInterfaceOperator R : clear implicits.

(** *** The sizes of the blocks *)

(** The sum of a list of sizes. *)
Definition sumZ (l : list Z) : Z := foldr Z.add 0 l.

(** The two true-DOF counts of the interface with index [interfaceIndex],
    added. *)
Definition interfaceSizeAt {R : Type} (im : InterfaceMembers R) (interfaceIndex : Z) : Z :=
  match vecGet (interfaceObjects im) interfaceIndex with
  | Ok (Some obj) => GetTrueVSize (ifespace obj) + GetTrueVSize (iH1fespace obj)
  | _ => 0
  end.

(** The true-DOF count of the Nedelec space, and of the H1 space, of the
    interface with index [interfaceIndex]. *)
Definition ndSizeAt {R : Type} (im : InterfaceMembers R) (interfaceIndex : Z) : Z :=
  match vecGet (interfaceObjects im) interfaceIndex with
  | Ok (Some obj) => GetTrueVSize (ifespace obj)
  | _ => 0
  end.
Definition h1SizeAt {R : Type} (im : InterfaceMembers R) (interfaceIndex : Z) : Z :=
  match vecGet (interfaceObjects im) interfaceIndex with
  | Ok (Some obj) => GetTrueVSize (iH1fespace obj)
  | _ => 0
  end.

(** The sizes of the two blocks, [f] then [rho], of each interface of a
    list. *)
Definition interfaceBlockSizes {R : Type} (im : InterfaceMembers R) (sdli : list Z)
    : list Z :=
  flat_map (fun interfaceIndex => [ndSizeAt im interfaceIndex; h1SizeAt im interfaceIndex])
    sdli.

(** The sum, over the interfaces of subdomain [m], of the two interface
    true-DOF counts. *)
Definition interfaceSizes {R : Type} (im : InterfaceMembers R) (m : nat) : Z :=
  sumZ (map (interfaceSizeAt im) (subdomainLocalInterfaces im !!! m)).

(** The boundary true-DOF count of subdomain [m]. *)
Definition boundarySize (tdofsBdry : list (list Z)) (m : nat) : Z :=
  Z.of_nat (length (tdofsBdry !!! m)).

(** The size of the block of subdomain [m]. *)
Definition subdomainBlockSize {R : Type} (ddm : DDMInterfaceOperator R) (m : nat) : Z :=
  boundarySize (tdofsBdry (subdomainMembers ddm)) m
  + interfaceSizes (interfaceMembers ddm) m.

(** The sum of the block sizes over the [n] subdomains. *)
Definition totalSize {R : Type} (ddm : DDMInterfaceOperator R) (n : nat) : Z :=
  sumZ (map (subdomainBlockSize ddm) (seq 0 n)).

(** ** Separated faces *)

(** No two positions of the first face match the same position of the
    second. *)
Definition firstFaceSeparated (A B : list Vertex) : Prop :=
  forall (i j k : nat) (a a' b : Vertex),
    A !! i = Some a -> A !! j = Some a' -> B !! k = Some b ->
    closeVertices a b -> closeVertices a' b -> i = j.

(** The position in [B] of the first vertex that matches [a]. *)
Definition matchPos (B : list Vertex) (a : Vertex) : nat :=
  match list_find (fun b => verticesEqual faceTol a b = true) B with
  | Some (k, _) => k
  | None => O
  end.

(** ** Concrete meshes and spaces

    Two unit cubes glued along the face [x = 1], the instance on which the
    definitions above are evaluated. *)

(** [l[i]], with a default outside the list. *)
Definition nthZ {A : Type} (d : A) (l : list A) (i : Z) : A :=
  if 0 <=? i then nth (Z.to_nat i) l d else d.

Definition origin : Vertex := mkVertex 0 0 0.

(** The eight corners of the box [[x0, x1] x [0, 1] x [z0, z1]]. *)
Definition boxVertices (x0 x1 z0 z1 : float) : list Vertex :=
  [ mkVertex x0 0 z0; mkVertex x1 0 z0; mkVertex x1 1 z0; mkVertex x0 1 z0;
    mkVertex x0 0 z1; mkVertex x1 0 z1; mkVertex x1 1 z1; mkVertex x0 1 z1 ].

(** The faces, edges and face edges of a hexahedron. *)
Definition hexFaceVertices : list (list Z) :=
  [ [3; 2; 1; 0]; [0; 1; 5; 4]; [1; 2; 6; 5]; [2; 3; 7; 6]; [3; 0; 4; 7]; [4; 5; 6; 7] ].
Definition hexEdgeVertices : list (list Z) :=
  [ [0; 1]; [1; 2]; [3; 2]; [0; 3]; [4; 5]; [5; 6]; [7; 6]; [4; 7];
    [0; 4]; [1; 5]; [2; 6]; [3; 7] ].
Definition hexFaceEdges : list (list Z) :=
  [ [2; 1; 0; 3]; [0; 9; 4; 8]; [1; 10; 5; 9]; [2; 11; 6; 10]; [3; 8; 7; 11]; [4; 5; 6; 7] ].

(** A mesh of one hexahedron with the given corners and attribute. *)
Definition hexMesh (verts : list Vertex) (attribute : Z) : ParMesh :=
  mkParMesh 1 6
    (fun _ => attribute)
    (fun _ => [0; 1; 2; 3; 4; 5])
    (fun _ => [0; 1; 2; 3; 4; 5; 6; 7])
    (fun _ => [0; 1; 2; 3; 4; 5; 6; 7; 8; 9; 10; 11])
    (nthZ [] hexFaceVertices)
    (nthZ [] hexFaceEdges)
    (nthZ [] hexEdgeVertices)
    (nthZ origin verts)
    (fun _ => SQUARE).

(** A surface mesh of one quadrilateral with the given corners; its edges
    (the faces of a surface mesh) join consecutive corners. *)
Definition quadEdgeVertices : list (list Z) := [ [0; 1]; [1; 2]; [3; 2]; [0; 3] ].
Definition quadMesh (verts : list Vertex) : ParMesh :=
  mkParMesh 1 4
    (fun _ => 1)
    (fun _ => [0; 1; 2; 3])
    (fun _ => [0; 1; 2; 3])
    (fun _ => [0; 1; 2; 3])
    (nthZ [] quadEdgeVertices)
    (fun _ => [])
    (nthZ [] quadEdgeVertices)
    (nthZ origin verts)
    (fun _ => SEGMENT).

(** The unit square in the plane [x = 1]. *)
Definition squareX1 : list Vertex :=
  [ mkVertex 1 0 0; mkVertex 1 1 0; mkVertex 1 1 1; mkVertex 1 0 1 ].
Definition ifMeshX1 : ParMesh := quadMesh squareX1.

(** The two cubes [[0,1]^3] and [[1,2] x [0,1]^2]; the attribute of the
    element of a subdomain mesh is the index of the element of the
    unpartitioned mesh plus one. *)
Definition sdMesh0 : ParMesh := hexMesh (boxVertices 0 1 0 1) 1.
Definition sdMesh1 : ParMesh := hexMesh (boxVertices 1 2 0 1) 2.

(** The unpartitioned mesh: elements [0] and [1] with attributes [1] and
    [2], sharing the face [2]. *)
Definition pmesh2 : ParMesh :=
  mkParMesh 2 10
    (fun el => el + 1)
    (fun el => if el =? 0 then [0; 1; 2; 3; 4; 5] else [6; 7; 8; 9; 2; 10])
    (fun _ => []) (fun _ => []) (fun _ => []) (fun _ => []) (fun _ => [])
    (fun _ => origin) (fun _ => SQUARE).

(** Lowest order Nedelec spaces: one DOF on each edge, every DOF a true
    DOF. *)
Definition edgeSpace (mesh : ParMesh) (nEdges : Z) : ParFiniteElementSpace :=
  mkParFiniteElementSpace mesh nEdges nEdges
    (fun d => d)
    (fun be => GetFaceEdges mesh be)
    (fun _ => [])
    (fun e => [e])
    (fun _ => []).

(** Lowest order H1 space on a surface mesh: one DOF on each vertex. *)
Definition vertexSpace (mesh : ParMesh) (nVertices : Z) : ParFiniteElementSpace :=
  mkParFiniteElementSpace mesh nVertices nVertices
    (fun d => d)
    (fun _ => [])
    (fun v => [v])
    (fun _ => [])
    (fun _ => []).

Definition ND_fecbdry : FiniteElementCollection :=
  mkFiniteElementCollection
    (fun g => match g with SEGMENT => 1 | _ => 0 end).

(** A hexahedron whose corner [3] is pinched onto corner [2], [5e-13] above
    it, so that its bottom face [0] has two corners at one place; and the
    unit square in the plane [z = 0]. *)
Definition pinchedVertices : list Vertex :=
  [ mkVertex 0 0 0; mkVertex 1 0 0; mkVertex 1 1 0; mkVertex 1 1 5e-13;
    mkVertex 0 0 1; mkVertex 1 0 1; mkVertex 1 1 1; mkVertex 0 1 1 ].
Definition pinchedMesh : ParMesh := hexMesh pinchedVertices 1.
Definition squareZ0 : list Vertex :=
  [ mkVertex 0 0 0; mkVertex 1 0 0; mkVertex 1 1 0; mkVertex 0 1 0 ].
Definition ifMeshZ0 : ParMesh := quadMesh squareZ0.

(** A hexahedron of zero thickness in [z], lying in the plane [z = 1], and
    the unit square in that plane. *)
Definition flatMesh : ParMesh := hexMesh (boxVertices 0 1 1 1) 1.
Definition squareZ1 : list Vertex :=
  [ mkVertex 0 0 1; mkVertex 1 0 1; mkVertex 1 1 1; mkVertex 0 1 1 ].
Definition ifMeshZ1 : ParMesh := quadMesh squareZ1.

(** A Nedelec space on a hexahedron whose DOF on edge [10] belongs to
    another process: it has no local true DOF number, and the true DOFs
    after it are numbered one lower. *)
Definition sharedEdgeSpace (mesh : ParMesh) : ParFiniteElementSpace :=
  mkParFiniteElementSpace mesh 12 11
    (fun d => if d =? 10 then -1 else if d <? 10 then d else d - 1)
    (fun be => GetFaceEdges mesh be)
    (fun _ => [])
    (fun e => [e])
    (fun _ => []).

(** A grid function of a space whose DOFs are all true DOFs. *)
Definition serialGridFunction {R : Type} : ParGridFunction R :=
  mkParGridFunction (fun x => x) (fun x => x).

(** A dense matrix, given by its rows, with integer entries. *)
Definition DenseMatrix (h w : Z) (rows : list (list Z)) : Operator Z :=
  mkOperator h w
    (fun x => Ok (map (fun row => foldr Z.add 0 (zip_with Z.mul row x)) rows))
    (fun x =>
       Ok (map (fun j => foldr Z.add 0 (zip_with (fun row xi => nthZ 0 row j * xi) rows x))
             (seqZ 0 w))).

(** The vertex-to-edge incidence matrix of a quadrilateral, standing for
    the mixed gradient matrix of an interface. *)
Definition quadGradient : Operator Z :=
  DenseMatrix 4 4 [ [-1; 1; 0; 0]; [0; -1; 1; 0]; [0; 0; 1; -1]; [-1; 0; 0; 1] ].

(** A library for the two cubes: lowest order spaces, identity mass and
    stiffness matrices, the incidence matrix as gradient, and solvers that
    apply the matrix, respectively the preconditioner, they are given. *)
Definition cubesLibrary : Library Z :=
  mkLibrary
    (fun mesh => edgeSpace mesh 12)
    (fun mesh => edgeSpace mesh 4)
    (fun mesh => vertexSpace mesh 4)
    ND_fecbdry
    (fun _ => serialGridFunction)
    (fun fes => IdentityOperator (GetTrueVSize fes))
    (fun fes => IdentityOperator (GetTrueVSize fes))
    (fun fes => IdentityOperator (GetTrueVSize fes))
    (fun _ _ => quadGradient)
    (fun fes => IdentityOperator (GetTrueVSize fes))
    (fun A => A)
    (fun _ prec => prec).

(** The library of the two cubes with larger spaces: the spaces of the
    subdomains and the two spaces of an interface report [2^30] true
    DOFs. *)
Definition largeSpace (fes : ParFiniteElementSpace) : ParFiniteElementSpace :=
  mkParFiniteElementSpace (GetParMesh fes) (GetVSize fes) (2 ^ 30)
    (GetLocalTDofNumber fes) (GetBdrElementDofs fes) (GetVertexDofs fes)
    (GetEdgeDofs fes) (GetFaceDofs fes).
Definition largeLibrary : Library Z :=
  mkLibrary
    (fun mesh => largeSpace (edgeSpace mesh 12))
    (fun mesh => largeSpace (edgeSpace mesh 4))
    (fun mesh => largeSpace (vertexSpace mesh 4))
    ND_fecbdry
    (fun _ => serialGridFunction)
    (fun fes => IdentityOperator (GetTrueVSize fes))
    (fun fes => IdentityOperator (GetTrueVSize fes))
    (fun fes => IdentityOperator (GetTrueVSize fes))
    (fun _ _ => quadGradient)
    (fun fes => IdentityOperator (GetTrueVSize fes))
    (fun A => A)
    (fun _ prec => prec).

(** A library for the two cubes over any scalars, in which the DOF on edge
    [10] of the subdomain whose element has the attribute [owner] belongs to
    another process ([sharedEdgeSpace]); the matrices are identities and the
    solvers apply the matrix, respectively the preconditioner, they are
    given. *)
Definition sharedEdgeLibrary {R : Type} {sc : Scalar R} (owner : Z) : Library R :=
  mkLibrary
    (fun mesh => if GetAttribute mesh 0 =? owner then sharedEdgeSpace mesh
                 else edgeSpace mesh 12)
    (fun mesh => edgeSpace mesh 4)
    (fun mesh => vertexSpace mesh 4)
    ND_fecbdry
    (fun _ => serialGridFunction)
    (fun fes => IdentityOperator (GetTrueVSize fes))
    (fun fes => IdentityOperator (GetTrueVSize fes))
    (fun fes => IdentityOperator (GetTrueVSize fes))
    (fun _ _ => IdentityOperator 4)
    (fun fes => IdentityOperator (GetTrueVSize fes))
    (fun A => A)
    (fun _ prec => prec).

(** The two cubes with their interface. *)
Definition cubesArgs : DDMArgs :=
  mkDDMArgs 2 1 pmesh2 [Some sdMesh0; Some sdMesh1] [Some ifMeshX1]
    [mkSubdomainInterface 0 1 [2]] [0].

(** The table agrees with the history of its writes: every write is still
    in the table, and every mapped entry was written. *)
Definition writesConsistent (t : DofTable) : Prop :=
  (forall i v, In (i, v) (writes t) ->
     0 <= i /\ 0 <= v /\ dofmap t !! Z.to_nat i = Some v) /\
  (forall (p : nat) v, dofmap t !! p = Some v -> v <> -1 ->
     In (Z.of_nat p, v) (writes t)).

(** The property the loops of [SetInterfaceToSurfaceDOFMap] preserve. *)
Definition tableInv (n : nat) (t : DofTable) : Prop :=
  writesConsistent t /\ length (dofmap t) = n.

(** ** Ordered sets

    A [std::set<int>] holds its elements in strictly ascending order. *)
Fixpoint ascending (s : list Z) : Prop :=
  match s with
  | [] => True
  | x :: s' => (forall y, In y s' -> x < y) /\ ascending s'
  end.

(** [dofs[i] >= 0 ? dofs[i] : -1 - dofs[i]]: the index of a DOF listed with
    a sign. *)
Definition decodeDof (dof : Z) : Z := if dof >=? 0 then dof else -1 - dof.

(** Every write recorded in the history carries a local true DOF number of
    the subdomain space. *)
Definition writesFrom (fespace : ParFiniteElementSpace) (t : DofTable) : Prop :=
  forall i v, In (i, v) (writes t) -> exists sddof, v = GetLocalTDofNumber fespace sddof.

(** The two cubes as one subdomain: both elements carry the attribute [1],
    so that the face [2] they share has two neighbours in the subdomain. *)
Definition pmeshOneAttribute : ParMesh :=
  mkParMesh 2 10
    (fun _ => 1)
    (fun el => if el =? 0 then [0; 1; 2; 3; 4; 5] else [6; 7; 8; 9; 2; 10])
    (fun _ => []) (fun _ => []) (fun _ => []) (fun _ => []) (fun _ => [])
    (fun _ => origin) (fun _ => SQUARE).

(** What holds of the members after [k] turns of the loop over the
    interfaces. *)
Definition interfaceLoopInv {R : Type} {sc : Scalar R} (lib : Library R) (args : DDMArgs)
    (k : nat) (st : InterfaceMembers R) : Prop :=
  (length (interfaceObjects st) = k /\
   forall j : nat, (j < k)%nat ->
     exists pm l,
       pmeshIF args !! j = Some pm /\ interfaceLocalIndex args !! j = Some l /\
       interfaceObjects st !! j = Some (CreateInterfaceMatrices lib <$> pm) /\
       (0 <= l <-> is_Some pm) /\
       (0 <= l -> exists li, localInterfaces args !! Z.to_nat l = Some li /\
                    0 <= FirstSubdomain li < numSubdomains args /\
                    0 <= SecondSubdomain li < numSubdomains args)) /\
  (length (globalInterfaceIndex st) = length (localInterfaces args) /\
   (forall (l : nat) g, globalInterfaceIndex st !! l = Some g ->
      g = -1 \/ (0 <= g < Z.of_nat k /\
                 interfaceLocalIndex args !! Z.to_nat g = Some (Z.of_nat l))) /\
   (forall (j : nat) l, (j < k)%nat -> interfaceLocalIndex args !! j = Some l -> 0 <= l ->
      globalInterfaceIndex st !! Z.to_nat l = Some (Z.of_nat j))) /\
  (length (subdomainLocalInterfaces st) = Z.to_nat (numSubdomains args) /\
   forall (m : nat) lst, subdomainLocalInterfaces st !! m = Some lst ->
     forall i, In i lst <->
       exists l li,
         0 <= i < Z.of_nat k /\
         interfaceLocalIndex args !! Z.to_nat i = Some l /\ 0 <= l /\
         localInterfaces args !! Z.to_nat l = Some li /\
         (FirstSubdomain li = Z.of_nat m \/ SecondSubdomain li = Z.of_nat m)).

(** The positions [(r, c)] of the six blocks that [CreateSubdomainOperator]
    sets for the [i]-th interface of a subdomain. *)
Definition interfaceBlockPosition (i r c : Z) : Prop :=
  (r = 0 /\ c = 2 * i + 2) \/
  (r = 2 * i + 1 /\ (c = 0 \/ c = 2 * i + 1 \/ c = 2 * i + 2)) \/
  (r = 2 * i + 2 /\ (c = 2 * i + 1 \/ c = 2 * i + 2)).

(** * Theorems *)

(** ** The geometric face matcher *)

Lemma verticesEqual_true (tol : float) (a b : Vertex) :
  verticesEqual tol a b = true <->
  forall k : nat, (k < 3)%nat -> (tol <? abs (coord a k - coord b k))%float = false.
Proof.
  unfold verticesEqual. cbn [seq fold_left].
  split.
  - intros H k Hk.
    destruct (tol <? abs (coord a 0 - coord b 0))%float eqn:E0;
    destruct (tol <? abs (coord a 1 - coord b 1))%float eqn:E1;
    destruct (tol <? abs (coord a 2 - coord b 2))%float eqn:E2; try discriminate.
    destruct k as [|[|[|k]]]; try assumption; lia.
  - intros H.
    rewrite (H 0%nat), (H 1%nat), (H 2%nat) by lia. reflexivity.
Qed.

Lemma verticesEqual_close (a b : Vertex) :
  verticesEqual faceTol a b = true <-> closeVertices a b.
Proof. apply verticesEqual_true. Qed.

Lemma vertexFound_fold (sm : ParMesh) (vi : Vertex) (ev : list Z) (init : bool) :
  fold_left
    (fun found e => if verticesEqual faceTol vi (GetVertex sm e) then true else found)
    ev init
  = init || existsb (fun e => verticesEqual faceTol vi (GetVertex sm e)) ev.
Proof.
  revert init. induction ev as [|e ev IH]; intros init; cbn [fold_left existsb].
  - now rewrite orb_false_r.
  - rewrite IH. destruct (verticesEqual faceTol vi (GetVertex sm e)), init; reflexivity.
Qed.

Lemma vertexFound_true (sm : ParMesh) (vi : Vertex) (ev : list Z) :
  vertexFound sm vi ev = true <->
  exists b, In b (vertexCoords sm ev) /\ closeVertices vi b.
Proof.
  unfold vertexFound. rewrite vertexFound_fold. cbn [orb].
  rewrite existsb_exists. unfold vertexCoords. split.
  - intros (e & He & Hv). exists (GetVertex sm e). split.
    + apply in_map_iff. eauto.
    + now apply verticesEqual_close.
  - intros (b & Hb & Hc). apply in_map_iff in Hb as (e & <- & He).
    exists e. split; [assumption|]. now apply verticesEqual_close.
Qed.

Lemma allVerticesFound_true (vm sm : ParMesh) (fv ev : list Z) :
  allVerticesFound vm sm fv ev = true <->
  firstFaceCovered (vertexCoords vm fv) (vertexCoords sm ev).
Proof.
  unfold firstFaceCovered.
  induction fv as [|v fv IH]; cbn [allVerticesFound vertexCoords map].
  - split; [intros _ a []|reflexivity].
  - destruct (vertexFound sm (GetVertex vm v) ev) eqn:E.
    + rewrite IH. apply vertexFound_true in E. split.
      * intros H a [<-|Ha]; auto.
      * intros H a Ha. apply H. now right.
    + split; [discriminate|]. intros H.
      assert (vertexFound sm (GetVertex vm v) ev = true) as E'
        by (apply vertexFound_true, H; now left).
      congruence.
Qed.

Lemma FacesCoincideGeometrically_true (vm : ParMesh) (f : Z) (sm : ParMesh) (e : Z) :
  FacesCoincideGeometrically vm f sm e = true <->
  length (GetFaceVertices vm f) = length (GetElementVertices sm e) /\
  firstFaceCovered (vertexCoords vm (GetFaceVertices vm f))
                   (vertexCoords sm (GetElementVertices sm e)).
Proof.
  unfold FacesCoincideGeometrically.
  destruct (Nat.eqb_spec (length (GetFaceVertices vm f)) (length (GetElementVertices sm e)))
    as [Hlen|Hlen]; cbn [negb].
  - rewrite Hlen, firstn_all, allVerticesFound_true. tauto.
  - split; [discriminate|]. tauto.
Qed.

Lemma matchPos_spec (B : list Vertex) (a : Vertex) :
  (exists b, In b B /\ closeVertices a b) ->
  exists b, B !! matchPos B a = Some b /\ closeVertices a b.
Proof.
  intros (b & Hb & Hc). unfold matchPos.
  destruct (list_find (fun b => verticesEqual faceTol a b = true) B) as [[k b']|] eqn:E.
  - apply list_find_Some in E as (Hk & Hv & _). exists b'. split; [assumption|].
    now apply verticesEqual_close.
  - exfalso. apply list_find_None in E. rewrite Forall_forall in E.
    apply (E b).
    + now apply list_elem_of_In.
    + now apply verticesEqual_close.
Qed.

(** A covering of the second face by the first that sends distinct
    positions to distinct positions reaches every position: the pigeonhole
    principle on the positions of [B]. *)
Lemma covered_separated_onto (A B : list Vertex) :
  length A = length B -> firstFaceCovered A B -> firstFaceSeparated A B ->
  forall b, In b B -> exists a, In a A /\ closeVertices a b.
Proof.
  intros Hlen Hcov Hsep b Hb.
  set (ks := map (matchPos B) A).
  assert (Hpick : forall i a, A !! i = Some a ->
            exists b', B !! matchPos B a = Some b' /\ closeVertices a b').
  { intros i a Hi. apply matchPos_spec, Hcov.
    apply list_elem_of_In. eapply list_elem_of_lookup_2; eauto. }
  assert (Hnodup : NoDup ks).
  { apply NoDup_alt. intros i j k Hi Hj. unfold ks in Hi, Hj.
    rewrite list_lookup_fmap in Hi, Hj.
    destruct (A !! i) as [a|] eqn:Ei; [|discriminate].
    destruct (A !! j) as [a'|] eqn:Ej; [|discriminate].
    cbn in Hi, Hj. injection Hi as Hi. injection Hj as Hj.
    destruct (Hpick i a Ei) as (b1 & Hb1 & Hc1).
    destruct (Hpick j a' Ej) as (b2 & Hb2 & Hc2).
    rewrite Hi in Hb1. rewrite Hj in Hb2. rewrite Hb1 in Hb2. injection Hb2 as <-.
    eapply Hsep; eauto. }
  assert (Hincl : incl ks (seq 0 (length B))).
  { intros k Hk. unfold ks in Hk. apply in_map_iff in Hk as (a & <- & Ha).
    apply list_elem_of_In, list_elem_of_lookup_1 in Ha as (i & Hi).
    destruct (Hpick i a Hi) as (b' & Hb' & _).
    apply in_seq. apply lookup_lt_Some in Hb'. lia. }
  assert (Hperm : Permutation ks (seq 0 (length B))).
  { apply NoDup_Permutation_bis; [now apply NoDup_ListNoDup| |assumption].
    unfold ks. rewrite length_seq, length_map. lia. }
  apply list_elem_of_In, list_elem_of_lookup_1 in Hb as (k & Hk).
  assert (Hin : In k ks).
  { apply (Permutation_in _ (Permutation_sym Hperm)), in_seq.
    apply lookup_lt_Some in Hk. lia. }
  unfold ks in Hin. apply in_map_iff in Hin as (a & Hka & Ha).
  exists a. split; [assumption|].
  apply list_elem_of_In, list_elem_of_lookup_1 in Ha as (i & Hi).
  destruct (Hpick i a Hi) as (b' & Hb' & Hc). rewrite Hka, Hk in Hb'.
  now injection Hb' as <-.
Qed.

(** The pinched hexahedron: its bottom face has as many corners as the unit
    square and each of them lies on a corner of the square, yet the corner
    [(0, 1, 0)] of the square matches none of them. *)
Lemma pinched_matches :
  FacesCoincideGeometrically pinchedMesh 0 ifMeshZ0 0 = true.
Proof. vm_compute. reflexivity. Qed.

Lemma pinched_not_coincide :
  ~ vertexSetsCoincide
      (vertexCoords pinchedMesh (GetFaceVertices pinchedMesh 0))
      (vertexCoords ifMeshZ0 (GetElementVertices ifMeshZ0 0)).
Proof.
  intros [_ H].
  destruct (H (mkVertex 0 1 0)) as (a & Ha & Hc).
  { vm_compute. tauto. }
  vm_compute in Ha.
  destruct Ha as [<-|[<-|[<-|[<-|[]]]]].
  - specialize (Hc 0%nat ltac:(lia)). vm_compute in Hc. discriminate.
  - specialize (Hc 0%nat ltac:(lia)). vm_compute in Hc. discriminate.
  - specialize (Hc 0%nat ltac:(lia)). vm_compute in Hc. discriminate.
  - specialize (Hc 1%nat ltac:(lia)). vm_compute in Hc. discriminate.
Qed.

(** C6, as the code has it.  The matcher returns [true] exactly when the
    two faces have the same number of vertices and every vertex of the
    first face is within the tolerance of some vertex of the second; it
    returns [false] when the counts differ; being a total function it never
    raises.  When no two positions of the first face match one position of
    the second, this is the coincidence of the two vertex sets. *)
Theorem FacesCoincideGeometrically_covering :
  forall (volumeMesh : ParMesh) (face : Z) (surfaceMesh : ParMesh) (elem : Z),
    let A := vertexCoords volumeMesh (GetFaceVertices volumeMesh face) in
    let B := vertexCoords surfaceMesh (GetElementVertices surfaceMesh elem) in
    (FacesCoincideGeometrically volumeMesh face surfaceMesh elem = true <->
       length A = length B /\ firstFaceCovered A B) /\
    (length A <> length B ->
       FacesCoincideGeometrically volumeMesh face surfaceMesh elem = false) /\
    (firstFaceSeparated A B ->
       (FacesCoincideGeometrically volumeMesh face surfaceMesh elem = true <->
          length A = length B /\ vertexSetsCoincide A B)).
Proof.
  intros vm f sm e A B.
  assert (Hchar : FacesCoincideGeometrically vm f sm e = true <->
                  length A = length B /\ firstFaceCovered A B).
  { rewrite FacesCoincideGeometrically_true. unfold A, B, vertexCoords.
    rewrite !length_map. reflexivity. }
  split; [exact Hchar|]. split.
  - intros Hne. apply not_true_is_false. rewrite Hchar. tauto.
  - intros Hsep. rewrite Hchar. split.
    + intros [Hlen Hcov]. split; [assumption|]. split; [exact Hcov|].
      now apply covered_separated_onto.
    + intros [Hlen [Hcov _]]. split; assumption.
Qed.

(** C6 as stated fails: the matcher accepts the bottom face of the pinched
    hexahedron against the unit square, whose vertex sets do not coincide. *)
Lemma FacesCoincideGeometrically_accepts_different_sets :
  FacesCoincideGeometrically pinchedMesh 0 ifMeshZ0 0 = true /\
  ~ vertexSetsCoincide
      (vertexCoords pinchedMesh (GetFaceVertices pinchedMesh 0))
      (vertexCoords ifMeshZ0 (GetElementVertices ifMeshZ0 0)).
Proof. split; [exact pinched_matches|exact pinched_not_coincide]. Qed.

(** C10.  For faces with equal vertex counts the matcher returns [true]
    exactly when each vertex of the first face lies within the tolerance of
    some vertex of the second; the vertices of the second face need not be
    matched, and there are faces with equal counts and different vertex sets
    that it accepts, two vertices of the first lying on one vertex of the
    second. *)
Theorem FacesCoincideGeometrically_one_directional :
  (forall (volumeMesh : ParMesh) (face : Z) (surfaceMesh : ParMesh) (elem : Z),
     length (GetFaceVertices volumeMesh face)
       = length (GetElementVertices surfaceMesh elem) ->
     (FacesCoincideGeometrically volumeMesh face surfaceMesh elem = true <->
        forall a, In a (vertexCoords volumeMesh (GetFaceVertices volumeMesh face)) ->
        exists b, In b (vertexCoords surfaceMesh (GetElementVertices surfaceMesh elem))
                  /\ closeVertices a b)) /\
  (exists (volumeMesh : ParMesh) (face : Z) (surfaceMesh : ParMesh) (elem : Z)
          (a a' b : Vertex) (i j : nat),
     let A := vertexCoords volumeMesh (GetFaceVertices volumeMesh face) in
     let B := vertexCoords surfaceMesh (GetElementVertices surfaceMesh elem) in
     length A = length B /\
     A !! i = Some a /\ A !! j = Some a' /\ i <> j /\ In b B /\
     closeVertices a b /\ closeVertices a' b /\
     ~ vertexSetsCoincide A B /\
     FacesCoincideGeometrically volumeMesh face surfaceMesh elem = true).
Proof.
  split.
  - intros vm f sm e Hlen. rewrite FacesCoincideGeometrically_true.
    unfold firstFaceCovered. tauto.
  - exists pinchedMesh, 0, ifMeshZ0, 0,
      (mkVertex 1 1 5e-13), (mkVertex 1 1 0), (mkVertex 1 1 0), 0%nat, 1%nat.
    cbv zeta. split; [reflexivity|]. split; [reflexivity|]. split; [reflexivity|].
    split; [lia|]. split; [vm_compute; tauto|].
    split; [apply verticesEqual_close; vm_compute; reflexivity|].
    split; [apply verticesEqual_close; vm_compute; reflexivity|].
    split; [exact pinched_not_coincide|exact pinched_matches].
Qed.

(** ** Arrays and loops *)

Lemma vecGet_Ok {A : Type} (v : list A) (i : Z) (a : A) :
  vecGet v i = Ok a <-> 0 <= i /\ v !! Z.to_nat i = Some a.
Proof.
  unfold vecGet. destruct (Z.leb_spec 0 i) as [Hi|Hi].
  - destruct (v !! Z.to_nat i) as [b|]; split.
    + intros [= ->]. auto.
    + intros [_ [= ->]]. reflexivity.
    + discriminate.
    + intros [_ [=]].
  - split; [discriminate|]. lia.
Qed.

Lemma vecSet_Ok {A : Type} (v v' : list A) (i : Z) (a : A) :
  vecSet v i a = Ok v' <->
  0 <= i < Z.of_nat (length v) /\ v' = <[Z.to_nat i := a]> v.
Proof.
  unfold vecSet.
  destruct (Z.leb_spec 0 i) as [Hi|Hi], (Z.ltb_spec i (Z.of_nat (length v))) as [Hl|Hl];
    cbn [andb]; split; try discriminate; try lia.
  - intros [= <-]. auto.
  - intros [_ ->]. reflexivity.
Qed.

Lemma vecGet_in_range {A : Type} (v : list A) (i : Z) :
  0 <= i < Z.of_nat (length v) -> exists a, vecGet v i = Ok a /\ v !! Z.to_nat i = Some a.
Proof.
  intros Hi. destruct (lookup_lt_is_Some_2 v (Z.to_nat i)) as [a Ha]; [lia|].
  exists a. split; [|assumption]. apply vecGet_Ok. split; [lia|assumption].
Qed.

Lemma vecSet_in_range {A : Type} (v : list A) (i : Z) (a : A) :
  0 <= i < Z.of_nat (length v) -> vecSet v i a = Ok (<[Z.to_nat i := a]> v).
Proof. intros Hi. apply vecSet_Ok. auto. Qed.

Lemma seqZ_S (m : Z) (n : nat) :
  seqZ m (Z.of_nat (S n)) = m :: seqZ (m + 1) (Z.of_nat n).
Proof.
  rewrite seqZ_cons by lia. f_equal. f_equal; lia.
Qed.

(** A property that every iteration of a loop preserves holds when the
    loop ends. *)
Lemma forM_invariant {A S : Type} (P : S -> Prop) (body : S -> A -> Res S) (l : list A) :
  (forall s a s', In a l -> P s -> body s a = Ok s' -> P s') ->
  forall s s', P s -> forM body l s = Ok s' -> P s'.
Proof.
  induction l as [|a l IH]; intros Hbody s s' Hs Hrun; cbn in Hrun.
  - now injection Hrun as <-.
  - destruct (body s a) as [s1| | |] eqn:E; cbn in Hrun; try discriminate.
    apply (IH (fun s a s' Ha => Hbody s a s' (or_intror Ha)) s1 s'); [|assumption].
    eapply Hbody; eauto. now left.
Qed.

(** ** The index-set injection *)

Section SetInjection.
Context {R : Type} {sc : Scalar R}.

Lemma length_zeros (n : Z) : length (zeros (R := R) n) = Z.to_nat n.
Proof. apply length_replicate. Qed.

Lemma scatter_loop (x : Vector R) (ids : list Z) :
  forall (s : Z) (y0 : Vector R),
    0 <= s ->
    (forall it, In it ids -> 0 <= it < Z.of_nat (length y0)) ->
    s + Z.of_nat (length ids) <= Z.of_nat (length x) ->
    exists y,
      forM (fun y '(i, it) => xi ← vecGet x i; vecSet y it xi)
        (zip (seqZ s (Z.of_nat (length ids))) ids) y0 = Ok y /\
      length y = length y0 /\
      (forall p : nat, ~ In (Z.of_nat p) ids -> y !! p = y0 !! p) /\
      (NoDup ids -> forall (j : nat) (it : Z),
         ids !! j = Some it -> y !! Z.to_nat it = x !! (Z.to_nat s + j)%nat).
Proof.
  induction ids as [|it ids IH]; intros s y0 Hs Hrange Hlen.
  - exists y0. cbn. repeat split; auto. intros _ j it Hj. discriminate.
  - cbn [length] in *. rewrite seqZ_S. cbn [zip zip_with forM].
    destruct (vecGet_in_range x s) as (xs & Hget & Hxs); [lia|].
    rewrite Hget. cbn.
    rewrite vecSet_in_range by (apply Hrange; now left). cbn.
    destruct (IH (s + 1) (<[Z.to_nat it := xs]> y0)) as (y & Hrun & Hleny & Hout & Hin).
    + lia.
    + intros it' Hit'. rewrite length_insert. apply Hrange. now right.
    + lia.
    + exists y. split; [exact Hrun|]. split; [now rewrite Hleny, length_insert|].
      split.
      * intros p Hp. rewrite Hout by (intros H; apply Hp; now right).
        apply list_lookup_insert_ne. intros Heq. subst p. apply Hp. left.
        specialize (Hrange it (or_introl eq_refl)). lia.
      * intros Hnd j it' Hj. apply NoDup_cons in Hnd as [Hnotin Hnd].
        destruct j as [|j]; cbn in Hj.
        -- injection Hj as <-. rewrite Hout.
           ++ rewrite list_lookup_insert_eq.
              ** rewrite <- Hxs. f_equal. lia.
              ** specialize (Hrange it (or_introl eq_refl)). lia.
           ++ intros H. apply Hnotin. apply list_elem_of_In.
              specialize (Hrange it (or_introl eq_refl)).
              now rewrite Z2Nat.id in H by lia.
        -- rewrite (Hin Hnd j it' Hj). f_equal. lia.
Qed.

Lemma gather_loop (x : Vector R) (ids : list Z) :
  forall (s : Z) (y0 : Vector R),
    0 <= s ->
    s + Z.of_nat (length ids) <= Z.of_nat (length y0) ->
    (forall it, In it ids -> 0 <= it < Z.of_nat (length x)) ->
    exists y,
      forM (fun y '(i, it) => xit ← vecGet x it; vecSet y i xit)
        (zip (seqZ s (Z.of_nat (length ids))) ids) y0 = Ok y /\
      length y = length y0 /\
      (forall p : nat, (p < Z.to_nat s)%nat -> y !! p = y0 !! p) /\
      (forall (j : nat) (it : Z),
         ids !! j = Some it -> y !! (Z.to_nat s + j)%nat = x !! Z.to_nat it).
Proof.
  induction ids as [|it ids IH]; intros s y0 Hs Hlen Hrange.
  - exists y0. cbn. repeat split; auto. intros j it Hj. discriminate.
  - cbn [length] in *. rewrite seqZ_S. cbn [zip zip_with forM].
    destruct (vecGet_in_range x it) as (xit & Hget & Hxit); [apply Hrange; now left|].
    rewrite Hget. cbn.
    rewrite vecSet_in_range by lia. cbn.
    destruct (IH (s + 1) (<[Z.to_nat s := xit]> y0)) as (y & Hrun & Hleny & Hbefore & Hin).
    + lia.
    + rewrite length_insert. lia.
    + intros it' Hit'. apply Hrange. now right.
    + exists y. split; [exact Hrun|]. split; [now rewrite Hleny, length_insert|].
      split.
      * intros p Hp. rewrite Hbefore by lia. apply list_lookup_insert_ne. lia.
      * intros j it' Hj. destruct j as [|j]; cbn in Hj.
        -- injection Hj as <-. rewrite Nat.add_0_r, Hbefore by lia.
           rewrite list_lookup_insert_eq by lia. now rewrite <- Hxit.
        -- rewrite <- (Hin j it' Hj). f_equal. lia.
Qed.

(** Distinct indices below [height] are at most [height] many. *)
Lemma distinct_indices_bounded (height : Z) (ids : list Z) :
  0 <= height ->
  NoDup ids -> (forall it, In it ids -> 0 <= it < height) ->
  Z.of_nat (length ids) <= height.
Proof.
  intros Hheight Hnd Hrange.
  assert (Hincl : incl (map Z.to_nat ids) (seq 0 (Z.to_nat height))).
  { intros n Hn. apply in_map_iff in Hn as (it & <- & Hit).
    apply in_seq. specialize (Hrange it Hit). lia. }
  assert (Hnd' : List.NoDup (map Z.to_nat ids)).
  { apply NoDup_ListNoDup. apply NoDup_fmap_2_strong; [|assumption].
    intros a b Ha Hb Hab. apply list_elem_of_In in Ha, Hb.
    pose proof (Hrange a Ha). pose proof (Hrange b Hb). lia. }
  pose proof (NoDup_incl_length Hnd' Hincl) as Hle.
  rewrite length_map, length_seq in Hle. lia.
Qed.

Lemma SetInjectionOperator_Mult_lookup (height : Z) (id : list Z) (x : Vector R) :
  (forall it, In it id -> 0 <= it < height) ->
  length x = length id ->
  exists y,
    SetInjectionOperator_Mult height id x = Ok y /\
    length y = Z.to_nat height /\
    (forall p : nat, ~ In (Z.of_nat p) id -> (p < Z.to_nat height)%nat ->
       y !! p = Some rzero) /\
    (NoDup id -> forall (j : nat) (it : Z),
       id !! j = Some it -> y !! Z.to_nat it = x !! j).
Proof.
  intros Hrange Hlen. unfold SetInjectionOperator_Mult.
  destruct (scatter_loop x id 0 (zeros height)) as (y & Hrun & Hleny & Hout & Hin).
  - lia.
  - intros it Hit. rewrite length_zeros. specialize (Hrange it Hit). lia.
  - lia.
  - exists y. split; [exact Hrun|]. rewrite length_zeros in Hleny.
    split; [assumption|]. split.
    + intros p Hp Hlt. rewrite (Hout p Hp). unfold zeros.
      now apply lookup_replicate_2.
    + intros Hnd j it Hj. now rewrite (Hin Hnd j it Hj).
Qed.

Lemma SetInjectionOperator_MultTranspose_lookup (id : list Z) (y : Vector R) :
  (forall it, In it id -> 0 <= it < Z.of_nat (length y)) ->
  exists x,
    SetInjectionOperator_MultTranspose (Z.of_nat (length id)) id y = Ok x /\
    length x = length id /\
    (forall (j : nat) (it : Z), id !! j = Some it -> x !! j = y !! Z.to_nat it).
Proof.
  intros Hrange. unfold SetInjectionOperator_MultTranspose.
  destruct (gather_loop y id 0 (zeros (Z.of_nat (length id)))) as (x & Hrun & Hlenx & _ & Hin).
  - lia.
  - rewrite length_zeros. lia.
  - assumption.
  - exists x. split; [exact Hrun|]. rewrite length_zeros, Nat2Z.id in Hlenx.
    split; [assumption|]. intros j it Hj. now rewrite <- (Hin j it Hj).
Qed.

Lemma SetInjectionOperator_roundtrip (height : Z) (id : list Z) (x : Vector R) :
  NoDup id -> (forall it, In it id -> 0 <= it < height) ->
  length x = length id ->
  exists y,
    SetInjectionOperator_Mult height id x = Ok y /\
    SetInjectionOperator_MultTranspose (Z.of_nat (length id)) id y = Ok x.
Proof.
  intros Hnd Hrange Hlen.
  destruct (SetInjectionOperator_Mult_lookup height id x Hrange Hlen)
    as (y & Hy & Hleny & _ & Hin).
  exists y. split; [exact Hy|].
  destruct (SetInjectionOperator_MultTranspose_lookup id y) as (x' & Hx' & Hlenx' & Hgather).
  { intros it Hit. specialize (Hrange it Hit). lia. }
  rewrite Hx'. f_equal. apply list_eq. intros j.
  destruct (id !! j) as [it|] eqn:Hj.
  - rewrite (Hgather j it Hj). now apply Hin.
  - apply lookup_ge_None in Hj.
    rewrite (proj2 (lookup_ge_None x' j)), (proj2 (lookup_ge_None x j)) by lia.
    reflexivity.
Qed.

End SetInjection.

(** C7.  For an ordered set of [k] distinct indices into an ambient vector
    of size [height], the index-set injection can be constructed, the
    transpose undoes the injection on every compact vector of length [k],
    and the injection sends distinct compact vectors to distinct ambient
    vectors. *)
Theorem SetInjectionOperator_embedding :
  forall (R : Type) (sc : Scalar R) (height : Z) (id : std_set),
    0 <= height ->
    NoDup id ->
    (forall it, In it id -> 0 <= it < height) ->
    exists op : Operator R,
      new_SetInjectionOperator height id = Ok op /\
      Height op = height /\ Width op = Z.of_nat (length id) /\
      (forall x : Vector R, length x = length id ->
         exists y, Mult op x = Ok y /\ length y = Z.to_nat height /\
                   MultTranspose op y = Ok x) /\
      (forall x x' : Vector R, length x = length id -> length x' = length id ->
         Mult op x = Mult op x' -> x = x').
Proof.
  intros R sc height id Hheight Hnd Hrange.
  pose proof (distinct_indices_bounded height id Hheight Hnd Hrange) as Hk.
  unfold new_SetInjectionOperator.
  replace (height >=? Z.of_nat (length id)) with true by (symmetry; lia).
  cbn. eexists. split; [reflexivity|]. cbn. split; [reflexivity|]. split; [reflexivity|].
  split.
  - intros x Hlen.
    destruct (SetInjectionOperator_roundtrip height id x Hnd Hrange Hlen) as (y & Hy & Hback).
    exists y. split; [assumption|]. split; [|assumption].
    destruct (SetInjectionOperator_Mult_lookup height id x Hrange Hlen)
      as (y' & Hy' & Hleny & _).
    rewrite Hy in Hy'. now injection Hy' as <-.
  - intros x x' Hlen Hlen' Heq.
    destruct (SetInjectionOperator_roundtrip height id x Hnd Hrange Hlen) as (y & Hy & Hback).
    destruct (SetInjectionOperator_roundtrip height id x' Hnd Hrange Hlen') as (y' & Hy' & Hback').
    rewrite Hy, Hy' in Heq. injection Heq as <-. rewrite Hback in Hback'.
    now injection Hback'.
Qed.

Lemma SetInjectionOperator_embedding_witness :
  exists op : Operator Z,
    new_SetInjectionOperator 5 [1; 3; 4] = Ok op /\
    Height op = 5 /\ Width op = Z.of_nat (length [1; 3; 4]) /\
    (forall x : Vector Z, length x = length [1; 3; 4] ->
       exists y, Mult op x = Ok y /\ length y = Z.to_nat 5 /\
                 MultTranspose op y = Ok x) /\
    (forall x x' : Vector Z, length x = length [1; 3; 4] -> length x' = length [1; 3; 4] ->
       Mult op x = Mult op x' -> x = x').
Proof.
  apply (SetInjectionOperator_embedding Z Z_Scalar 5 [1; 3; 4]).
  - lia.
  - apply (bool_decide_unpack _). vm_compute. exact I.
  - intros it [<-|[<-|[<-|[]]]]; lia.
Defined.

(** C9.  Both constructors check [height >= width]: with a height below
    the size of the index set, or below the true-DOF count of the interface
    space, the construction aborts, and it succeeds otherwise; an operator
    that was constructed has [Width <= Height]. *)
Theorem injection_constructors_require_height_ge_width :
  forall (R : Type) (sc : Scalar R),
    (forall (height : Z) (a : std_set),
       (height < Z.of_nat (length a) ->
          new_SetInjectionOperator (R := R) height a = Abort) /\
       ((exists op, new_SetInjectionOperator (R := R) height a = Ok op) <->
          Z.of_nat (length a) <= height) /\
       (forall op, new_SetInjectionOperator (R := R) height a = Ok op ->
          Height op = height /\ Width op = Z.of_nat (length a) /\
          Width op <= Height op)) /\
    (forall (height : Z) (interfaceSpace : ParFiniteElementSpace)
            (gf : ParGridFunction R) (a : list Z),
       (height < GetTrueVSize interfaceSpace ->
          new_InjectionOperator height interfaceSpace gf a = Abort) /\
       ((exists op, new_InjectionOperator height interfaceSpace gf a = Ok op) <->
          GetTrueVSize interfaceSpace <= height) /\
       (forall op, new_InjectionOperator height interfaceSpace gf a = Ok op ->
          Height op = height /\ Width op = GetTrueVSize interfaceSpace /\
          Width op <= Height op)).
Proof.
  intros R sc. split.
  - intros height a. unfold new_SetInjectionOperator.
    destruct (Z.geb_spec height (Z.of_nat (length a))) as [Hge|Hlt]; cbn.
    + split; [lia|]. split.
      * split; [lia|]. intros _. eexists. reflexivity.
      * intros op [= <-]. cbn. lia.
    + split; [reflexivity|]. split.
      * split; [intros [op [=]]|lia].
      * intros op [=].
  - intros height interfaceSpace gf a. unfold new_InjectionOperator.
    destruct (Z.geb_spec height (GetTrueVSize interfaceSpace)) as [Hge|Hlt]; cbn.
    + split; [lia|]. split.
      * split; [lia|]. intros _. eexists. reflexivity.
      * intros op [= <-]. cbn. lia.
    + split; [reflexivity|]. split.
      * split; [intros [op [=]]|lia].
      * intros op [=].
Qed.

(** ** The full-to-true injection at an unmapped entry *)

(** C2, at an input on which the code leaves the output vector.  On the
    cube [[0,1]^3] whose DOF on edge [10] is owned by another process,
    [SetInterfaceToSurfaceDOFMap] leaves entry [1] of the table at the
    sentinel [-1]; the [InjectionOperator] over this table is constructed,
    and its [Mult] writes [y[-1]]. *)
Theorem InjectionOperator_Mult_writes_at_sentinel :
  SetInterfaceToSurfaceDOFMap (edgeSpace ifMeshX1 4) (sharedEdgeSpace sdMesh0)
    pmesh2 1 [2] ND_fecbdry = Ok [1; -1; 5; 9] /\
  exists op : Operator Z,
    new_InjectionOperator (GetTrueVSize (sharedEdgeSpace sdMesh0)) (edgeSpace ifMeshX1 4)
      serialGridFunction [1; -1; 5; 9] = Ok op /\
    Mult op [7; 8; 9; 10] = OutOfBounds /\
    MultTranspose op [0; 1; 2; 3; 4; 5; 6; 7; 8; 9; 10] = OutOfBounds.
Proof.
  split; [vm_compute; reflexivity|].
  eexists. split; [vm_compute; reflexivity|].
  split; vm_compute; reflexivity.
Qed.

(** ** The scan for the coinciding face *)

Lemma scanElementFaces_no_match (sdMesh ifMesh : ParMesh) (i : Z) (elFaces : list Z) :
  (forall f, In f elFaces -> FacesCoincideGeometrically sdMesh f ifMesh i = false) ->
  forall init, fold_left
    (fun sdMeshFace f =>
       if FacesCoincideGeometrically sdMesh f ifMesh i then f else sdMeshFace)
    elFaces init = init.
Proof.
  induction elFaces as [|f fs IH]; intros Hno init; cbn [fold_left].
  - reflexivity.
  - rewrite (Hno f) by now left. apply IH. intros f' Hf'. apply Hno. now right.
Qed.

(** C4, at an input on which the code departs from it.  When no face of
    the subdomain element coincides with the interface face the
    construction aborts.  When several do it does not: every face of the
    hexahedron of zero thickness coincides with the unit square in its
    plane, the scan keeps the last of them, and
    [SetInterfaceToSurfaceDOFMap] returns a table. *)
Theorem findSdMeshFace_keeps_last_match :
  (forall (sdMesh ifMesh : ParMesh) (i sdMeshElem : Z),
     (forall f, In f (GetElementFaces sdMesh sdMeshElem) ->
        FacesCoincideGeometrically sdMesh f ifMesh i = false) ->
     findSdMeshFace sdMesh ifMesh i sdMeshElem = Abort) /\
  (GetElementFaces flatMesh 0 = [0; 1; 2; 3; 4; 5] /\
   FacesCoincideGeometrically flatMesh 0 ifMeshZ1 0 = true /\
   FacesCoincideGeometrically flatMesh 5 ifMeshZ1 0 = true /\
   findSdMeshFace flatMesh ifMeshZ1 0 0 = Ok 5 /\
   SetInterfaceToSurfaceDOFMap (edgeSpace ifMeshZ1 4) (edgeSpace flatMesh 12)
     pmesh2 1 [5] ND_fecbdry = Ok [4; 5; 6; 7]).
Proof.
  split.
  - intros sdMesh ifMesh i sdMeshElem Hno. unfold findSdMeshFace, scanElementFaces.
    rewrite scanElementFaces_no_match by assumption. reflexivity.
  - repeat split; vm_compute; reflexivity.
Qed.

(** ** The DOF correspondence table *)

Lemma bind_Ok {A B : Type} (m : Res A) (f : A -> Res B) (b : B) :
  (a ← m; f a) = Ok b -> exists a, m = Ok a /\ f a = Ok b.
Proof. destruct m as [a| | |]; cbn; try discriminate. eauto. Qed.

Lemma MFEM_VERIFY_Ok (cond : bool) (u : unit) :
  MFEM_VERIFY cond = Ok u -> cond = true.
Proof. destruct cond; [reflexivity|discriminate]. Qed.

(** Decompose a successful run of a sequence of fallible steps. *)
Ltac inv_bind H :=
  let a := fresh "a" in
  let Ha := fresh "Hstep" in
  apply bind_Ok in H as (a & Ha & H).

Lemma setDof_Ok (t t' : DofTable) (ifdof sdtdof : Z) :
  setDof t ifdof sdtdof = Ok t' ->
  0 <= ifdof < Z.of_nat (length (dofmap t)) /\
  (dofmap t !! Z.to_nat ifdof = Some (-1) \/
   dofmap t !! Z.to_nat ifdof = Some sdtdof) /\
  dofmap t' = <[Z.to_nat ifdof := sdtdof]> (dofmap t) /\
  writes t' = (ifdof, sdtdof) :: writes t.
Proof.
  unfold setDof. intros H.
  inv_bind H. inv_bind H. inv_bind H. injection H as <-. cbn.
  apply vecGet_Ok in Hstep as [Hi Hcur].
  apply MFEM_VERIFY_Ok in Hstep0.
  apply vecSet_Ok in Hstep1 as [Hrange ->].
  split; [assumption|]. split; [|auto].
  apply orb_true_iff in Hstep0 as [E|E]; apply Z.eqb_eq in E; subst a; auto.
Qed.

Lemma setDof_conflict (t : DofTable) (ifdof sdtdof cur : Z) :
  0 <= ifdof -> dofmap t !! Z.to_nat ifdof = Some cur ->
  cur <> sdtdof -> cur <> -1 ->
  setDof t ifdof sdtdof = Abort.
Proof.
  intros Hi Hcur Hne Hsent. unfold setDof.
  rewrite (proj2 (vecGet_Ok (dofmap t) ifdof cur)) by auto. cbn.
  rewrite (proj2 (Z.eqb_neq cur sdtdof)), (proj2 (Z.eqb_neq cur (-1))) by assumption.
  reflexivity.
Qed.

Lemma setDof_consistent (t t' : DofTable) (ifdof sdtdof : Z) :
  0 <= sdtdof -> writesConsistent t -> setDof t ifdof sdtdof = Ok t' ->
  writesConsistent t' /\ length (dofmap t') = length (dofmap t).
Proof.
  intros Hv [Hw Hm] H. apply setDof_Ok in H as (Hrange & Hcur & Hdm & Hwr).
  split; [|rewrite Hdm; apply length_insert].
  split.
  - intros i v. rewrite Hwr, Hdm. intros [[= <- <-]|Hin].
    + split; [lia|]. split; [assumption|]. apply list_lookup_insert_eq. lia.
    + destruct (Hw i v Hin) as (Hi & Hv' & Hlook). split; [assumption|].
      split; [assumption|].
      destruct (Z.eq_dec i ifdof) as [->|Hne].
      * rewrite list_lookup_insert_eq by lia. f_equal.
        destruct Hcur as [Hcur|Hcur]; rewrite Hcur in Hlook; injection Hlook; lia.
      * rewrite list_lookup_insert_ne by lia. assumption.
  - intros p v. rewrite Hwr, Hdm. intros Hlook Hne.
    destruct (Nat.eq_dec p (Z.to_nat ifdof)) as [->|Hp].
    + rewrite list_lookup_insert_eq in Hlook by lia. injection Hlook as <-.
      left. f_equal. lia.
    + rewrite list_lookup_insert_ne in Hlook by lia. right. now apply Hm.
Qed.

Lemma mapDofs_inv (n : nat) (fespace : ParFiniteElementSpace)
    (ifdofs sddofs : list Z) (t t' : DofTable) :
  tableInv n t -> mapDofs fespace ifdofs sddofs t = Ok t' -> tableInv n t'.
Proof.
  intros Hinv H. unfold mapDofs in H. inv_bind H.
  revert H. apply forM_invariant; [|assumption].
  intros s [ifdof sddof] s' _ [Hs Hlen] Hbody.
  destruct (Z.geb_spec (GetLocalTDofNumber fespace sddof) 0) as [Hge|Hlt].
  - destruct (setDof_consistent s s' ifdof _ Hge Hs Hbody) as [Hs' Hlen'].
    split; [assumption|congruence].
  - injection Hbody as <-. split; assumption.
Qed.

Lemma mapVertexDofs_inv (n : nat) (ifespace fespace : ParFiniteElementSpace)
    (i sdMeshFace : Z) (t t' : DofTable) :
  tableInv n t -> mapVertexDofs ifespace fespace i sdMeshFace t = Ok t' -> tableInv n t'.
Proof.
  intros Hinv H. unfold mapVertexDofs in H. inv_bind H.
  revert H. apply forM_invariant; [|assumption].
  intros s ifVert_j s' _ Hs Hbody.
  inv_bind Hbody. destruct a0 as [found s1]. inv_bind Hbody. injection Hbody as <-.
  change s1 with (snd (found, s1)).
  revert Hstep0. apply (forM_invariant (fun st => tableInv n (snd st))); [|exact Hs].
  intros [f0 s0] sdVert_k [f1 s2] _ Hs0 Hin. cbn [snd] in *.
  destruct (verticesEqual vertexTol _ _).
  - inv_bind Hin. injection Hin as _ <-. eapply mapDofs_inv; eauto.
  - injection Hin as _ <-. assumption.
Qed.

Lemma mapEdgeDofs_inv (n : nat) (ifespace fespace : ParFiniteElementSpace)
    (i sdMeshFace : Z) (t t' : DofTable) :
  tableInv n t -> mapEdgeDofs ifespace fespace i sdMeshFace t = Ok t' -> tableInv n t'.
Proof.
  intros Hinv H. unfold mapEdgeDofs in H. inv_bind H.
  revert H. apply forM_invariant; [|assumption].
  intros s ifEdge_j s' _ Hs Hbody.
  do 4 inv_bind Hbody. eapply mapDofs_inv; eauto.
Qed.

Lemma interfaceFaceStep_inv (n : nat) (ifespace fespace : ParFiniteElementSpace)
    (fec : FiniteElementCollection) (faceToElem elemToSD : gmap Z Z)
    (t t' : DofTable) (it : Z * Z) :
  tableInv n t ->
  interfaceFaceStep ifespace fespace fec faceToElem elemToSD t it = Ok t' ->
  tableInv n t'.
Proof.
  intros Hinv H. unfold interfaceFaceStep in H. destruct it as [i pmeshFace].
  destruct (faceToElem !! pmeshFace) as [pmeshElem|]; [|now injection H as <-].
  destruct (elemToSD !! pmeshElem) as [sdMeshElem|]; [|discriminate].
  inv_bind H. inv_bind H. inv_bind H.
  assert (H1 : tableInv n a0).
  { destruct (DofForGeometry fec POINT >? 0).
    - eapply mapVertexDofs_inv; eauto.
    - now injection Hstep0 as <-. }
  assert (H2 : tableInv n a1).
  { destruct (DofForGeometry fec SEGMENT >? 0).
    - eapply mapEdgeDofs_inv; eauto.
    - now injection Hstep1 as <-. }
  destruct (DofForGeometry fec (GetFaceGeometryType (GetParMesh fespace) 0) >? 0).
  - unfold mapFaceDofs in H. exact (mapDofs_inv _ _ _ _ _ _ H2 H).
  - now injection H as <-.
Qed.

Lemma SetInterfaceToSurfaceDOFMap_run_inv (ifespace fespace : ParFiniteElementSpace)
    (pmesh : ParMesh) (sdAttribute : Z) (pmeshFacesInInterface : list Z)
    (fec : FiniteElementCollection) (t : DofTable) :
  SetInterfaceToSurfaceDOFMap_run ifespace fespace pmesh sdAttribute
    pmeshFacesInInterface fec = Ok t ->
  tableInv (Z.to_nat (GetVSize ifespace)) t.
Proof.
  intros H. unfold SetInterfaceToSurfaceDOFMap_run in H.
  inv_bind H. destruct a as [faceToElem elems].
  revert H. apply forM_invariant.
  - intros s it s' _. apply interfaceFaceStep_inv.
  - split; [|apply length_replicate]. split; cbn.
    + intros i v [].
    + intros p v Hlook Hne. apply lookup_replicate in Hlook as [-> _]. congruence.
Qed.

(** C5.  Each assignment to the table is guarded: it succeeds only on an
    entry that holds the sentinel or the same target, and aborts on an entry
    that holds another target.  Over a whole run that succeeds, every write
    made to an entry is the value the entry holds at the end, so two writes
    to one entry carry one target, targets are true DOFs ([>= 0]), and an
    entry that is mapped at the end was written. *)
Theorem dofmap_entries_have_one_target :
  (forall (t t' : DofTable) (ifdof sdtdof : Z),
     setDof t ifdof sdtdof = Ok t' ->
     (dofmap t !! Z.to_nat ifdof = Some (-1) \/
      dofmap t !! Z.to_nat ifdof = Some sdtdof) /\
     dofmap t' = <[Z.to_nat ifdof := sdtdof]> (dofmap t)) /\
  (forall (t : DofTable) (ifdof sdtdof cur : Z),
     0 <= ifdof -> dofmap t !! Z.to_nat ifdof = Some cur ->
     cur <> sdtdof -> cur <> -1 ->
     setDof t ifdof sdtdof = Abort) /\
  (forall (ifespace fespace : ParFiniteElementSpace) (pmesh : ParMesh)
          (sdAttribute : Z) (pmeshFacesInInterface : std_set)
          (fec : FiniteElementCollection) (t : DofTable),
     SetInterfaceToSurfaceDOFMap_run ifespace fespace pmesh sdAttribute
       pmeshFacesInInterface fec = Ok t ->
     length (dofmap t) = Z.to_nat (GetVSize ifespace) /\
     (forall i v, In (i, v) (writes t) ->
        0 <= v /\ dofmap t !! Z.to_nat i = Some v) /\
     (forall i v v', In (i, v) (writes t) -> In (i, v') (writes t) -> v = v') /\
     (forall (p : nat) v, dofmap t !! p = Some v ->
        v = -1 \/ (0 <= v /\ In (Z.of_nat p, v) (writes t)))).
Proof.
  split; [|split].
  - intros t t' ifdof sdtdof H. apply setDof_Ok in H. tauto.
  - exact setDof_conflict.
  - intros ifespace fespace pmesh sdAttribute faces fec t H.
    apply SetInterfaceToSurfaceDOFMap_run_inv in H as [[Hw Hm] Hlen].
    split; [assumption|]. split; [|split].
    + intros i v Hin. destruct (Hw i v Hin) as (_ & Hv & Hlook). auto.
    + intros i v v' Hin Hin'.
      destruct (Hw i v Hin) as (_ & _ & Hlook).
      destruct (Hw i v' Hin') as (_ & _ & Hlook'). congruence.
    + intros p v Hlook. destruct (Z.eq_dec v (-1)) as [->|Hne]; [now left|].
      right. pose proof (Hm p v Hlook Hne) as Hin.
      destruct (Hw _ _ Hin) as (_ & Hv & _). auto.
Qed.

Lemma dofmap_entries_have_one_target_witness :
  SetInterfaceToSurfaceDOFMap_run (edgeSpace ifMeshX1 4) (edgeSpace sdMesh1 12)
    pmesh2 2 [2] ND_fecbdry
    = Ok (mkDofTable [3; 11; 7; 8] [(3, 8); (2, 7); (1, 11); (0, 3)]) /\
  forall i v v',
    In (i, v) [(3, 8); (2, 7); (1, 11); (0, 3)] ->
    In (i, v') [(3, 8); (2, 7); (1, 11); (0, 3)] -> v = v'.
Proof.
  split; [vm_compute; reflexivity|].
  apply (proj2 (proj2 dofmap_entries_have_one_target)
           (edgeSpace ifMeshX1 4) (edgeSpace sdMesh1 12) pmesh2 2 [2] ND_fecbdry
           (mkDofTable [3; 11; 7; 8] [(3, 8); (2, 7); (1, 11); (0, 3)])).
  vm_compute. reflexivity.
Defined.

(** ** Loops with a counter, partial sums *)

Lemma forM_indexed_from {A St : Type} (P : nat -> St -> Prop) (body : St -> A -> Res St)
    (l : list A) :
  forall k0 : nat,
    (forall k a s s', l !! k = Some a -> P (k0 + k)%nat s -> body s a = Ok s' ->
       P (S (k0 + k)) s') ->
    forall s s', P k0 s -> forM body l s = Ok s' -> P (k0 + length l)%nat s'.
Proof.
  induction l as [|a l IH]; intros k0 Hbody s s' Hs Hrun; cbn in Hrun.
  - injection Hrun as <-. cbn. now rewrite Nat.add_0_r.
  - destruct (body s a) as [s1| | |] eqn:E; cbn in Hrun; try discriminate.
    cbn [length]. rewrite Nat.add_succ_r. apply (IH (S k0)) with (s := s1).
    + intros k b t t' Hk Ht Hb. cbn. rewrite <- Nat.add_succ_r.
      apply (Hbody (S k) b t t'); [exact Hk| |exact Hb].
      now rewrite Nat.add_succ_r.
    + specialize (Hbody 0%nat a s s1 eq_refl). rewrite Nat.add_0_r in Hbody. auto.
    + assumption.
Qed.

(** A property indexed by the number of iterations made. *)
Lemma forM_indexed {A St : Type} (P : nat -> St -> Prop) (body : St -> A -> Res St)
    (l : list A) :
  (forall k a s s', l !! k = Some a -> P k s -> body s a = Ok s' -> P (S k) s') ->
  forall s s', P 0%nat s -> forM body l s = Ok s' -> P (length l) s'.
Proof.
  intros Hbody s s' Hs Hrun.
  exact (forM_indexed_from P body l 0%nat Hbody s s' Hs Hrun).
Qed.

Lemma sumZ_app (l l' : list Z) : sumZ (l ++ l') = sumZ l + sumZ l'.
Proof. unfold sumZ. induction l as [|x l IH]; cbn; [reflexivity|]. rewrite IH. lia. Qed.

Lemma sumZ_nonneg (l : list Z) : (forall x, In x l -> 0 <= x) -> 0 <= sumZ l.
Proof.
  unfold sumZ. induction l as [|x l IH]; cbn; intros H; [lia|].
  specialize (H x (or_introl eq_refl)) as Hx.
  specialize (IH (fun y Hy => H y (or_intror Hy))). lia.
Qed.

Lemma sumZ_map_add {A : Type} (f g : A -> Z) (l : list A) :
  sumZ (map (fun a => f a + g a) l) = sumZ (map f l) + sumZ (map g l).
Proof. unfold sumZ. induction l as [|x l IH]; cbn; [reflexivity|]. rewrite IH. lia. Qed.

(** *** [int] sums *)

Lemma int_wrap_range (z : Z) : - 2 ^ 31 <= int_wrap z <= INT_MAX.
Proof.
  unfold int_wrap, INT_MAX. pose proof (Z.mod_pos_bound (z + 2 ^ 31) (2 ^ 32)). lia.
Qed.

Lemma int_wrap_small (z : Z) : - 2 ^ 31 <= z <= INT_MAX -> int_wrap z = z.
Proof.
  unfold int_wrap, INT_MAX. intros H. rewrite Z.mod_small by lia. lia.
Qed.

Lemma int_wrap_shift (x k : Z) : int_wrap (x + k * 2 ^ 32) = int_wrap x.
Proof.
  unfold int_wrap. f_equal.
  replace (x + k * 2 ^ 32 + 2 ^ 31) with (x + 2 ^ 31 + k * 2 ^ 32) by lia.
  apply Z.mod_add. lia.
Qed.

Lemma int_wrap_decomp (x : Z) : exists k : Z, int_wrap x = x + k * 2 ^ 32.
Proof.
  exists (- ((x + 2 ^ 31) / 2 ^ 32)). unfold int_wrap.
  pose proof (Z.div_mod (x + 2 ^ 31) (2 ^ 32)). lia.
Qed.

Lemma int_wrap_add_l (a b : Z) : int_wrap (int_wrap a + b) = int_wrap (a + b).
Proof.
  destruct (int_wrap_decomp a) as [k Hk]. rewrite Hk.
  replace (a + k * 2 ^ 32 + b) with (a + b + k * 2 ^ 32) by lia. apply int_wrap_shift.
Qed.

Lemma int_wrap_add_r (a b : Z) : int_wrap (a + int_wrap b) = int_wrap (a + b).
Proof.
  destruct (int_wrap_decomp b) as [k Hk]. rewrite Hk.
  replace (a + (b + k * 2 ^ 32)) with (a + b + k * 2 ^ 32) by lia. apply int_wrap_shift.
Qed.

Lemma int_wrap_idem (a : Z) : int_wrap (int_wrap a) = int_wrap a.
Proof. pose proof (int_wrap_add_l a 0) as H. rewrite !Z.add_0_r in H. exact H. Qed.

Lemma int_wrap_sub_l (a b : Z) : int_wrap (int_wrap a - b) = int_wrap (a - b).
Proof. unfold Z.sub. apply int_wrap_add_l. Qed.

Lemma int_wrap_sub_r (a b : Z) : int_wrap (a - int_wrap b) = int_wrap (a - b).
Proof.
  destruct (int_wrap_decomp b) as [k Hk]. rewrite Hk.
  replace (a - (b + k * 2 ^ 32)) with (a - b + (- k) * 2 ^ 32) by lia. apply int_wrap_shift.
Qed.

Lemma eqm32_equiv : Equivalence eqm32.
Proof.
  split.
  - intros x. reflexivity.
  - intros x y H. symmetry. exact H.
  - intros x y z H1 H2. unfold eqm32 in *. congruence.
Qed.
#[local] Existing Instance eqm32_equiv.

Lemma eqm32_add : Proper (eqm32 ==> eqm32 ==> eqm32) Z.add.
Proof.
  intros a a' Ha b b' Hb. unfold eqm32 in *.
  rewrite <- (int_wrap_add_l a), <- (int_wrap_add_r _ b), Ha, Hb.
  rewrite int_wrap_add_r, int_wrap_add_l. reflexivity.
Qed.
#[local] Existing Instance eqm32_add.

Lemma eqm32_sub : Proper (eqm32 ==> eqm32 ==> eqm32) Z.sub.
Proof.
  intros a a' Ha b b' Hb. unfold eqm32 in *.
  rewrite <- (int_wrap_sub_l a), <- (int_wrap_sub_r _ b), Ha, Hb.
  rewrite int_wrap_sub_r, int_wrap_sub_l. reflexivity.
Qed.
#[local] Existing Instance eqm32_sub.

Lemma eqm32_wrap : Proper (eqm32 ==> eq) int_wrap.
Proof. intros a b H. exact H. Qed.
#[local] Existing Instance eqm32_wrap.

Lemma int_wrap_eqm (x : Z) : eqm32 (int_wrap x) x.
Proof. apply int_wrap_idem. Qed.

(** Equations between [int] sums: wrap once, at the end. *)
Ltac int_ring :=
  unfold int_add, int_sub;
  repeat match goal with
         | |- context [int_wrap ?a] =>
             match a with
             | context [int_wrap ?x] => rewrite (int_wrap_eqm x)
             end
         end;
  first [reflexivity | f_equal; lia | do 2 f_equal; lia | do 3 f_equal; lia | idtac].

Lemma int_add_wrap_l (a b : Z) : int_add (int_wrap a) b = int_wrap (a + b).
Proof. apply int_wrap_add_l. Qed.

Lemma int_add_wrap_r (a b : Z) : int_add a (int_wrap b) = int_add a b.
Proof. apply int_wrap_add_r. Qed.

Lemma PartialSum_from_length (acc : Z) (l : list Z) :
  length (PartialSum_from acc l) = length l.
Proof. revert acc. induction l as [|x l IH]; intros acc; cbn; [reflexivity|]. now rewrite IH. Qed.

Lemma PartialSum_from_lookup (l : list Z) :
  forall (acc : Z) (k : nat), (k < length l)%nat ->
    PartialSum_from acc l !! k = Some (int_wrap (acc + sumZ (take (S k) l))).
Proof.
  induction l as [|x l IH]; intros acc k Hk; cbn in Hk; [lia|].
  destruct k as [|k]; cbn [PartialSum_from].
  - cbn. f_equal. unfold int_add. f_equal. unfold sumZ. destruct l; cbn; lia.
  - change ((?y :: ?l') !! S k) with (l' !! k). rewrite IH by lia. f_equal.
    unfold int_add. rewrite int_wrap_add_l. f_equal.
    change (take (S (S k)) (x :: l)) with (x :: take (S k) l).
    change (sumZ (x :: take (S k) l)) with (x + sumZ (take (S k) l)). lia.
Qed.

Lemma PartialSum_from_last (l : list Z) (acc : Z) :
  l <> [] -> last (PartialSum_from acc l) = Some (int_wrap (acc + sumZ l)).
Proof.
  intros Hne. rewrite last_lookup, PartialSum_from_length.
  rewrite PartialSum_from_lookup by (destruct l; cbn; [congruence|lia]).
  f_equal. f_equal. f_equal. f_equal. apply take_ge. destruct l; cbn; [congruence|lia].
Qed.

(** Entries that were accumulated as [int]s sum as the counts they hold. *)
Lemma PartialSum_from_wrap (l : list Z) (acc : Z) :
  PartialSum_from acc (map int_wrap l) = PartialSum_from acc l.
Proof.
  revert acc. induction l as [|x l IH]; intros acc; [reflexivity|].
  cbn [map PartialSum_from]. rewrite int_add_wrap_r, IH. reflexivity.
Qed.

(** The partial sums of the block sizes [f 0 .. f (n-1)], each taken as an
    [int]. *)
Lemma PartialSum_blocks (f : nat -> Z) (n : nat) :
  let offsets := PartialSum (0 :: map (fun m => int_wrap (f m)) (seq 0 n)) in
  length offsets = S n /\
  offsets !! 0%nat = Some 0 /\
  (forall m, (m <= n)%nat ->
     offsets !! m = Some (int_wrap (sumZ (map f (seq 0 m))))) /\
  (forall m, (m < n)%nat ->
     exists a, offsets !! m = Some a /\ offsets !! S m = Some (int_add a (f m))) /\
  last offsets = Some (int_wrap (sumZ (map f (seq 0 n)))).
Proof.
  cbv zeta. unfold PartialSum.
  replace (0 :: map (fun m => int_wrap (f m)) (seq 0 n))
    with (map int_wrap (0 :: map f (seq 0 n)))
    by (cbn [map]; rewrite map_map; reflexivity).
  rewrite PartialSum_from_wrap.
  assert (Hl : forall m, (m <= n)%nat ->
            PartialSum_from 0 (0 :: map f (seq 0 n)) !! m
            = Some (int_wrap (sumZ (map f (seq 0 m))))).
  { intros m Hm. rewrite PartialSum_from_lookup by (cbn; rewrite length_map, length_seq; lia).
    f_equal. f_equal. cbn [take]. rewrite firstn_map, take_seq.
    replace (m `min` n)%nat with m by lia. unfold sumZ. cbn. lia. }
  split; [|split; [|split; [|split]]].
  - rewrite PartialSum_from_length. cbn. now rewrite length_map, length_seq.
  - rewrite (Hl 0%nat) by lia. reflexivity.
  - exact Hl.
  - intros m Hm. exists (int_wrap (sumZ (map f (seq 0 m)))). split; [apply Hl; lia|].
    rewrite (Hl (S m)) by lia. rewrite seq_S, map_app, sumZ_app. cbn [map Nat.add].
    f_equal. unfold int_add. rewrite int_wrap_add_l. f_equal. unfold sumZ. cbn. lia.
  - rewrite PartialSum_from_last by discriminate. reflexivity.
Qed.

Lemma addAt_Ok (a a' : list Z) (i x : Z) :
  addAt a i x = Ok a' ->
  0 <= i /\ exists cur, a !! Z.to_nat i = Some cur /\ a' = <[Z.to_nat i := int_add cur x]> a.
Proof.
  unfold addAt. intros H. inv_bind H.
  apply vecGet_Ok in Hstep as [Hi Hcur]. apply vecSet_Ok in H as [_ ->]. eauto.
Qed.

Lemma seqZ_lookup_nat (n : Z) (k : nat) (a : Z) :
  seqZ 0 n !! k = Some a -> a = Z.of_nat k /\ Z.of_nat k < n.
Proof. intros H. apply lookup_seqZ in H. lia. Qed.

Tactic Notation "split_bind" hyp(H) "as" simple_intropattern(a) ident(Ha) :=
  apply bind_Ok in H as (a & Ha & H).

Lemma insert_cons_S {A : Type} (x v : A) (l : list A) (k : nat) :
  <[S k := v]> (x :: l) = x :: <[k := v]> l.
Proof. reflexivity. Qed.

Lemma lookup_cons_S {A : Type} (x : A) (l : list A) (k : nat) :
  (x :: l) !! S k = l !! k.
Proof. reflexivity. Qed.

Lemma sumZ_snoc (l : list Z) (x : Z) : sumZ (l ++ [x]) = sumZ l + x.
Proof. rewrite sumZ_app. unfold sumZ. cbn. lia. Qed.

(** ** The block offsets of the global operator *)

Section Offsets.
Context {R : Type} {sc : Scalar R} (lib : Library R) (args : DDMArgs).

Lemma interfaceAt_size (im : InterfaceMembers R) (interfaceIndex : Z)
    (obj : InterfaceObjects R) :
  interfaceAt im interfaceIndex = Ok obj ->
  interfaceSizeAt im interfaceIndex
  = GetTrueVSize (ifespace obj) + GetTrueVSize (iH1fespace obj) /\
  ifTrueSize obj = int_wrap (interfaceSizeAt im interfaceIndex).
Proof.
  unfold interfaceAt, interfaceSizeAt. intros H. inv_bind H. rewrite Hstep.
  destruct a as [o|]; [|discriminate]. injection H as ->. split; reflexivity.
Qed.

Lemma surfaceInnerLoop_sizes (im : InterfaceMembers R) (m : Z)
    (fes : option ParFiniteElementSpace) (sdli : list Z) (size : Z) (offsets : list Z)
    (o : Z) (size' : Z) (offsets' : list Z) (injs : list (Operator R))
    (datas : list (list Z)) :
  int_wrap size = size -> int_wrap o = o ->
  offsets !! Z.to_nat (m + 1) = Some o ->
  surfaceInnerLoop lib args im m fes sdli size offsets = Ok (size', offsets', injs, datas) ->
  size' = int_wrap (size + sumZ (map (interfaceSizeAt im) sdli)) /\
  offsets'
  = <[Z.to_nat (m + 1) := int_wrap (o + sumZ (map (interfaceSizeAt im) sdli))]> offsets.
Proof.
  intros Hws Hwo Ho H. unfold surfaceInnerLoop in H.
  pose proof (lookup_lt_Some _ _ _ Ho) as Hidx.
  set (P := fun (k : nat) (st : Z * list Z * list (Operator R) * list (list Z)) =>
              st.1.1.1 = int_wrap (size + sumZ (map (interfaceSizeAt im) (take k sdli))) /\
              st.1.1.2 = <[Z.to_nat (m + 1) :=
                             int_wrap (o + sumZ (map (interfaceSizeAt im) (take k sdli)))]>
                           offsets).
  apply (forM_indexed P) in H.
  - unfold P in H. cbn in H. now rewrite firstn_all in H.
  - intros k a [[[sz offs] ijs] ds] s' Hk [Hsz Hoffs] Hbody. cbn [fst snd] in Hsz, Hoffs.
    inv_bind Hbody. inv_bind Hbody. inv_bind Hbody.
    do 6 inv_bind Hbody. injection Hbody as <-. unfold P. cbn.
    rewrite (take_S_r _ _ _ Hk), map_app. cbn [map]. rewrite sumZ_snoc.
    apply interfaceAt_size in Hstep as [Hstep _]. rewrite Hstep.
    apply addAt_Ok in Hstep0 as (_ & cur & Hcur & ->).
    apply addAt_Ok in Hstep1 as (_ & cur' & Hcur' & ->).
    rewrite Hoffs in Hcur. rewrite list_lookup_insert_eq in Hcur by assumption.
    injection Hcur as <-.
    rewrite list_lookup_insert_eq in Hcur' by (rewrite Hoffs, length_insert; assumption).
    injection Hcur' as <-.
    split.
    + rewrite Hsz. int_ring.
    + rewrite Hoffs, !list_insert_insert_eq. f_equal. int_ring.
  - unfold P. cbn [fst snd]. rewrite take_0. cbn [map]. change (sumZ []) with 0.
    rewrite !Z.add_0_r, Hws, Hwo.
    split; [reflexivity|]. symmetry. apply list_insert_id. exact Ho.
Qed.

Lemma surfaceLoop_sizes (im : InterfaceMembers R) (sm : SurfaceMembers R) :
  0 <= numSubdomains args ->
  surfaceLoop lib args im = Ok sm ->
  block_trueOffsets1 sm
    = 0 :: map (fun m => int_wrap (interfaceSizes im m))
             (seq 0 (Z.to_nat (numSubdomains args))) /\
  size1 sm
    = int_wrap (sumZ (map (interfaceSizes im) (seq 0 (Z.to_nat (numSubdomains args))))).
Proof.
  intros Hn H. unfold surfaceLoop in H.
  set (N := Z.to_nat (numSubdomains args)).
  set (P := fun (k : nat) (st : SurfaceMembers R) =>
              block_trueOffsets1 st
                = 0 :: map (fun m => int_wrap (interfaceSizes im m)) (seq 0 k)
                    ++ replicate (N - k) 0 /\
              size1 st = int_wrap (sumZ (map (interfaceSizes im) (seq 0 k)))).
  apply (forM_indexed P) in H.
  - unfold P in H. rewrite length_seqZ in H. fold N in H.
    rewrite Nat.sub_diag, app_nil_r in H. exact H.
  - intros k a st st' Hk [Hoffs Hsz] Hbody.
    apply seqZ_lookup_nat in Hk as [-> Hk].
    inv_bind Hbody. inv_bind Hbody. inv_bind Hbody.
    destruct a1 as [[[size' offsets'] injs] datas]. injection Hbody as <-.
    apply vecGet_Ok in Hstep as [_ Hsdli]. rewrite Nat2Z.id in Hsdli.
    apply list_lookup_total_correct in Hsdli.
    assert (Hlen : length (map (fun m => int_wrap (interfaceSizes im m)) (seq 0 k)) = k)
      by now rewrite length_map, length_seq.
    assert (HkN : (k < N)%nat) by (unfold N; lia).
    assert (Hidx : Z.to_nat (Z.of_nat k + 1) = S k) by lia.
    assert (Hifs : sumZ (map (interfaceSizeAt im) a) = interfaceSizes im k).
    { unfold interfaceSizes. now rewrite Hsdli. }
    apply (surfaceInnerLoop_sizes _ _ _ _ _ _ 0) in Hstep1 as [-> ->].
    + rewrite Hifs. unfold P. cbn [block_trueOffsets1 size1]. split.
      * rewrite Hoffs, Hidx, insert_cons_S. f_equal.
        rewrite insert_app_r_alt by lia. rewrite Hlen, Nat.sub_diag.
        replace (N - k)%nat with (S (N - S k)) by lia.
        rewrite seq_S, map_app, <- app_assoc. reflexivity.
      * rewrite Hsz, seq_S, map_app. cbn [map]. rewrite sumZ_snoc.
        rewrite int_wrap_add_l. reflexivity.
    + rewrite Hsz. apply int_wrap_idem.
    + reflexivity.
    + rewrite Hoffs, Hidx, lookup_cons_S. rewrite lookup_app_r by lia.
      rewrite Hlen, Nat.sub_diag. apply lookup_replicate_2. lia.
  - unfold P. cbn. rewrite Nat.sub_0_r. split; [|reflexivity].
    replace (Z.to_nat (numSubdomains args + 1)) with (S N) by (unfold N; lia).
    reflexivity.
Qed.

Lemma boundarySize_app_l (tb : list (list Z)) (t : list Z) (m : nat) :
  (m < length tb)%nat -> boundarySize (tb ++ [t]) m = boundarySize tb m.
Proof. intros Hm. unfold boundarySize. now rewrite lookup_total_app_l. Qed.

Lemma boundarySize_app_r (tb : list (list Z)) (t : list Z) :
  boundarySize (tb ++ [t]) (length tb) = Z.of_nat (length t).
Proof.
  unfold boundarySize. rewrite lookup_total_app_r by lia.
  now rewrite Nat.sub_diag.
Qed.

Lemma map_boundarySize_app (tb : list (list Z)) (t : list Z) (g : Z -> nat -> Z) :
  map (fun m => g (boundarySize (tb ++ [t]) m) m) (seq 0 (length tb))
  = map (fun m => g (boundarySize tb m) m) (seq 0 (length tb)).
Proof.
  apply map_ext_in. intros m Hm. apply in_seq in Hm.
  rewrite boundarySize_app_l by lia. reflexivity.
Qed.

Lemma map_boundarySize_app_plain (tb : list (list Z)) (t : list Z) :
  map (boundarySize (tb ++ [t])) (seq 0 (length tb))
  = map (boundarySize tb) (seq 0 (length tb)).
Proof.
  apply map_ext_in. intros m Hm. apply in_seq in Hm.
  rewrite boundarySize_app_l by lia. reflexivity.
Qed.

Lemma subdomainLoop_sizes (im : InterfaceMembers R) (sm : SurfaceMembers R)
    (sd : SubdomainMembers R) (s1 : Z) :
  0 <= numSubdomains args ->
  block_trueOffsets1 sm
    = 0 :: map (fun m => int_wrap (interfaceSizes im m))
             (seq 0 (Z.to_nat (numSubdomains args))) ->
  size1 sm = int_wrap s1 ->
  subdomainLoop lib args im sm = Ok sd ->
  length (tdofsBdry sd) = Z.to_nat (numSubdomains args) /\
  block_trueOffsets2 sd
    = 0 :: map (fun m => int_wrap (boundarySize (tdofsBdry sd) m + interfaceSizes im m))
             (seq 0 (Z.to_nat (numSubdomains args))) /\
  size2 sd = int_wrap (s1 + sumZ (map (boundarySize (tdofsBdry sd))
                                    (seq 0 (Z.to_nat (numSubdomains args))))).
Proof.
  intros Hn Hoffs1 Hsz1 H. unfold subdomainLoop in H.
  set (N := Z.to_nat (numSubdomains args)) in *.
  set (P := fun (k : nat) (st : SubdomainMembers R) =>
              length (tdofsBdry st) = k /\
              block_trueOffsets2 st
                = 0 :: map (fun m => int_wrap (boundarySize (tdofsBdry st) m
                                               + interfaceSizes im m))
                         (seq 0 k)
                    ++ map (fun m => int_wrap (interfaceSizes im m)) (seq k (N - k)) /\
              size2 st
              = int_wrap (s1 + sumZ (map (boundarySize (tdofsBdry st)) (seq 0 k)))).
  apply (forM_indexed P) in H.
  - unfold P in H. rewrite length_seqZ in H. fold N in H.
    rewrite Nat.sub_diag in H. cbn [seq map] in H. rewrite app_nil_r in H. exact H.
  - intros k a st st' Hk (Hlen & Hoffs & Hsz) Hbody.
    apply seqZ_lookup_nat in Hk as [-> Hk].
    assert (HkN : (k < N)%nat) by (unfold N; lia).
    assert (Hseq : seq k (N - k) = k :: seq (S k) (N - S k)).
    { replace (N - k)%nat with (S (N - S k)) by lia. reflexivity. }
    inv_bind Hbody. destruct a as [mesh|].
    + split_bind Hbody as p Hp. split_bind Hbody as fes Hfes.
      split_bind Hbody as offsets Hadd. split_bind Hbody as inj Hinj.
      split_bind Hbody as [A offs] HA. split_bind Hbody as prec Hprec.
      injection Hbody as <-. unfold P. cbn [tdofsBdry block_trueOffsets2 size2].
      apply addAt_Ok in Hadd as (_ & cur & Hcur & ->).
      replace (Z.to_nat (Z.of_nat k + 1)) with (S k) in * by lia.
      rewrite Hoffs, lookup_cons_S in Hcur.
      rewrite lookup_app_r in Hcur by (rewrite length_map, length_seq; lia).
      rewrite length_map, length_seq, Nat.sub_diag, Hseq in Hcur. cbn in Hcur.
      injection Hcur as <-.
      split; [rewrite length_app; cbn; lia|]. split.
      * rewrite Hoffs, insert_cons_S. f_equal.
        rewrite insert_app_r_alt by (rewrite length_map, length_seq; lia).
        rewrite length_map, length_seq, Nat.sub_diag, Hseq. cbn [map insert list_insert].
        rewrite seq_S, map_app, <- app_assoc. cbn [map app]. rewrite <- Hlen.
        rewrite (map_boundarySize_app _ _
                   (fun b m => int_wrap (b + interfaceSizes im m))).
        rewrite boundarySize_app_r, Nat.add_0_l. do 2 f_equal.
        rewrite int_add_wrap_l. f_equal. lia.
      * rewrite Hsz, seq_S, map_app. cbn [map]. rewrite sumZ_snoc. cbn [Nat.add].
        rewrite <- Hlen.
        rewrite map_boundarySize_app_plain, boundarySize_app_r.
        rewrite int_add_wrap_l. f_equal. lia.
    + injection Hbody as <-. unfold P. cbn [tdofsBdry block_trueOffsets2 size2].
      split; [rewrite length_app; cbn; lia|]. split.
      * rewrite Hoffs. f_equal. rewrite Hseq. cbn [map].
        rewrite seq_S, map_app, <- app_assoc. cbn [map app Nat.add]. rewrite <- Hlen.
        rewrite (map_boundarySize_app _ _
                   (fun b m => int_wrap (b + interfaceSizes im m))).
        rewrite boundarySize_app_r. reflexivity.
      * rewrite Hsz, seq_S, map_app. cbn [map]. rewrite sumZ_snoc. cbn [Nat.add].
        rewrite <- Hlen.
        rewrite map_boundarySize_app_plain, boundarySize_app_r. cbn [length].
        f_equal. lia.
  - unfold P. cbn. rewrite Nat.sub_0_r. split; [reflexivity|]. split.
    + now rewrite Hoffs1.
    + rewrite Hsz1. f_equal. unfold sumZ. cbn. lia.
Qed.

(** The constructor, taken apart. *)
Lemma new_DDMInterfaceOperator_Ok (ddm : DDMInterfaceOperator R) :
  new_DDMInterfaceOperator lib args = Ok ddm ->
  0 < numSubdomains args /\
  exists im sm sd,
    interfaceLoop lib args = Ok im /\
    surfaceLoop lib args im = Ok sm /\
    subdomainLoop lib args im sm = Ok sd /\
    verifyOffsets (PartialSum (block_trueOffsets2 sd)) (size2 sd) = Ok tt /\
    exists C arrays S,
      globalInterfaceLoop args im sm sd (PartialSum (block_trueOffsets2 sd))
        = Ok (C, arrays) /\
      globalSubdomainLoop args im sm sd (PartialSum (block_trueOffsets2 sd)) = Ok S /\
      ddm = mkDDMInterfaceOperator (size2 sd) (size2 sd) im sm sd
              (PartialSum (block_trueOffsets2 sd)) arrays C S
              (SumOperator
                 (ProductOperator (BlockOperator_Operator S) (BlockOperator_Operator C))
                 (IdentityOperator (size2 sd)) rone rone).
Proof.
  unfold new_DDMInterfaceOperator. intros H.
  inv_bind H. apply MFEM_VERIFY_Ok in Hstep.
  do 4 inv_bind H. unfold assembleGlobalOp in H. cbv zeta in H.
  do 2 inv_bind H. destruct a5 as [C arrays]. inv_bind H. injection H as <-.
  split; [lia|]. exists a1, a2, a3. destruct a4. repeat split; try assumption.
  exists C, arrays, a5. repeat split; assumption.
Qed.

(** The offsets and the size a successful construction leaves: the block
    sizes and their sum, taken as [int]s. *)
Lemma block_trueOffsets_blocks (ddm : DDMInterfaceOperator R) :
  new_DDMInterfaceOperator lib args = Ok ddm ->
  let N := Z.to_nat (numSubdomains args) in
  block_trueOffsets ddm
    = PartialSum (0 :: map (fun m => int_wrap (subdomainBlockSize ddm m)) (seq 0 N)) /\
  height ddm = int_wrap (totalSize ddm N) /\ width ddm = height ddm.
Proof.
  intros H. apply new_DDMInterfaceOperator_Ok in H
    as (Hn & im & sm & sd & Him & Hsm & Hsd & Hver & C & arrays & S & HC & HS & ->).
  cbv zeta. cbn.
  destruct (surfaceLoop_sizes im sm ltac:(lia) Hsm) as [Hoffs1 Hsz1].
  destruct (subdomainLoop_sizes im sm sd _ ltac:(lia) Hoffs1 Hsz1 Hsd)
    as (Hlen & Hoffs2 & Hsz2).
  unfold totalSize, subdomainBlockSize. cbn.
  split; [now rewrite Hoffs2|]. split; [|reflexivity].
  rewrite Hsz2, sumZ_map_add. f_equal. lia.
Qed.

End Offsets.

Lemma new_DDMInterfaceOperator_members {R : Type} {sc : Scalar R} (lib : Library R)
    (args : DDMArgs) (ddm : DDMInterfaceOperator R) :
  new_DDMInterfaceOperator lib args = Ok ddm ->
  interfaceLoop lib args = Ok (interfaceMembers ddm) /\
  surfaceLoop lib args (interfaceMembers ddm) = Ok (surfaceMembers ddm) /\
  subdomainLoop lib args (interfaceMembers ddm) (surfaceMembers ddm)
    = Ok (subdomainMembers ddm).
Proof.
  intros H. apply new_DDMInterfaceOperator_Ok in H
    as (_ & im & sm & sd & Him & Hsm & Hsd & _ & C & arrays & S & _ & _ & ->).
  cbn. auto.
Qed.

Lemma interfaceSizeAt_nonneg {R : Type} (im : InterfaceMembers R) (interfaceIndex : Z) :
  (forall (idx : nat) obj, interfaceObjects im !! idx = Some (Some obj) ->
     0 <= GetTrueVSize (ifespace obj) /\ 0 <= GetTrueVSize (iH1fespace obj)) ->
  0 <= interfaceSizeAt im interfaceIndex.
Proof.
  intros Hnn. unfold interfaceSizeAt.
  destruct (vecGet (interfaceObjects im) interfaceIndex) as [[obj|]| | |] eqn:E; try lia.
  apply vecGet_Ok in E as [_ E]. destruct (Hnn _ _ E). lia.
Qed.

Lemma subdomainBlockSize_nonneg {R : Type} (ddm : DDMInterfaceOperator R) (m : nat) :
  (forall (idx : nat) obj,
     interfaceObjects (interfaceMembers ddm) !! idx = Some (Some obj) ->
     0 <= GetTrueVSize (ifespace obj) /\ 0 <= GetTrueVSize (iH1fespace obj)) ->
  0 <= subdomainBlockSize ddm m.
Proof.
  intros Hnn. unfold subdomainBlockSize, boundarySize, interfaceSizes.
  assert (0 <= sumZ (map (interfaceSizeAt (interfaceMembers ddm))
                       (subdomainLocalInterfaces (interfaceMembers ddm) !!! m))); [|lia].
  apply sumZ_nonneg. intros x Hx. apply in_map_iff in Hx as (idx & <- & _).
  now apply interfaceSizeAt_nonneg.
Qed.

Lemma sumZ_prefix_le (f : nat -> Z) (m n : nat) :
  (forall i, 0 <= f i) -> (m <= n)%nat ->
  0 <= sumZ (map f (seq 0 m)) <= sumZ (map f (seq 0 n)).
Proof.
  intros Hf Hmn.
  assert (Hnn : forall a k, 0 <= sumZ (map f (seq a k))).
  { intros a k. apply sumZ_nonneg. intros x Hx.
    apply in_map_iff in Hx as (i & <- & _). apply Hf. }
  replace n with (m + (n - m))%nat by lia.
  rewrite seq_app, map_app, sumZ_app. pose proof (Hnn 0%nat m).
  pose proof (Hnn (0 + m)%nat (n - m)%nat). lia.
Qed.

(** C8, as the code has it.  The block sizes are added as [int]s.  After a
    successful construction in which the true-DOF counts are not negative
    and their total does not exceed the largest [int], the block offsets
    start at [0], each block has the size of its subdomain (the boundary
    true-DOF count plus the two true-DOF counts of every incident
    interface), the offsets do not decrease, and the last offset is the
    height and the width, the sum of the block sizes.  The part of the
    constructor that follows the loops over the subdomains aborts whenever
    the last partial sum differs from the accumulated size. *)
Theorem block_trueOffsets_monotone_and_total :
  forall (R : Type) (sc : Scalar R) (lib : Library R) (args : DDMArgs)
         (ddm : DDMInterfaceOperator R),
    new_DDMInterfaceOperator lib args = Ok ddm ->
    (forall (idx : nat) obj,
       interfaceObjects (interfaceMembers ddm) !! idx = Some (Some obj) ->
       0 <= GetTrueVSize (ifespace obj) /\ 0 <= GetTrueVSize (iH1fespace obj)) ->
    totalSize ddm (Z.to_nat (numSubdomains args)) <= INT_MAX ->
    let N := Z.to_nat (numSubdomains args) in
    let offsets := block_trueOffsets ddm in
    length offsets = S N /\
    offsets !! 0%nat = Some 0 /\
    (forall m : nat, (m < N)%nat ->
       exists a, offsets !! m = Some a /\
                 offsets !! S m = Some (a + subdomainBlockSize ddm m)) /\
    (forall (m : nat) a b, offsets !! m = Some a -> offsets !! S m = Some b -> a <= b) /\
    Last offsets = Ok (height ddm) /\
    width ddm = height ddm /\
    height ddm = totalSize ddm N /\
    (forall (im : InterfaceMembers R) (sm : SurfaceMembers R) (sd : SubdomainMembers R)
            (l : Z),
       Last (PartialSum (block_trueOffsets2 sd)) = Ok l -> l <> size2 sd ->
       assembleGlobalOp args im sm sd = Abort).
Proof.
  intros R sc lib args ddm Hnew Hnn Hmax N offsets.
  destruct (block_trueOffsets_blocks lib args ddm Hnew) as (Hoffs & Hheight & Hwidth).
  fold N in Hoffs, Hheight, Hmax.
  destruct (PartialSum_blocks (subdomainBlockSize ddm) N)
    as (Hlen & H0 & Hl & _ & Hlast).
  cbv zeta in Hlen, H0, Hl, Hlast. rewrite <- Hoffs in Hlen, H0, Hl, Hlast.
  fold offsets in Hlen, H0, Hl, Hlast.
  assert (Hpre : forall m, (m <= N)%nat ->
            offsets !! m = Some (sumZ (map (subdomainBlockSize ddm) (seq 0 m)))).
  { intros m Hm. rewrite (Hl m Hm). f_equal. apply int_wrap_small.
    pose proof (sumZ_prefix_le (subdomainBlockSize ddm) m N
                  (fun i => subdomainBlockSize_nonneg ddm i Hnn) Hm) as Hle.
    unfold totalSize in Hmax. unfold INT_MAX in *. lia. }
  assert (Hstep : forall m : nat, (m < N)%nat ->
            exists a, offsets !! m = Some a /\
                      offsets !! S m = Some (a + subdomainBlockSize ddm m)).
  { intros m Hm. exists (sumZ (map (subdomainBlockSize ddm) (seq 0 m))).
    split; [apply Hpre; lia|]. rewrite (Hpre (S m)) by lia.
    rewrite seq_S, map_app. cbn [map Nat.add]. rewrite sumZ_snoc. reflexivity. }
  assert (Htot : height ddm = totalSize ddm N).
  { rewrite Hheight. apply int_wrap_small.
    pose proof (sumZ_prefix_le (subdomainBlockSize ddm) N N
                  (fun i => subdomainBlockSize_nonneg ddm i Hnn) (Nat.le_refl N)) as Hle.
    unfold totalSize in *. unfold INT_MAX in *. lia. }
  split; [assumption|]. split; [assumption|]. split; [assumption|].
  split; [|split; [|split; [|split]]].
  - intros m a b Ha Hb.
    assert (Hm : (m < N)%nat) by (apply lookup_lt_Some in Hb; lia).
    destruct (Hstep m Hm) as (a' & Ha' & Hb').
    rewrite Ha in Ha'. injection Ha' as <-. rewrite Hb in Hb'. injection Hb' as ->.
    pose proof (subdomainBlockSize_nonneg ddm m Hnn). lia.
  - unfold Last. rewrite Hlast, Hheight. reflexivity.
  - assumption.
  - assumption.
  - intros im sm sd l Hl' Hne. unfold assembleGlobalOp, verifyOffsets. cbv zeta.
    rewrite Hl'. cbn. now rewrite (proj2 (Z.eqb_neq l (size2 sd))).
Qed.

(** A value read off the result of a run is the value it evaluates to. *)
Lemma run_proj {A B : Type} (r : Res A) (x : A) (f : A -> B) (v : B) :
  r = Ok x -> (a ← r; Ok (f a)) = Ok v -> f x = v.
Proof. intros ->. cbn. now intros [= ->]. Defined.

(** The true-DOF counts of the interface spaces of an operator. *)
Lemma interface_sizes_nonneg {R : Type} (ddm : DDMInterfaceOperator R)
    (sizes : list (option (Z * Z))) :
  map (fmap (fun o : InterfaceObjects R =>
               (GetTrueVSize (ifespace o), GetTrueVSize (iH1fespace o))))
    (interfaceObjects (interfaceMembers ddm)) = sizes ->
  (forall p, In (Some p) sizes -> 0 <= p.1 /\ 0 <= p.2) ->
  forall (idx : nat) obj,
    interfaceObjects (interfaceMembers ddm) !! idx = Some (Some obj) ->
    0 <= GetTrueVSize (ifespace obj) /\ 0 <= GetTrueVSize (iH1fespace obj).
Proof.
  intros Hsizes Hnn idx obj Hobj.
  apply (Hnn (GetTrueVSize (ifespace obj), GetTrueVSize (iH1fespace obj))).
  rewrite <- Hsizes. apply in_map_iff. exists (Some obj). split; [reflexivity|].
  apply list_elem_of_In. eapply list_elem_of_lookup_2; eauto.
Defined.

Lemma block_trueOffsets_monotone_and_total_witness :
  match new_DDMInterfaceOperator cubesLibrary cubesArgs with
  | Ok ddm =>
      block_trueOffsets ddm = [0; 20; 40] /\
      (forall (m : nat) a b,
         block_trueOffsets ddm !! m = Some a -> block_trueOffsets ddm !! S m = Some b ->
         a <= b) /\
      Last (block_trueOffsets ddm) = Ok (height ddm) /\
      height ddm = totalSize ddm 2
  | _ => False
  end.
Proof.
  destruct (new_DDMInterfaceOperator cubesLibrary cubesArgs) as [ddm| | |] eqn:E;
    try (vm_compute in E; discriminate).
  split.
  { apply (run_proj _ _ block_trueOffsets [0; 20; 40] E). vm_compute. reflexivity. }
  destruct (block_trueOffsets_monotone_and_total Z Z_Scalar cubesLibrary cubesArgs ddm E)
    as (_ & _ & _ & Hmono & Hlast & _ & Htot & _).
  - apply (interface_sizes_nonneg ddm [Some (4, 4)]).
    + apply (run_proj _ _
               (fun d => map (fmap (fun o : InterfaceObjects Z =>
                                      (GetTrueVSize (ifespace o),
                                       GetTrueVSize (iH1fespace o))))
                           (interfaceObjects (interfaceMembers d))) _ E).
      vm_compute. reflexivity.
    + intros p [[= <-]|[]]. cbn. lia.
  - assert (Htotal : totalSize ddm (Z.to_nat (numSubdomains cubesArgs)) = 40).
    { apply (run_proj _ _
               (fun d => totalSize d (Z.to_nat (numSubdomains cubesArgs))) _ E).
      vm_compute. reflexivity. }
    rewrite Htotal. unfold INT_MAX. lia.
  - auto.
Defined.

(** C8 as stated fails when the sum of the counts leaves the range of [int].
    On the two cubes with spaces of [2^30] true DOFs on the interface, each
    block has [12 + 2^31] entries: every count is positive, the constructor
    succeeds, the offsets it leaves are [0, -2147483636, 24], which
    decrease, and the height is [24], not the sum of the counts.  The
    offsets of the operator of the first subdomain have wrapped as well. *)
Lemma block_trueOffsets_wrap_around :
  match new_DDMInterfaceOperator largeLibrary cubesArgs with
  | Ok ddm =>
      map (fmap (fun o : InterfaceObjects Z =>
                   (GetTrueVSize (ifespace o), GetTrueVSize (iH1fespace o))))
        (interfaceObjects (interfaceMembers ddm))
      = [Some (1073741824, 1073741824)] /\
      map (boundarySize (tdofsBdry (subdomainMembers ddm))) [0%nat; 1%nat] = [12; 12] /\
      block_trueOffsets ddm = [0; -2147483636; 24] /\
      height ddm = 24 /\ width ddm = 24 /\
      totalSize ddm 2 = 4294967320 /\
      map (fmap (trueOffsetsSD (R := Z))) (subdomainObjects (subdomainMembers ddm))
      = [Some [0; 1073741824; -2147483648; -1073741824];
         Some [0; 1073741824; -2147483648; -1073741824]] /\
      ~ (forall (m : nat) a b,
           block_trueOffsets ddm !! m = Some a ->
           block_trueOffsets ddm !! S m = Some b -> a <= b) /\
      height ddm <> totalSize ddm (Z.to_nat (numSubdomains cubesArgs))
  | _ => False
  end.
Proof.
  assert (H : match new_DDMInterfaceOperator largeLibrary cubesArgs with
              | Ok ddm =>
                  map (fmap (fun o : InterfaceObjects Z =>
                               (GetTrueVSize (ifespace o), GetTrueVSize (iH1fespace o))))
                    (interfaceObjects (interfaceMembers ddm))
                  = [Some (1073741824, 1073741824)] /\
                  map (boundarySize (tdofsBdry (subdomainMembers ddm))) [0%nat; 1%nat]
                  = [12; 12] /\
                  block_trueOffsets ddm = [0; -2147483636; 24] /\
                  height ddm = 24 /\ width ddm = 24 /\
                  totalSize ddm 2 = 4294967320 /\
                  map (fmap (trueOffsetsSD (R := Z)))
                    (subdomainObjects (subdomainMembers ddm))
                  = [Some [0; 1073741824; -2147483648; -1073741824];
                     Some [0; 1073741824; -2147483648; -1073741824]]
              | _ => False
              end).
  { vm_compute. repeat split; reflexivity. }
  destruct (new_DDMInterfaceOperator largeLibrary cubesArgs) as [ddm| | |];
    try exact H.
  destruct H as (Hs & Hb & Hoffs & Hh & Hw & Ht & Hsd).
  repeat (split; [assumption|]).
  split.
  - intros Hmono. specialize (Hmono 0%nat 0 (-2147483636)).
    rewrite Hoffs in Hmono. specialize (Hmono eq_refl eq_refl). lia.
  - change (Z.to_nat (numSubdomains cubesArgs)) with 2%nat. rewrite Hh, Ht. lia.
Qed.


(** ** The subdomain operator *)

Section SubdomainOperator.
Context {R : Type} {sc : Scalar R}.

Lemma interfaceBlockSizes_lookup (im : InterfaceMembers R) (sdli : list Z) :
  forall (i : nat) (interfaceIndex : Z),
    sdli !! i = Some interfaceIndex ->
    interfaceBlockSizes im sdli !! (2 * i)%nat = Some (ndSizeAt im interfaceIndex) /\
    interfaceBlockSizes im sdli !! (2 * i + 1)%nat = Some (h1SizeAt im interfaceIndex).
Proof.
  induction sdli as [|x sdli IH]; intros i idx Hi; [discriminate|].
  destruct i as [|i]; cbn in Hi.
  - injection Hi as ->. split; reflexivity.
  - destruct (IH i idx Hi) as [H1 H2].
    replace (2 * S i)%nat with (S (S (2 * i))) by lia.
    replace (S (S (2 * i)) + 1)%nat with (S (S (2 * i + 1))) by lia.
    split; assumption.
Qed.

Lemma length_interfaceBlockSizes (im : InterfaceMembers R) (sdli : list Z) :
  length (interfaceBlockSizes im sdli) = (2 * length sdli)%nat.
Proof.
  unfold interfaceBlockSizes. induction sdli as [|x sdli IH]; cbn; [reflexivity|].
  rewrite IH. lia.
Qed.

Lemma interfaceBlockSizes_snoc (im : InterfaceMembers R) (sdli : list Z) (x : Z) :
  interfaceBlockSizes im (sdli ++ [x])
  = interfaceBlockSizes im sdli ++ [ndSizeAt im x; h1SizeAt im x].
Proof. unfold interfaceBlockSizes. rewrite flat_map_app. cbn. reflexivity. Qed.

(** The offsets of the subdomain operator: the subdomain block, then the
    [f] block and the [rho] block of each interface. *)
Lemma subdomainOffsets_Ok (im : InterfaceMembers R) (sm : SurfaceMembers R)
    (subdomain : Z) (offsets : list Z) :
  subdomainOffsets im sm subdomain = Ok offsets ->
  exists fes,
    offsets = PartialSum (0 :: GetTrueVSize fes
                 :: interfaceBlockSizes im
                      (subdomainLocalInterfaces im !!! Z.to_nat subdomain)).
Proof.
  unfold subdomainOffsets. intros H.
  split_bind H as sdli Hsdli. split_bind H as p Hp. split_bind H as fes Hfes.
  split_bind H as offs0 Hoffs0. split_bind H as offs Hloop. injection H as <-.
  apply vecGet_Ok in Hsdli as [_ Hsdli]. apply list_lookup_total_correct in Hsdli.
  rewrite Hsdli. exists fes.
  enough (Hoffs : offs = 0 :: GetTrueVSize fes :: map int_wrap (interfaceBlockSizes im sdli)).
  { rewrite Hoffs. unfold PartialSum. cbn [PartialSum_from].
    now rewrite PartialSum_from_wrap. }
  set (n := length sdli) in *.
  apply vecSet_Ok in Hoffs0 as [_ ->].
  replace (Z.to_nat (2 * Z.of_nat n + 1 + 1)) with (S (S (2 * n))) in Hloop by lia.
  change (Z.to_nat 1) with 1%nat in Hloop.
  set (P := fun (k : nat) (o : list Z) =>
              o = 0 :: GetTrueVSize fes
                    :: map int_wrap (interfaceBlockSizes im (take k sdli))
                       ++ replicate (2 * (n - k)) 0).
  apply (forM_indexed P) in Hloop.
  - unfold P in Hloop. rewrite length_zip, length_seqZ in Hloop.
    replace (Z.to_nat (Z.of_nat n) `min` length sdli)%nat with n in Hloop by (unfold n; lia).
    unfold n in Hloop at 1. rewrite firstn_all, Nat.sub_diag in Hloop. cbn in Hloop.
    now rewrite app_nil_r in Hloop.
  - intros k [i idx] o o' Hk Ho Hbody. unfold P in Ho. subst o.
    apply lookup_zip_with_Some in Hk as (i' & idx' & [= -> ->] & Hi & Hidx).
    apply seqZ_lookup_nat in Hi as [-> Hi].
    assert (Hkn : (k < n)%nat) by lia.
    split_bind Hbody as q Hq. destruct q as [obj|]; [|discriminate].
    split_bind Hbody as o1 Hadd1.
    assert (Hnd : ndSizeAt im idx' = GetTrueVSize (ifespace obj))
      by (unfold ndSizeAt; now rewrite Hq).
    assert (Hh1 : h1SizeAt im idx' = GetTrueVSize (iH1fespace obj))
      by (unfold h1SizeAt; now rewrite Hq).
    assert (Hlen : length (map int_wrap (interfaceBlockSizes im (take k sdli)))
                   = (2 * k)%nat).
    { rewrite length_map, length_interfaceBlockSizes, length_take. fold n. lia. }
    replace (2 * (n - k))%nat with (S (S (2 * (n - S k)))) in * by lia.
    apply addAt_Ok in Hadd1 as (_ & cur1 & Hcur1 & ->).
    apply addAt_Ok in Hbody as (_ & cur2 & Hcur2 & ->).
    replace (Z.to_nat (2 * Z.of_nat k + 2)) with (S (S (2 * k))) in * by lia.
    replace (Z.to_nat (2 * Z.of_nat k + 3)) with (S (S (2 * k + 1))) in * by lia.
    rewrite !lookup_cons_S, lookup_app_r in Hcur1 by lia.
    rewrite Hlen, Nat.sub_diag in Hcur1. cbn in Hcur1. injection Hcur1 as <-.
    rewrite !insert_cons_S, !lookup_cons_S in Hcur2.
    rewrite insert_app_r_alt in Hcur2 by lia.
    rewrite lookup_app_r in Hcur2 by lia.
    rewrite Hlen, Nat.sub_diag in Hcur2.
    replace (2 * k + 1 - 2 * k)%nat with 1%nat in Hcur2 by lia.
    cbn in Hcur2. injection Hcur2 as <-.
    unfold P. rewrite !insert_cons_S. do 2 f_equal.
    rewrite !insert_app_r_alt by lia. rewrite Hlen, Nat.sub_diag.
    replace (2 * k + 1 - 2 * k)%nat with 1%nat by lia. cbn [insert list_insert].
    rewrite (take_S_r _ _ _ Hidx), interfaceBlockSizes_snoc, map_app, <- app_assoc.
    rewrite Hnd, Hh1. unfold int_add. rewrite !Z.add_0_l. reflexivity.
  - unfold P. rewrite take_0, Nat.sub_0_r. reflexivity.
Qed.

(** Row [0] of the operator after the six [SetBlock] calls of one
    interface: only the column [2 i + 2] changes. *)
Lemma subdomainInterfaceBlocks_row0 (obj : InterfaceObjects R) (inj : Operator R)
    (i : Z) (op : BlockOperator R) (j : Z) :
  0 <= i ->
  blocks (subdomainInterfaceBlocks obj inj i op) 0 j
  = if j =? 2 * i + 2
    then Some (ProductOperator inj (ifNDH1grad obj), ropp gamma)
    else blocks op 0 j.
Proof.
  intros Hi. unfold subdomainInterfaceBlocks. cbn [blocks SetBlock].
  replace (0 =? 2 * i + 2) with false by (symmetry; lia).
  replace (0 =? 2 * i + 1) with false by (symmetry; lia).
  cbn [andb].
  destruct (Z.eqb_spec j 0) as [->|Hj0].
  - replace (0 =? 2 * i + 2) with false by (symmetry; lia).
    rewrite ?andb_false_r. reflexivity.
  - rewrite ?andb_false_r. cbn [andb]. reflexivity.
Qed.

Lemma subdomainInterfaceBlocks_offsets (obj : InterfaceObjects R) (inj : Operator R)
    (i : Z) (op : BlockOperator R) :
  row_offsets (subdomainInterfaceBlocks obj inj i op) = row_offsets op /\
  col_offsets (subdomainInterfaceBlocks obj inj i op) = col_offsets op.
Proof. split; reflexivity. Qed.

Lemma CreateSubdomainOperator_row0 (im : InterfaceMembers R) (sm : SurfaceMembers R)
    (subdomain : Z) (sdND_m : Operator R) (op : BlockOperator R) (offs : list Z) :
  CreateSubdomainOperator im sm subdomain sdND_m = Ok (op, offs) ->
  subdomainOffsets im sm subdomain = Ok offs /\
  row_offsets op = offs /\ col_offsets op = offs /\
  blocks op 0 0 = Some (sdND_m, rone) /\
  forall (i : nat) (interfaceIndex : Z),
    (subdomainLocalInterfaces im !!! Z.to_nat subdomain) !! i = Some interfaceIndex ->
    exists (obj : InterfaceObjects R) (inj : Operator R),
      interfaceAt im interfaceIndex = Ok obj /\
      (InterfaceToSurfaceInjection sm !!! Z.to_nat subdomain) !! i = Some inj /\
      blocks op 0 (2 * Z.of_nat i + 1) = None /\
      blocks op 0 (2 * Z.of_nat i + 2)
        = Some (ProductOperator inj (ifNDH1grad obj), ropp gamma).
Proof.
  unfold CreateSubdomainOperator. intros H.
  split_bind H as offs' Hoffs. split_bind H as sdli Hsdli. split_bind H as op' Hloop.
  injection H as -> ->. split; [assumption|].
  apply vecGet_Ok in Hsdli as [_ Hsdli]. apply list_lookup_total_correct in Hsdli.
  rewrite Hsdli.
  set (op0 := SetBlock (new_BlockOperator offs offs) 0 0 sdND_m rone) in *.
  set (P := fun (k : nat) (o : BlockOperator R) =>
              row_offsets o = offs /\ col_offsets o = offs /\
              (forall j, (forall i : nat, (i < k)%nat -> j <> 2 * Z.of_nat i + 2) ->
                 blocks o 0 j = blocks op0 0 j) /\
              (forall (i : nat) (interfaceIndex : Z), (i < k)%nat ->
                 sdli !! i = Some interfaceIndex ->
                 exists (obj : InterfaceObjects R) (inj : Operator R),
                   interfaceAt im interfaceIndex = Ok obj /\
                   (InterfaceToSurfaceInjection sm !!! Z.to_nat subdomain) !! i = Some inj /\
                   blocks o 0 (2 * Z.of_nat i + 2)
                     = Some (ProductOperator inj (ifNDH1grad obj), ropp gamma))).
  apply (forM_indexed P) in Hloop.
  - destruct Hloop as (Hrow & Hcol & Hother & Hset).
    split; [assumption|]. split; [assumption|]. split.
    + rewrite Hother by (intros; lia). unfold op0. cbn. reflexivity.
    + intros i idx Hi.
      assert (Hlt : (i < length (zip (seqZ 0 (Z.of_nat (length sdli))) sdli))%nat).
      { rewrite length_zip, length_seqZ. apply lookup_lt_Some in Hi. lia. }
      destruct (Hset i idx Hlt Hi) as (obj & inj & Hobj & Hinj & Hblock).
      exists obj, inj. split; [assumption|]. split; [assumption|]. split; [|assumption].
      rewrite Hother by (intros; lia). unfold op0. cbn.
      replace (2 * Z.of_nat i + 1 =? 0) with false by (symmetry; lia). reflexivity.
  - intros k [i idx] o o' Hk (Hrow & Hcol & Hother & Hset) Hbody.
    apply lookup_zip_with_Some in Hk as (i' & idx' & [= -> ->] & Hi & Hidx).
    apply seqZ_lookup_nat in Hi as [-> Hi].
    split_bind Hbody as obj Hobj. split_bind Hbody as injs Hinjs.
    split_bind Hbody as inj Hinj. injection Hbody as <-.
    apply vecGet_Ok in Hinjs as [_ Hinjs]. apply list_lookup_total_correct in Hinjs.
    apply vecGet_Ok in Hinj as [_ Hinj]. rewrite Nat2Z.id in Hinj.
    unfold P. split; [assumption|]. split; [assumption|]. split.
    + intros j Hj. rewrite subdomainInterfaceBlocks_row0 by lia.
      replace (j =? 2 * Z.of_nat k + 2) with false
        by (symmetry; apply Z.eqb_neq, Hj; lia).
      apply Hother. intros i' Hi'. apply Hj. lia.
    + intros i' idx0 Hi' Hidx0. rewrite subdomainInterfaceBlocks_row0 by lia.
      destruct (Nat.eq_dec i' k) as [->|Hne].
      * rewrite Hidx in Hidx0. injection Hidx0 as <-.
        exists obj, inj. rewrite Hinjs, Z.eqb_refl. auto.
      * replace (2 * Z.of_nat i' + 2 =? 2 * Z.of_nat k + 2) with false by (symmetry; lia).
        apply Hset; [lia|assumption].
  - unfold P. cbn. repeat split; try reflexivity. intros; lia.
Qed.

End SubdomainOperator.

Lemma PartialSum_step (l : list Z) (k : nat) (x : Z) :
  l !! S k = Some x ->
  exists a, PartialSum l !! k = Some a /\ PartialSum l !! S k = Some (int_add a x).
Proof.
  intros Hx. pose proof (lookup_lt_Some _ _ _ Hx) as Hlt. unfold PartialSum.
  exists (int_wrap (0 + sumZ (take (S k) l))). split.
  - rewrite PartialSum_from_lookup by lia. reflexivity.
  - rewrite PartialSum_from_lookup by lia. rewrite (take_S_r _ _ _ Hx), sumZ_snoc.
    f_equal. int_ring.
Qed.

(** C3, as the code has it.  In the operator [CreateSubdomainOperator]
    builds, the columns [2 i + 1] and [2 i + 2] are the [f] block and the
    [rho] block of the [i]-th interface of the subdomain, of widths the
    true-DOF counts of its Nedelec and of its H1 space (the offsets are
    [int] sums).  Row [0] has no block in the [f] column; its block in the
    [rho] column is the surface injection composed with the mixed gradient
    matrix of the interface, with coefficient [-gamma]. *)
Theorem CreateSubdomainOperator_surface_couples_to_rho :
  forall (R : Type) (sc : Scalar R) (im : InterfaceMembers R) (sm : SurfaceMembers R)
         (subdomain : Z) (sdND_m : Operator R) (op : BlockOperator R) (offs : list Z),
    CreateSubdomainOperator im sm subdomain sdND_m = Ok (op, offs) ->
    forall (i : nat) (interfaceIndex : Z),
      (subdomainLocalInterfaces im !!! Z.to_nat subdomain) !! i = Some interfaceIndex ->
      exists (obj : InterfaceObjects R) (inj : Operator R) (a : Z),
        interfaceAt im interfaceIndex = Ok obj /\
        (InterfaceToSurfaceInjection sm !!! Z.to_nat subdomain) !! i = Some inj /\
        col_offsets op !! (2 * i + 1)%nat = Some a /\
        col_offsets op !! (2 * i + 2)%nat
          = Some (int_add a (GetTrueVSize (ifespace obj))) /\
        col_offsets op !! (2 * i + 3)%nat
          = Some (int_add (int_add a (GetTrueVSize (ifespace obj)))
                    (GetTrueVSize (iH1fespace obj))) /\
        blocks op 0 (2 * Z.of_nat i + 1) = None /\
        blocks op 0 (2 * Z.of_nat i + 2)
          = Some (ProductOperator inj (ifNDH1grad obj), ropp gamma).
Proof.
  intros R sc im sm subdomain sdND_m op offs H i idx Hi.
  destruct (CreateSubdomainOperator_row0 im sm subdomain sdND_m op offs H)
    as (Hoffs & _ & Hcol & _ & Hblocks).
  destruct (Hblocks i idx Hi) as (obj & inj & Hobj & Hinj & Hf & Hrho).
  destruct (subdomainOffsets_Ok im sm subdomain offs Hoffs) as (fes & ->).
  destruct (interfaceBlockSizes_lookup im _ i idx Hi) as [Hnd Hh1].
  assert (Hobj' : vecGet (interfaceObjects im) idx = Ok (Some obj)).
  { unfold interfaceAt in Hobj. split_bind Hobj as p Hp.
    destruct p; [|discriminate]. now injection Hobj as ->. }
  unfold ndSizeAt in Hnd. unfold h1SizeAt in Hh1. rewrite Hobj' in Hnd, Hh1.
  set (l := 0 :: GetTrueVSize fes
              :: interfaceBlockSizes im (subdomainLocalInterfaces im !!! Z.to_nat subdomain))
    in *.
  destruct (PartialSum_step l (2 * i + 1) (GetTrueVSize (ifespace obj)))
    as (a & Ha & Ha').
  { replace (S (2 * i + 1)) with (S (S (2 * i))) by lia. exact Hnd. }
  destruct (PartialSum_step l (2 * i + 2) (GetTrueVSize (iH1fespace obj)))
    as (b & Hb & Hb').
  { replace (S (2 * i + 2)) with (S (S (2 * i + 1))) by lia. exact Hh1. }
  replace (S (2 * i + 1)) with (2 * i + 2)%nat in Ha' by lia.
  replace (S (2 * i + 2)) with (2 * i + 3)%nat in Hb' by lia.
  rewrite Ha' in Hb. injection Hb as <-.
  exists obj, inj, a. rewrite Hcol. auto 10.
Qed.

(** The outcome of a step after a run is the outcome of the two in
    sequence. *)
Lemma run_then {A B : Type} (r : Res A) (x : A) (f : A -> Res B) (v : Res B) :
  r = Ok x -> f x = v -> (a ← r; f a) = v.
Proof. intros -> <-. reflexivity. Defined.

Lemma CreateSubdomainOperator_surface_couples_to_rho_witness :
  match new_DDMInterfaceOperator cubesLibrary cubesArgs with
  | Ok ddm =>
      match CreateSubdomainOperator (interfaceMembers ddm) (surfaceMembers ddm) 0
              (IdentityOperator 12) with
      | Ok (op, offs) =>
          blocks op 0 1 = None /\
          exists obj inj,
            blocks op 0 2 = Some (ProductOperator inj (ifNDH1grad obj), ropp gamma)
      | _ => False
      end
  | _ => False
  end.
Proof.
  destruct (new_DDMInterfaceOperator cubesLibrary cubesArgs) as [ddm| | |] eqn:E;
    try (vm_compute in E; discriminate).
  destruct (CreateSubdomainOperator (interfaceMembers ddm) (surfaceMembers ddm) 0
              (IdentityOperator 12)) as [[op offs]| | |] eqn:Hop;
    try (pose proof (run_then _ _
                       (fun d => CreateSubdomainOperator (interfaceMembers d)
                                   (surfaceMembers d) 0 (IdentityOperator 12)) _ E Hop)
           as Hc; vm_compute in Hc; discriminate).
  destruct (CreateSubdomainOperator_surface_couples_to_rho Z Z_Scalar
              (interfaceMembers ddm) (surfaceMembers ddm) 0 (IdentityOperator 12)
              op offs Hop 0%nat 0)
    as (obj & inj & a & _ & _ & _ & _ & _ & Hf & Hrho).
  - apply (run_proj _ _
             (fun d => (subdomainLocalInterfaces (interfaceMembers d) !!! Z.to_nat 0)
                         !! 0%nat) _ E).
    vm_compute. reflexivity.
  - split; [exact Hf|]. exists obj, inj. exact Hrho.
Defined.

(** C3 as stated fails: in the subdomain operator of the first cube, the
    block from the [f] column (column [1]) into row [0] is null; the block
    in the [rho] column (column [2]) is the one that is set. *)
Lemma Asd_surface_f_block_is_null :
  match new_DDMInterfaceOperator cubesLibrary cubesArgs with
  | Ok ddm =>
      match subdomainObjects (subdomainMembers ddm) !! 0%nat with
      | Some (Some o) =>
          blocks (Asd o) 0 1 = None /\ is_Some (blocks (Asd o) 0 2) /\
          col_offsets (Asd o) = [0; 12; 16; 20]
      | _ => False
      end
  | _ => False
  end.
Proof. vm_compute. split; [reflexivity|]. split; [eexists; reflexivity|reflexivity]. Qed.

(** ** Loops that succeed *)

(** A loop whose every iteration succeeds and keeps a property, indexed by
    the number of iterations made, succeeds. *)
Lemma forM_progress_from {A St : Type} (P : nat -> St -> Prop)
    (body : St -> A -> Res St) (l : list A) :
  forall k0 : nat,
    (forall k a s, l !! k = Some a -> P (k0 + k)%nat s ->
       exists s', body s a = Ok s' /\ P (S (k0 + k)) s') ->
    forall s, P k0 s -> exists s', forM body l s = Ok s' /\ P (k0 + length l)%nat s'.
Proof.
  induction l as [|a l IH]; intros k0 Hbody s Hs.
  - exists s. cbn. rewrite Nat.add_0_r. auto.
  - destruct (Hbody 0%nat a s eq_refl) as (s1 & Hs1 & HP1).
    { now rewrite Nat.add_0_r. }
    rewrite Nat.add_0_r in HP1.
    destruct (IH (S k0)) with (s := s1) as (s' & Hrun & HP'); [|assumption|].
    + intros k b t Hk Ht. cbn. rewrite <- Nat.add_succ_r.
      apply (Hbody (S k) b t); [exact Hk|]. now rewrite Nat.add_succ_r.
    + exists s'. cbn. rewrite Hs1. cbn. split; [assumption|].
      now rewrite Nat.add_succ_r.
Qed.

Lemma forM_progress {A St : Type} (P : nat -> St -> Prop)
    (body : St -> A -> Res St) (l : list A) :
  (forall k a s, l !! k = Some a -> P k s -> exists s', body s a = Ok s' /\ P (S k) s') ->
  forall s, P 0%nat s -> exists s', forM body l s = Ok s' /\ P (length l) s'.
Proof. intros Hbody s Hs. exact (forM_progress_from P body l 0%nat Hbody s Hs). Qed.

(** ** The blocks of the global operator *)

Section GlobalBlocks.
Context {R : Type} {sc : Scalar R} (args : DDMArgs).

(** The loop over the local interfaces, run to its end: the two calls of
    [CreateInterfaceOperator] for each local interface succeed, the arrays
    of the interface are left as the second call wrote them, and the two
    operators, applied to these arrays, are the blocks at [(sd0, sd1)] and
    [(sd1, sd0)]. *)
Lemma globalInterfaceLoop_run (im : InterfaceMembers R) (sm : SurfaceMembers R)
    (sd : SubdomainMembers R) (offsets : list Z) (C : BlockOperator R)
    (arrays : list InterfaceOffsets) :
  globalInterfaceLoop args im sm sd offsets = Ok (C, arrays) ->
  row_offsets C = offsets /\ col_offsets C = offsets /\
  length arrays = length (localInterfaces args) /\
  (forall (l : nat) (li : SubdomainInterface),
     localInterfaces args !! l = Some li ->
     FirstSubdomain li < SecondSubdomain li /\
     is_Some (blocks C (FirstSubdomain li) (SecondSubdomain li)) /\
     is_Some (blocks C (SecondSubdomain li) (FirstSubdomain li)) /\
     exists w0 c01 w1 c10,
       CreateInterfaceOperator args im sm sd (Z.of_nat l) 0 = Ok (w0, c01) /\
       CreateInterfaceOperator args im sm sd (Z.of_nat l) 1 = Ok (w1, c10) /\
       arrays !! l = Some w1) /\
  (forall (i j : Z) (A : Operator R) (c : R),
     blocks C i j = Some (A, c) ->
     c = rone /\
     exists (l : nat) (li : SubdomainInterface) w0 c01 w1 c10,
       localInterfaces args !! l = Some li /\
       FirstSubdomain li < SecondSubdomain li /\
       CreateInterfaceOperator args im sm sd (Z.of_nat l) 0 = Ok (w0, c01) /\
       CreateInterfaceOperator args im sm sd (Z.of_nat l) 1 = Ok (w1, c10) /\
       arrays !! l = Some w1 /\
       ((i = FirstSubdomain li /\ j = SecondSubdomain li /\ A = c01 w1) \/
        (i = SecondSubdomain li /\ j = FirstSubdomain li /\ A = c10 w1))).
Proof.
  unfold globalInterfaceLoop. intros H. split_bind H as [op arr] Hloop.
  injection H as HC Harr. subst arr.
  set (n := length (localInterfaces args)).
  set (P := fun (k : nat) (st : (list InterfaceOffsets -> BlockOperator R)
                                * list InterfaceOffsets) =>
    length st.2 = n /\
    (forall final, row_offsets (st.1 final) = offsets /\
                   col_offsets (st.1 final) = offsets) /\
    (forall (l : nat) (li : SubdomainInterface),
       (l < k)%nat -> localInterfaces args !! l = Some li ->
       FirstSubdomain li < SecondSubdomain li /\
       (forall final,
          is_Some (blocks (st.1 final) (FirstSubdomain li) (SecondSubdomain li)) /\
          is_Some (blocks (st.1 final) (SecondSubdomain li) (FirstSubdomain li))) /\
       exists w0 c01 w1 c10,
         CreateInterfaceOperator args im sm sd (Z.of_nat l) 0 = Ok (w0, c01) /\
         CreateInterfaceOperator args im sm sd (Z.of_nat l) 1 = Ok (w1, c10) /\
         st.2 !! l = Some w1) /\
    (forall final (i j : Z) (A : Operator R) (c : R),
       blocks (st.1 final) i j = Some (A, c) ->
       c = rone /\
       exists (l : nat) (li : SubdomainInterface) w0 c01 w1 c10,
         (l < k)%nat /\
         localInterfaces args !! l = Some li /\
         FirstSubdomain li < SecondSubdomain li /\
         CreateInterfaceOperator args im sm sd (Z.of_nat l) 0 = Ok (w0, c01) /\
         CreateInterfaceOperator args im sm sd (Z.of_nat l) 1 = Ok (w1, c10) /\
         ((i = FirstSubdomain li /\ j = SecondSubdomain li /\ A = c01 (final !!! l)) \/
          (i = SecondSubdomain li /\ j = FirstSubdomain li /\ A = c10 (final !!! l))))).
  apply (forM_indexed P) in Hloop.
  - destruct Hloop as (Hlen & Hoffs & Hall & Hblocks). cbn [fst snd] in *.
    rewrite length_seqZ in Hall, Hblocks. unfold numLocalInterfaces in Hall, Hblocks.
    rewrite Nat2Z.id in Hall, Hblocks. fold n in Hall, Hblocks.
    subst C. destruct (Hoffs arrays) as [Hr Hc].
    split; [exact Hr|]. split; [exact Hc|]. split; [exact Hlen|]. split.
    + intros l li Hl. pose proof (lookup_lt_Some _ _ _ Hl) as Hlt. fold n in Hlt.
      destruct (Hall l li Hlt Hl) as (Hlt' & Hpres & Hex).
      destruct (Hpres arrays) as [Hp1 Hp2]. auto.
    + intros i j A c Hb.
      destruct (Hblocks arrays i j A c Hb)
        as (Hc' & l & li & w0 & c01 & w1 & c10 & Hlt & Hl & Hlt' & H0 & H1 & Hcase).
      split; [exact Hc'|].
      destruct (Hall l li Hlt Hl) as (_ & _ & w0' & c01' & w1' & c10' & H0' & H1' & Hw).
      rewrite H0 in H0'. injection H0' as E1 E2. rewrite H1 in H1'. injection H1' as E3 E4.
      subst w0' c01' w1' c10'.
      rewrite (list_lookup_total_correct _ _ _ Hw) in Hcase.
      exists l, li, w0, c01, w1, c10. auto 10.
  - intros k ili [op0 arr0] [op1 arr1] Hk (Hlen & Hoffs & Hall & Hblocks) Hbody.
    cbn [fst snd] in *.
    apply seqZ_lookup_nat in Hk as [Eili Hk]. subst ili.
    split_bind Hbody as li Hli. split_bind Hbody as u Hlt.
    split_bind Hbody as [w0 c01] Hc01. split_bind Hbody as arrA HsetA.
    split_bind Hbody as [w1 c10] Hc10. split_bind Hbody as arrB HsetB.
    injection Hbody as Eop Earr. subst op1 arr1.
    apply MFEM_VERIFY_Ok in Hlt. apply Z.ltb_lt in Hlt.
    apply vecGet_Ok in Hli as [_ Hli]. rewrite Nat2Z.id in *.
    apply vecSet_Ok in HsetA as [HrA EA]. apply vecSet_Ok in HsetB as [HrB EB].
    subst arrA arrB. rewrite Nat2Z.id in *.
    assert (Hkn : (k < length arr0)%nat) by lia.
    unfold P. cbn [fst snd blocks SetBlock row_offsets col_offsets].
    split; [now rewrite !length_insert|]. split; [exact Hoffs|]. split.
    + intros l li' Hl Hli'. destruct (Nat.eq_dec l k) as [El|Hne].
      * subst l. rewrite Hli in Hli'. injection Hli' as Eli. subst li'.
        split; [exact Hlt|]. split.
        { intros final. rewrite !Z.eqb_refl. cbn [andb].
          destruct ((FirstSubdomain li =? SecondSubdomain li)
                    && (SecondSubdomain li =? FirstSubdomain li)); eauto. }
        exists w0, c01, w1, c10. split; [exact Hc01|]. split; [exact Hc10|].
        rewrite list_lookup_insert_eq by (rewrite length_insert; lia). reflexivity.
      * destruct (Hall l li' ltac:(lia) Hli') as (Hlt' & Hpres & w0' & c01' & w1' & c10'
                                                  & H0' & H1' & Hw).
        split; [exact Hlt'|]. split.
        { intros final. destruct (Hpres final) as [Hp1 Hp2].
          split.
          - destruct ((FirstSubdomain li' =? SecondSubdomain li)
                      && (SecondSubdomain li' =? FirstSubdomain li)); [eauto|].
            destruct ((FirstSubdomain li' =? FirstSubdomain li)
                      && (SecondSubdomain li' =? SecondSubdomain li)); [eauto|exact Hp1].
          - destruct ((SecondSubdomain li' =? SecondSubdomain li)
                      && (FirstSubdomain li' =? FirstSubdomain li)); [eauto|].
            destruct ((SecondSubdomain li' =? FirstSubdomain li)
                      && (FirstSubdomain li' =? SecondSubdomain li)); [eauto|exact Hp2]. }
        exists w0', c01', w1', c10'. split; [exact H0'|]. split; [exact H1'|].
        rewrite !list_lookup_insert_ne by lia. exact Hw.
    + intros final i j A c.
      destruct ((i =? SecondSubdomain li) && (j =? FirstSubdomain li)) eqn:E10.
      * intros Hb. injection Hb as EA Ec. subst A c.
        apply andb_true_iff in E10 as [Ei Ej]. apply Z.eqb_eq in Ei, Ej.
        split; [reflexivity|]. exists k, li, w0, c01, w1, c10.
        split; [lia|]. auto 10.
      * destruct ((i =? FirstSubdomain li) && (j =? SecondSubdomain li)) eqn:E01.
        -- intros Hb. injection Hb as EA Ec. subst A c.
           apply andb_true_iff in E01 as [Ei Ej]. apply Z.eqb_eq in Ei, Ej.
           split; [reflexivity|]. exists k, li, w0, c01, w1, c10.
           split; [lia|]. auto 10.
        -- intros Hb.
           destruct (Hblocks final i j A c Hb)
             as (Hc' & l & li' & w0' & c01' & w1' & c10' & Hl & Hrest).
           split; [exact Hc'|]. exists l, li', w0', c01', w1', c10'.
           split; [lia|exact Hrest].
  - unfold P. cbn [fst snd]. split.
    + rewrite length_replicate. unfold numLocalInterfaces. fold n. lia.
    + split; [intros final; split; reflexivity|]. split; [intros l li Hl; lia|].
      intros final i j A c Hb. discriminate Hb.
Qed.

Lemma globalSubdomainLoop_blocks (im : InterfaceMembers R) (sm : SurfaceMembers R)
    (sd : SubdomainMembers R) (offsets : list Z) (S : BlockOperator R) :
  globalSubdomainLoop args im sm sd offsets = Ok S ->
  row_offsets S = offsets /\ col_offsets S = offsets /\
  forall (i j : Z) (A : Operator R) (c : R),
    blocks S i j = Some (A, c) ->
    i = j /\ c = rone /\
    exists (o : SubdomainObjects R) (inj : BlockOperator R),
      subdomainAt sd i = Ok o /\
      subdomainInjection im sm sd i o = Ok inj /\
      A = TripleProductOperator (TransposeOperator (BlockOperator_Operator inj))
            (invAsd o) (BlockOperator_Operator inj).
Proof.
  unfold globalSubdomainLoop.
  apply (forM_invariant
           (fun S => row_offsets S = offsets /\ col_offsets S = offsets /\
              forall (i j : Z) (A : Operator R) (c : R),
                blocks S i j = Some (A, c) ->
                i = j /\ c = rone /\
                exists (o : SubdomainObjects R) (inj : BlockOperator R),
                  subdomainAt sd i = Ok o /\
                  subdomainInjection im sm sd i o = Ok inj /\
                  A = TripleProductOperator
                        (TransposeOperator (BlockOperator_Operator inj))
                        (invAsd o) (BlockOperator_Operator inj))).
  - intros op m op' _ (Hrow & Hcol & Hblocks) Hbody.
    split_bind Hbody as p Hp. destruct p as [o|]; [|now injection Hbody as <-].
    split_bind Hbody as inj Hinj. injection Hbody as <-.
    split; [assumption|]. split; [assumption|].
    intros i j A c. cbn [blocks SetBlock].
    destruct ((i =? m) && (j =? m)) eqn:E.
    + intros [= <- <-]. apply andb_true_iff in E as [Ei Ej].
      apply Z.eqb_eq in Ei, Ej. subst i j. split; [reflexivity|]. split; [reflexivity|].
      exists o, inj. split; [|split; [assumption|reflexivity]].
      unfold subdomainAt. rewrite Hp. reflexivity.
    + apply Hblocks.
  - cbn. split; [reflexivity|]. split; [reflexivity|]. intros i j A c [=].
Qed.

End GlobalBlocks.

(** ** The global operator at the zero vector *)

(** C1, at inputs on which the code departs from it.  The constructor does
    assemble [globalOp] as the sum, with coefficients [1], of the product of
    [globalSubdomainOp] and [globalInterfaceOp] and of the identity.  But
    [Mult] does not send the zero vector to the zero vector, in binary64:

    - On the two cubes whose second subdomain has a DOF away from the
      interface that is owned by another process ([11] boundary true DOFs
      against [12]), no entry of a DOF table is the sentinel.  The two calls
      of [CreateInterfaceOperator] for the interface write the same arrays
      of offsets, the call for [(sd1, sd0)] over what the call for
      [(sd0, sd1)] wrote.  The operator of the first call, which sends zero
      to zero over the offsets it was built with, is applied over those of
      the second call and reads past the end of its argument: so does
      [Mult] of the global operator.
    - On the two cubes whose first subdomain has a DOF of the interface that
      is owned by another process, the DOF table keeps the sentinel [-1]:
      each of the two interface operators, over the offsets it was built
      with, indexes a vector with it, and so does [Mult] of the global
      operator. *)
Theorem DDMInterfaceOperator_Mult_zero_out_of_bounds :
  (forall (R : Type) (sc : Scalar R) (lib : Library R) (args : DDMArgs)
          (ddm : DDMInterfaceOperator R),
     new_DDMInterfaceOperator lib args = Ok ddm ->
     globalOp ddm
     = SumOperator
         (ProductOperator (BlockOperator_Operator (globalSubdomainOp ddm))
            (BlockOperator_Operator (globalInterfaceOp ddm)))
         (IdentityOperator (height ddm)) rone rone) /\
  match new_DDMInterfaceOperator (R := float) (sharedEdgeLibrary 2) cubesArgs with
  | Ok ddm =>
      let im := interfaceMembers ddm in
      let sm := surfaceMembers ddm in
      let sd := subdomainMembers ddm in
      InterfaceToSurfaceInjectionData sm = [ [ [1; 10; 5; 9] ]; [ [3; 10; 7; 8] ] ] /\
      block_trueOffsets ddm = [0; 20; 39] /\ height ddm = 39 /\
      match CreateInterfaceOperator cubesArgs im sm sd 0 0,
            CreateInterfaceOperator cubesArgs im sm sd 0 1 with
      | Ok (w0, c01), Ok (w1, c10) =>
          colTrueOffsetsIFBR w0 = [0; 11; 11; 19; 19] /\
          colTrueOffsetsIFBR w1 = [0; 12; 12; 20; 20] /\
          interfaceOffsets ddm = [w1] /\
          Height (c01 w1) = 20 /\ Width (c01 w1) = 19 /\
          Mult (c01 w0) (zeros 19) = Ok (zeros 20) /\
          Mult (c01 w1) (zeros 19) = OutOfBounds /\
          Mult (c10 w1) (zeros 20) = Ok (zeros 19)
      | _, _ => False
      end /\
      Mult (BlockOperator_Operator (globalSubdomainOp ddm)) (zeros 39) = Ok (zeros 39) /\
      Mult (BlockOperator_Operator (globalInterfaceOp ddm)) (zeros 39) = OutOfBounds /\
      DDMInterfaceOperator_Mult ddm (zeros 39) = OutOfBounds
  | _ => False
  end /\
  match new_DDMInterfaceOperator (R := float) (sharedEdgeLibrary 1) cubesArgs with
  | Ok ddm =>
      let im := interfaceMembers ddm in
      let sm := surfaceMembers ddm in
      let sd := subdomainMembers ddm in
      InterfaceToSurfaceInjectionData sm = [ [ [1; -1; 5; 9] ]; [ [3; 11; 7; 8] ] ] /\
      block_trueOffsets ddm = [0; 19; 39] /\ height ddm = 39 /\
      match CreateInterfaceOperator cubesArgs im sm sd 0 0,
            CreateInterfaceOperator cubesArgs im sm sd 0 1 with
      | Ok (w0, c01), Ok (w1, c10) =>
          interfaceOffsets ddm = [w1] /\
          Height (c01 w0) = 19 /\ Width (c01 w0) = 20 /\
          Mult (c01 w0) (zeros 20) = OutOfBounds /\
          Height (c10 w1) = 20 /\ Width (c10 w1) = 19 /\
          Mult (c10 w1) (zeros 19) = OutOfBounds
      | _, _ => False
      end /\
      DDMInterfaceOperator_Mult ddm (zeros 39) = OutOfBounds
  | _ => False
  end.
Proof.
  split.
  - intros R sc lib args ddm H.
    apply new_DDMInterfaceOperator_Ok in H
      as (_ & im & sm & sd & _ & _ & _ & _ & C & arrays & S & _ & _ & ->).
    reflexivity.
  - split; vm_compute; repeat split; reflexivity.
Qed.


(** ** The boundary true DOFs *)

Lemma set_insert_In (x z : Z) (s : list Z) :
  In z (set_insert x s) <-> z = x \/ In z s.
Proof.
  induction s as [|y s IH]; cbn.
  - intuition.
  - destruct (x <? y) eqn:Hlt; cbn.
    + intuition.
    + destruct (x =? y) eqn:Heq; cbn.
      * apply Z.eqb_eq in Heq. subst y. intuition.
      * rewrite IH. intuition.
Qed.

Lemma set_insert_ascending (x : Z) (s : list Z) :
  ascending s -> ascending (set_insert x s).
Proof.
  induction s as [|y s IH]; cbn; intros Hs.
  - split; [intros ? []|exact I].
  - destruct Hs as [Hy Hs].
    destruct (x <? y) eqn:Hlt; cbn.
    + apply Z.ltb_lt in Hlt. split; [|split; assumption].
      intros z [<-|Hz]; [assumption|]. specialize (Hy z Hz). lia.
    + destruct (x =? y) eqn:Heq; cbn.
      * split; assumption.
      * apply Z.ltb_ge in Hlt. apply Z.eqb_neq in Heq.
        split; [|apply IH; assumption].
        intros z Hz. apply set_insert_In in Hz as [->|Hz]; [lia|auto].
Qed.

Lemma ascending_NoDup (s : list Z) : ascending s -> NoDup s.
Proof.
  induction s as [|x s IH]; cbn; intros Hs; [constructor|].
  destruct Hs as [Hx Hs]. constructor; [|auto].
  intros Hin. apply list_elem_of_In in Hin. specialize (Hx x Hin). lia.
Qed.

Lemma ascending_lookup (s : list Z) :
  ascending s ->
  forall (i j : nat) (a b : Z), (i < j)%nat -> s !! i = Some a -> s !! j = Some b -> a < b.
Proof.
  induction s as [|x s IH]; intros Hs i j a b Hij Hi Hj; [discriminate|].
  destruct Hs as [Hx Hs]. destruct j as [|j]; [lia|].
  cbn in Hj. destruct i as [|i]; cbn in Hi.
  - injection Hi as <-. apply Hx. apply list_elem_of_In. eapply list_elem_of_lookup_2. eassumption.
  - apply (IH Hs i j); [lia|assumption..].
Qed.

(** The loop over the DOFs of one boundary element. *)
Lemma boundaryDofs_fold (pf : ParFiniteElementSpace) (dofs : list Z) :
  forall (s : list Z) (z : Z),
    In z (fold_left
            (fun tdofs dof =>
               let dof_i := if dof >=? 0 then dof else -1 - dof in
               let ldof := GetLocalTDofNumber pf dof_i in
               if ldof >=? 0 then set_insert ldof tdofs else tdofs)
            dofs s) <->
    In z s \/
    exists dof, In dof dofs /\ z = GetLocalTDofNumber pf (decodeDof dof) /\ 0 <= z.
Proof.
  induction dofs as [|d dofs IH]; intros s z; cbn [fold_left].
  - split; [auto|]. intros [H|(dof & [] & _)]. exact H.
  - rewrite IH. cbn zeta. fold (decodeDof d).
    destruct (GetLocalTDofNumber pf (decodeDof d) >=? 0) eqn:Hge.
    + rewrite set_insert_In. apply Z.geb_le in Hge. split.
      * intros [[->|H]|(dof & Hin & Hz)]; [right|left|right].
        -- exists d. cbn. auto with zarith.
        -- assumption.
        -- exists dof. cbn. tauto.
      * intros [H|(dof & [<-|Hin] & Hz & Hz0)]; [left; right; assumption| |].
        -- left. left. assumption.
        -- right. exists dof. tauto.
    + split.
      * intros [H|(dof & Hin & Hz)]; [left; assumption|right].
        exists dof. cbn. tauto.
      * intros [H|(dof & [<-|Hin] & Hz & Hz0)]; [left; assumption| |].
        -- subst z. apply Z.geb_le in Hz0. rewrite Hz0 in Hge. discriminate.
        -- right. exists dof. tauto.
Qed.

Lemma boundaryDofs_fold_ascending (pf : ParFiniteElementSpace) (dofs : list Z) :
  forall s : list Z,
    ascending s ->
    ascending (fold_left
            (fun tdofs dof =>
               let dof_i := if dof >=? 0 then dof else -1 - dof in
               let ldof := GetLocalTDofNumber pf dof_i in
               if ldof >=? 0 then set_insert ldof tdofs else tdofs)
            dofs s).
Proof.
  induction dofs as [|d dofs IH]; intros s Hs; cbn [fold_left]; [assumption|].
  apply IH. cbn zeta.
  destruct (_ >=? 0); [apply set_insert_ascending|]; assumption.
Qed.

Lemma FindBoundaryTrueDOFs_In (pf : ParFiniteElementSpace) (s : list Z) (z : Z) :
  In z (FindBoundaryTrueDOFs pf s) <->
  In z s \/
  exists be dof,
    0 <= be < GetNBE (GetParMesh pf) /\
    In dof (GetBdrElementDofs pf be) /\
    z = GetLocalTDofNumber pf (decodeDof dof) /\ 0 <= z.
Proof.
  unfold FindBoundaryTrueDOFs. cbn zeta.
  assert (Hgen : forall (bes : list Z) (s : list Z),
    In z (fold_left
      (fun tdofs be =>
         fold_left
           (fun tdofs dof =>
              let dof_i := if dof >=? 0 then dof else -1 - dof in
              let ldof := GetLocalTDofNumber pf dof_i in
              if ldof >=? 0 then set_insert ldof tdofs else tdofs)
           (GetBdrElementDofs pf be) tdofs) bes s) <->
    In z s \/ exists be dof, In be bes /\ In dof (GetBdrElementDofs pf be) /\
                 z = GetLocalTDofNumber pf (decodeDof dof) /\ 0 <= z).
  { induction bes as [|be bes IH]; intros s0; cbn [fold_left].
    - split; [auto|]. intros [H|(be & dof & [] & _)]. exact H.
    - rewrite IH, boundaryDofs_fold. split.
      + intros [[H|(dof & Hin & Hz)]|(be' & dof & Hbe & Hin & Hz)].
        * left. assumption.
        * right. exists be, dof. cbn. tauto.
        * right. exists be', dof. cbn. tauto.
      + intros [H|(be' & dof & [<-|Hbe] & Hin & Hz)].
        * left. left. assumption.
        * left. right. exists dof. tauto.
        * right. exists be', dof. tauto. }
  rewrite Hgen. split.
  - intros [H|(be & dof & Hbe & Hrest)]; [left; assumption|right].
    exists be, dof. split; [|assumption].
    apply list_elem_of_In, elem_of_seqZ in Hbe. lia.
  - intros [H|(be & dof & Hbe & Hrest)]; [left; assumption|right].
    exists be, dof. split; [|assumption].
    apply list_elem_of_In, elem_of_seqZ. lia.
Qed.

Lemma FindBoundaryTrueDOFs_asc (pf : ParFiniteElementSpace) (s : list Z) :
  ascending s -> ascending (FindBoundaryTrueDOFs pf s).
Proof.
  unfold FindBoundaryTrueDOFs. cbn zeta.
  generalize (seqZ 0 (GetNBE (GetParMesh pf))). intros bes. revert s.
  induction bes as [|be bes IH]; intros s Hs; cbn [fold_left]; [assumption|].
  apply IH. apply boundaryDofs_fold_ascending. assumption.
Qed.

(** X1.  [FindBoundaryTrueDOFs] adds to the set exactly the local true DOF
    numbers, when they are not negative, of the DOFs of the boundary
    elements, a DOF listed as [-1 - d] standing for [d]; what the set held
    before stays in it. *)
Theorem FindBoundaryTrueDOFs_membership :
  forall (pfespace : ParFiniteElementSpace) (tdofsBdry : list Z) (z : Z),
    In z (FindBoundaryTrueDOFs pfespace tdofsBdry) <->
    In z tdofsBdry \/
    exists be dof,
      0 <= be < GetNBE (GetParMesh pfespace) /\
      In dof (GetBdrElementDofs pfespace be) /\
      z = GetLocalTDofNumber pfespace (if dof >=? 0 then dof else -1 - dof) /\
      0 <= z.
Proof. exact FindBoundaryTrueDOFs_In. Qed.

(** X2.  Started from the empty set, as the constructor does,
    [FindBoundaryTrueDOFs] yields a strictly ascending sequence of indices
    that are not negative: no true DOF is counted twice in
    [tdofsBdry[m].size()]. *)
Theorem FindBoundaryTrueDOFs_ascending_nonneg :
  forall pfespace : ParFiniteElementSpace,
    let tdofs := FindBoundaryTrueDOFs pfespace [] in
    ascending tdofs /\
    NoDup tdofs /\
    (forall z, In z tdofs -> 0 <= z) /\
    (forall (i j : nat) (a b : Z),
       (i < j)%nat -> tdofs !! i = Some a -> tdofs !! j = Some b -> a < b).
Proof.
  intros pf tdofs.
  assert (Hasc : ascending tdofs) by (apply FindBoundaryTrueDOFs_asc; exact I).
  split; [exact Hasc|]. split; [apply ascending_NoDup; exact Hasc|]. split.
  - intros z Hz. apply FindBoundaryTrueDOFs_In in Hz as [[]|(be & dof & _ & _ & _ & Hz)].
    exact Hz.
  - apply ascending_lookup. exact Hasc.
Qed.
(** X3.  The boundary set of a space whose boundary DOFs have local true
    DOF numbers below [GetTrueVSize] makes [tdofsBdryInjection]: the
    constructor's check passes, [Mult] stays inside its vectors and
    [MultTranspose] undoes it. *)
Theorem tdofsBdryInjection_in_bounds :
  forall (R : Type) (sc : Scalar R) (fes : ParFiniteElementSpace),
    0 <= GetTrueVSize fes ->
    (forall be dof,
       0 <= be < GetNBE (GetParMesh fes) -> In dof (GetBdrElementDofs fes be) ->
       GetLocalTDofNumber fes (if dof >=? 0 then dof else -1 - dof) < GetTrueVSize fes) ->
    let tdofs := FindBoundaryTrueDOFs fes [] in
    exists op : Operator R,
      new_SetInjectionOperator (GetTrueVSize fes) tdofs = Ok op /\
      Height op = GetTrueVSize fes /\ Width op = Z.of_nat (length tdofs) /\
      forall x : Vector R, length x = length tdofs ->
        exists y, Mult op x = Ok y /\ length y = Z.to_nat (GetTrueVSize fes) /\
                  MultTranspose op y = Ok x.
Proof.
  intros R sc fes Hsize Hbound tdofs.
  assert (Hnd : NoDup tdofs).
  { apply ascending_NoDup, FindBoundaryTrueDOFs_asc. exact I. }
  assert (Hrange : forall it, In it tdofs -> 0 <= it < GetTrueVSize fes).
  { intros it Hit.
    apply FindBoundaryTrueDOFs_In in Hit as [[]|(be & dof & Hbe & Hin & -> & Hz)].
    split; [exact Hz|]. exact (Hbound be dof Hbe Hin). }
  pose proof (distinct_indices_bounded _ _ Hsize Hnd Hrange) as Hle.
  unfold new_SetInjectionOperator. cbn zeta.
  rewrite (proj2 (Z.geb_le _ _) Hle). cbn.
  eexists. split; [reflexivity|]. cbn. split; [reflexivity|]. split; [reflexivity|].
  intros x Hx.
  destruct (SetInjectionOperator_Mult_lookup (GetTrueVSize fes) tdofs x Hrange Hx)
    as (y & Hy & Hlen & _).
  destruct (SetInjectionOperator_roundtrip (GetTrueVSize fes) tdofs x Hnd Hrange Hx)
    as (y' & Hy' & Hback).
  exists y. split; [exact Hy|]. split; [exact Hlen|]. congruence.
Qed.

Lemma tdofsBdryInjection_in_bounds_witness :
  exists op : Operator Z,
    new_SetInjectionOperator 12 (FindBoundaryTrueDOFs (edgeSpace sdMesh0 12) []) = Ok op /\
    Height op = 12 /\
    Width op = Z.of_nat (length (FindBoundaryTrueDOFs (edgeSpace sdMesh0 12) [])) /\
    forall x : Vector Z,
      length x = length (FindBoundaryTrueDOFs (edgeSpace sdMesh0 12) []) ->
      exists y, Mult op x = Ok y /\ length y = Z.to_nat 12 /\ MultTranspose op y = Ok x.
Proof.
  apply (tdofsBdryInjection_in_bounds Z _ (edgeSpace sdMesh0 12)).
  - cbn. lia.
  - intros be dof Hbe Hin. cbn in Hbe.
    assert (Hcases : be = 0 \/ be = 1 \/ be = 2 \/ be = 3 \/ be = 4 \/ be = 5) by lia.
    destruct Hcases as [->|[->|[->|[->|[->| ->]]]]]; cbn in Hin;
      repeat (destruct Hin as [<-|Hin]; [vm_compute; reflexivity|]); destruct Hin.
Defined.

(** ** The interface-to-surface DOF map: targets, skipped faces, errors *)

Lemma setDof_writesFrom (fespace : ParFiniteElementSpace) (t t' : DofTable)
    (ifdof sddof : Z) :
  writesFrom fespace t ->
  setDof t ifdof (GetLocalTDofNumber fespace sddof) = Ok t' ->
  writesFrom fespace t'.
Proof.
  intros Hw H. apply setDof_Ok in H as (_ & _ & _ & Hwr).
  intros i v. rewrite Hwr. intros [[= <- <-]|Hin]; [eauto|eapply Hw; eauto].
Qed.

Lemma mapDofs_writesFrom (fespace : ParFiniteElementSpace)
    (ifdofs sddofs : list Z) (t t' : DofTable) :
  writesFrom fespace t -> mapDofs fespace ifdofs sddofs t = Ok t' ->
  writesFrom fespace t'.
Proof.
  intros Hinv H. unfold mapDofs in H. inv_bind H.
  revert H. apply forM_invariant; [|assumption].
  intros s [ifdof sddof] s' _ Hs Hbody.
  destruct (GetLocalTDofNumber fespace sddof >=? 0).
  - eapply setDof_writesFrom; eauto.
  - now injection Hbody as <-.
Qed.

Lemma mapVertexDofs_writesFrom (ifespace fespace : ParFiniteElementSpace)
    (i sdMeshFace : Z) (t t' : DofTable) :
  writesFrom fespace t -> mapVertexDofs ifespace fespace i sdMeshFace t = Ok t' ->
  writesFrom fespace t'.
Proof.
  intros Hinv H. unfold mapVertexDofs in H. inv_bind H.
  revert H. apply forM_invariant; [|assumption].
  intros s ifVert_j s' _ Hs Hbody.
  inv_bind Hbody. destruct a0 as [found s1]. inv_bind Hbody. injection Hbody as <-.
  change s1 with (snd (found, s1)).
  revert Hstep0. apply (forM_invariant (fun st => writesFrom fespace (snd st))); [|exact Hs].
  intros [f0 s0] sdVert_k [f1 s2] _ Hs0 Hin. cbn [snd] in *.
  destruct (verticesEqual vertexTol _ _).
  - inv_bind Hin. injection Hin as _ <-. eapply mapDofs_writesFrom; eauto.
  - injection Hin as _ <-. assumption.
Qed.

Lemma mapEdgeDofs_writesFrom (ifespace fespace : ParFiniteElementSpace)
    (i sdMeshFace : Z) (t t' : DofTable) :
  writesFrom fespace t -> mapEdgeDofs ifespace fespace i sdMeshFace t = Ok t' ->
  writesFrom fespace t'.
Proof.
  intros Hinv H. unfold mapEdgeDofs in H. inv_bind H.
  revert H. apply forM_invariant; [|assumption].
  intros s ifEdge_j s' _ Hs Hbody.
  do 4 inv_bind Hbody. eapply mapDofs_writesFrom; eauto.
Qed.

Lemma interfaceFaceStep_writesFrom (ifespace fespace : ParFiniteElementSpace)
    (fec : FiniteElementCollection) (faceToElem elemToSD : gmap Z Z)
    (t t' : DofTable) (it : Z * Z) :
  writesFrom fespace t ->
  interfaceFaceStep ifespace fespace fec faceToElem elemToSD t it = Ok t' ->
  writesFrom fespace t'.
Proof.
  intros Hinv H. unfold interfaceFaceStep in H. destruct it as [i pmeshFace].
  destruct (faceToElem !! pmeshFace) as [pmeshElem|]; [|now injection H as <-].
  destruct (elemToSD !! pmeshElem) as [sdMeshElem|]; [|discriminate].
  inv_bind H. inv_bind H. inv_bind H.
  assert (H1 : writesFrom fespace a0).
  { destruct (DofForGeometry fec POINT >? 0).
    - eapply mapVertexDofs_writesFrom; eauto.
    - now injection Hstep0 as <-. }
  assert (H2 : writesFrom fespace a1).
  { destruct (DofForGeometry fec SEGMENT >? 0).
    - eapply mapEdgeDofs_writesFrom; eauto.
    - now injection Hstep1 as <-. }
  destruct (DofForGeometry fec (GetFaceGeometryType (GetParMesh fespace) 0) >? 0).
  - unfold mapFaceDofs in H. exact (mapDofs_writesFrom _ _ _ _ _ H2 H).
  - now injection H as <-.
Qed.

Lemma SetInterfaceToSurfaceDOFMap_run_writesFrom (ifespace fespace : ParFiniteElementSpace)
    (pmesh : ParMesh) (sdAttribute : Z) (pmeshFacesInInterface : list Z)
    (fec : FiniteElementCollection) (t : DofTable) :
  SetInterfaceToSurfaceDOFMap_run ifespace fespace pmesh sdAttribute
    pmeshFacesInInterface fec = Ok t ->
  writesFrom fespace t.
Proof.
  intros H. unfold SetInterfaceToSurfaceDOFMap_run in H.
  inv_bind H. destruct a as [faceToElem elems].
  revert H. apply forM_invariant.
  - intros s it s' _. apply interfaceFaceStep_writesFrom.
  - intros i v [].
Qed.

(** X4.  A table [SetInterfaceToSurfaceDOFMap] returns has one entry for
    each full DOF of the interface space, and each entry is the sentinel
    [-1] or a local true DOF number of the subdomain space that is not
    negative. *)
Theorem SetInterfaceToSurfaceDOFMap_targets :
  forall (ifespace fespace : ParFiniteElementSpace) (pmesh : ParMesh)
         (sdAttribute : Z) (pmeshFacesInInterface : list Z)
         (fec : FiniteElementCollection) (table : list Z),
    SetInterfaceToSurfaceDOFMap ifespace fespace pmesh sdAttribute
      pmeshFacesInInterface fec = Ok table ->
    length table = Z.to_nat (GetVSize ifespace) /\
    (forall (p : nat) (v : Z), table !! p = Some v ->
       v = -1 \/ (0 <= v /\ exists sddof, v = GetLocalTDofNumber fespace sddof)).
Proof.
  intros ifespace fespace pmesh sdAttribute faces fec dm H.
  unfold SetInterfaceToSurfaceDOFMap in H. inv_bind H. injection H as <-.
  pose proof (SetInterfaceToSurfaceDOFMap_run_inv _ _ _ _ _ _ _ Hstep) as [[Hw Hm] Hlen].
  pose proof (SetInterfaceToSurfaceDOFMap_run_writesFrom _ _ _ _ _ _ _ Hstep) as Hfrom.
  assert (Hval : forall (p : nat) (v : Z), dofmap a !! p = Some v ->
     v = -1 \/ (0 <= v /\ exists sddof, v = GetLocalTDofNumber fespace sddof)).
  { intros p v Hp. destruct (Z.eq_dec v (-1)) as [->|Hne]; [left; reflexivity|right].
    pose proof (Hm p v Hp Hne) as Hin.
    split; [apply (Hw _ _ Hin)|apply (Hfrom _ _ Hin)]. }
  split; [exact Hlen|exact Hval].
Qed.

Lemma SetInterfaceToSurfaceDOFMap_targets_witness :
  length [3; 11; 7; 8] = Z.to_nat (GetVSize (edgeSpace ifMeshX1 4)) /\
  (forall (p : nat) (v : Z), [3; 11; 7; 8] !! p = Some v ->
     v = -1 \/
     (0 <= v /\ exists sddof, v = GetLocalTDofNumber (edgeSpace sdMesh1 12) sddof)).
Proof.
  apply (SetInterfaceToSurfaceDOFMap_targets (edgeSpace ifMeshX1 4) (edgeSpace sdMesh1 12)
           pmesh2 2 [2] ND_fecbdry [3; 11; 7; 8]).
  vm_compute. reflexivity.
Defined.
Lemma forM_fixed {A St : Type} (body : St -> A -> Res St) (l : list A) (s : St) :
  (forall a, In a l -> body s a = Ok s) -> forM body l s = Ok s.
Proof.
  induction l as [|a l IH]; intros H; cbn; [reflexivity|].
  rewrite (H a) by (left; reflexivity). cbn. apply IH.
  intros b Hb. apply H. right. exact Hb.
Qed.

Lemma forM_app {A St : Type} (body : St -> A -> Res St) (l1 l2 : list A) (s : St) :
  forM body (l1 ++ l2) s = (s' ← forM body l1 s; forM body l2 s').
Proof.
  revert s. induction l1 as [|a l1 IH]; intros s; cbn; [reflexivity|].
  destruct (body s a) as [s1| | |]; cbn; [apply IH|reflexivity..].
Qed.

Lemma set_mem_true (x : Z) (s : list Z) : set_mem x s = true <-> In x s.
Proof.
  unfold set_mem. rewrite existsb_exists. split.
  - intros (y & Hy & E). apply Z.eqb_eq in E. now subst.
  - intros H. exists x. split; [exact H|apply Z.eqb_refl].
Qed.

Lemma set_mem_false (x : Z) (s : list Z) : set_mem x s = false <-> ~ In x s.
Proof.
  rewrite <- set_mem_true. destruct (set_mem x s); split; intros H; congruence.
Qed.

(** X5.  When no element of the subdomain has a face in the interface, the
    empty interface included, [SetInterfaceToSurfaceDOFMap] succeeds and
    leaves every entry of the table unmapped: each face of the interface
    is skipped. *)
Theorem SetInterfaceToSurfaceDOFMap_skips_faces_without_neighbour :
  forall (ifespace fespace : ParFiniteElementSpace) (pmesh : ParMesh)
         (sdAttribute : Z) (pmeshFacesInInterface : list Z)
         (fec : FiniteElementCollection),
    (forall elId f,
       0 <= elId < GetNE pmesh -> GetAttribute pmesh elId = sdAttribute ->
       In f (GetElementFaces pmesh elId) -> ~ In f pmeshFacesInInterface) ->
    SetInterfaceToSurfaceDOFMap ifespace fespace pmesh sdAttribute
      pmeshFacesInInterface fec
    = Ok (replicate (Z.to_nat (GetVSize ifespace)) (-1)).
Proof.
  intros ifespace fespace pmesh sdAttribute faces fec Hnone.
  unfold SetInterfaceToSurfaceDOFMap, SetInterfaceToSurfaceDOFMap_run. cbn zeta.
  assert (Hloop : faceToElemLoop pmesh sdAttribute faces = Ok (∅, [])).
  { unfold faceToElemLoop. apply forM_fixed. intros elId Hel.
    apply list_elem_of_In, elem_of_seqZ in Hel.
    destruct (Z.eqb_spec (GetAttribute pmesh elId) sdAttribute) as [Hattr|]; [|reflexivity].
    apply forM_fixed. intros f Hf.
    rewrite (proj2 (set_mem_false f faces)); [reflexivity|].
    apply (Hnone elId f); [lia|assumption..]. }
  rewrite Hloop. cbn.
  rewrite forM_fixed; [reflexivity|].
  intros [i pmeshFace] _. unfold interfaceFaceStep.
  rewrite lookup_empty. reflexivity.
Qed.

Lemma SetInterfaceToSurfaceDOFMap_skips_faces_without_neighbour_witness :
  SetInterfaceToSurfaceDOFMap (edgeSpace ifMeshX1 4) (edgeSpace sdMesh0 12) pmesh2 3 [2]
    ND_fecbdry = Ok (replicate (Z.to_nat (GetVSize (edgeSpace ifMeshX1 4))) (-1)) /\
  SetInterfaceToSurfaceDOFMap (edgeSpace ifMeshX1 4) (edgeSpace sdMesh0 12) pmesh2 1 []
    ND_fecbdry = Ok (replicate (Z.to_nat (GetVSize (edgeSpace ifMeshX1 4))) (-1)).
Proof.
  split.
  - apply (SetInterfaceToSurfaceDOFMap_skips_faces_without_neighbour
             (edgeSpace ifMeshX1 4) (edgeSpace sdMesh0 12) pmesh2 3 [2] ND_fecbdry).
    intros elId f Hel Hattr. cbn in Hel, Hattr. lia.
  - apply (SetInterfaceToSurfaceDOFMap_skips_faces_without_neighbour
             (edgeSpace ifMeshX1 4) (edgeSpace sdMesh0 12) pmesh2 1 [] ND_fecbdry).
    intros elId f _ _ _ [].
Defined.

(** The first loop: from a state whose map holds [f], an element of the
    subdomain that lists [f] among its faces stops the loop. *)
Lemma faceToElem_inner_keeps (faces : list Z) (elId f : Z) (l : list Z) :
  forall (m m' : gmap Z Z) (s s' : list Z),
    forM
      (fun '(pmeshFaceToElem, pmeshElemsByInterface) f =>
         if set_mem f faces then
           _ ← MFEM_VERIFY (bool_decide (pmeshFaceToElem !! f = None));
           Ok (<[f := elId]> pmeshFaceToElem, set_insert elId pmeshElemsByInterface)
         else Ok (pmeshFaceToElem, pmeshElemsByInterface))
      l (m, s) = Ok (m', s') ->
    (is_Some (m !! f) -> is_Some (m' !! f)) /\
    (In f l -> In f faces -> is_Some (m' !! f) /\ m !! f = None).
Proof.
  induction l as [|g l IH]; intros m m' s s' H; cbn in H.
  - injection H as <- <-. split; [auto|intros []].
  - destruct (set_mem g faces) eqn:Hg.
    + destruct (bool_decide (m !! g = None)) eqn:Hnone; cbn in H; [|discriminate].
      apply bool_decide_eq_true in Hnone.
      apply IH in H as [Hkeep Hadd].
      assert (Hins : is_Some (m !! f) -> is_Some (<[g := elId]> m !! f)).
      { intros Hf. destruct (Z.eq_dec g f) as [->|Hne].
        - rewrite lookup_insert_eq. eauto.
        - rewrite lookup_insert_ne by assumption. exact Hf. }
      split; [auto|].
      intros [->|Hin] Hfaces.
      * split; [|exact Hnone]. apply Hkeep. rewrite lookup_insert_eq. eauto.
      * destruct (Hadd Hin Hfaces) as [Hsome Hnone'].
        split; [exact Hsome|].
        destruct (Z.eq_dec g f) as [->|Hne]; [exact Hnone|].
        rewrite lookup_insert_ne in Hnone' by assumption. exact Hnone'.
    + cbn in H. apply IH in H as [Hkeep Hadd]. split; [exact Hkeep|].
      intros [->|Hin] Hfaces; [|auto].
      apply set_mem_true in Hfaces. congruence.
Qed.

Lemma faceToElem_inner_outcome (faces : list Z) (elId : Z) (l : list Z) :
  forall st : gmap Z Z * list Z,
    forM
      (fun '(pmeshFaceToElem, pmeshElemsByInterface) f =>
         if set_mem f faces then
           _ ← MFEM_VERIFY (bool_decide (pmeshFaceToElem !! f = None));
           Ok (<[f := elId]> pmeshFaceToElem, set_insert elId pmeshElemsByInterface)
         else Ok (pmeshFaceToElem, pmeshElemsByInterface))
      l st = Abort \/
    exists st', forM
      (fun '(pmeshFaceToElem, pmeshElemsByInterface) f =>
         if set_mem f faces then
           _ ← MFEM_VERIFY (bool_decide (pmeshFaceToElem !! f = None));
           Ok (<[f := elId]> pmeshFaceToElem, set_insert elId pmeshElemsByInterface)
         else Ok (pmeshFaceToElem, pmeshElemsByInterface))
      l st = Ok st'.
Proof.
  induction l as [|g l IH]; intros [m s]; cbn; [right; eauto|].
  destruct (set_mem g faces); [|cbn; apply IH].
  destruct (bool_decide (m !! g = None)); cbn; [apply IH|left; reflexivity].
Qed.

Lemma faceToElem_outer_Ok (pmesh : ParMesh) (sdAttribute : Z) (faces : list Z) (f : Z)
    (els : list Z) :
  In f faces ->
  forall st st' : gmap Z Z * list Z,
    forM
      (fun st elId =>
         if GetAttribute pmesh elId =? sdAttribute then
           forM
             (fun '(pmeshFaceToElem, pmeshElemsByInterface) f =>
                if set_mem f faces then
                  _ ← MFEM_VERIFY (bool_decide (pmeshFaceToElem !! f = None));
                  Ok (<[f := elId]> pmeshFaceToElem,
                      set_insert elId pmeshElemsByInterface)
                else Ok (pmeshFaceToElem, pmeshElemsByInterface))
             (GetElementFaces pmesh elId) st
         else Ok st)
      els st = Ok st' ->
    (is_Some (st.1 !! f) -> is_Some (st'.1 !! f)) /\
    ((exists e, In e els /\ GetAttribute pmesh e = sdAttribute /\
                In f (GetElementFaces pmesh e)) ->
     is_Some (st'.1 !! f) /\ st.1 !! f = None).
Proof.
  intros Hfaces. induction els as [|e els IH]; intros st st' H; cbn [forM] in H.
  - injection H as <-. split; [auto|]. intros (e & [] & _).
  - inv_bind H. destruct (IH _ _ H) as [Hkeep' Hadd'].
    destruct (Z.eqb_spec (GetAttribute pmesh e) sdAttribute) as [Hattr|Hattr].
    + destruct st as [m s], a as [m1 s1].
      destruct (faceToElem_inner_keeps faces e f _ _ _ _ _ Hstep) as [Hkeep Hadd].
      cbn [fst] in *. split; [auto|].
      intros (e' & [<-|Hin'] & Hattr' & Hf').
      * destruct (Hadd Hf' Hfaces) as [Hsome Hnone]. auto.
      * destruct (Hadd' (ex_intro _ e' (conj Hin' (conj Hattr' Hf')))) as [Hs Hn].
        split; [exact Hs|].
        destruct (m !! f) eqn:Hm; [|reflexivity].
        assert (Hsome : is_Some (m1 !! f)) by (apply Hkeep; eauto).
        rewrite Hn in Hsome. destruct Hsome as [? [=]].
    + injection Hstep as <-. split; [exact Hkeep'|].
      intros (e' & [<-|Hin'] & Hattr' & Hf'); [contradiction|].
      apply Hadd'. eauto.
Qed.

Lemma faceToElem_outer_outcome (pmesh : ParMesh) (sdAttribute : Z) (faces : list Z)
    (els : list Z) :
  forall st : gmap Z Z * list Z,
    let run :=
      forM
        (fun st elId =>
           if GetAttribute pmesh elId =? sdAttribute then
             forM
               (fun '(pmeshFaceToElem, pmeshElemsByInterface) f =>
                  if set_mem f faces then
                    _ ← MFEM_VERIFY (bool_decide (pmeshFaceToElem !! f = None));
                    Ok (<[f := elId]> pmeshFaceToElem,
                        set_insert elId pmeshElemsByInterface)
                  else Ok (pmeshFaceToElem, pmeshElemsByInterface))
               (GetElementFaces pmesh elId) st
           else Ok st)
        els st in
    run = Abort \/ exists st', run = Ok st'.
Proof.
  induction els as [|e els IH]; intros st; cbn [forM]; [right; eauto|].
  destruct (GetAttribute pmesh e =? sdAttribute).
  - destruct (faceToElem_inner_outcome faces e (GetElementFaces pmesh e) st)
      as [Habort|(st1 & Hok)].
    + left. rewrite Habort. reflexivity.
    + rewrite Hok. cbn. apply IH.
  - cbn. apply IH.
Qed.

(** X6.  A face of the interface that two elements of the subdomain list
    among their faces stops [SetInterfaceToSurfaceDOFMap]: the check that a
    face has one neighbour in the subdomain fails. *)
Theorem SetInterfaceToSurfaceDOFMap_two_neighbours_abort :
  forall (ifespace fespace : ParFiniteElementSpace) (pmesh : ParMesh)
         (sdAttribute : Z) (pmeshFacesInInterface : list Z)
         (fec : FiniteElementCollection) (e1 e2 f : Z),
    0 <= e1 < e2 -> e2 < GetNE pmesh ->
    GetAttribute pmesh e1 = sdAttribute -> GetAttribute pmesh e2 = sdAttribute ->
    In f (GetElementFaces pmesh e1) -> In f (GetElementFaces pmesh e2) ->
    In f pmeshFacesInInterface ->
    SetInterfaceToSurfaceDOFMap ifespace fespace pmesh sdAttribute
      pmeshFacesInInterface fec = Abort.
Proof.
  intros ifespace fespace pmesh sdAttribute faces fec e1 e2 f
    He1 He2 Ha1 Ha2 Hf1 Hf2 Hfaces.
  unfold SetInterfaceToSurfaceDOFMap, SetInterfaceToSurfaceDOFMap_run. cbn zeta.
  assert (Hloop : faceToElemLoop pmesh sdAttribute faces = Abort).
  { unfold faceToElemLoop.
    destruct (faceToElem_outer_outcome pmesh sdAttribute faces (seqZ 0 (GetNE pmesh)) (∅, []))
      as [Habort|(st' & Hok)]; [exact Habort|exfalso].
    replace (GetNE pmesh) with ((e1 + 1) + (GetNE pmesh - (e1 + 1))) in Hok by lia.
    rewrite seqZ_app in Hok by lia. rewrite forM_app in Hok.
    inv_bind Hok.
    destruct (faceToElem_outer_Ok pmesh sdAttribute faces f _ Hfaces _ _ Hstep) as [_ H1].
    destruct (faceToElem_outer_Ok pmesh sdAttribute faces f _ Hfaces _ _ Hok) as [_ H2].
    destruct H1 as [Hsome _].
    { exists e1. split; [|auto]. apply list_elem_of_In, elem_of_seqZ. lia. }
    destruct H2 as [_ Hnone].
    { exists e2. split; [|auto]. apply list_elem_of_In, elem_of_seqZ. lia. }
    rewrite Hnone in Hsome. destruct Hsome as [? [=]]. }
  rewrite Hloop. reflexivity.
Qed.

Lemma SetInterfaceToSurfaceDOFMap_two_neighbours_abort_witness :
  SetInterfaceToSurfaceDOFMap (edgeSpace ifMeshX1 4) (edgeSpace sdMesh0 12)
    pmeshOneAttribute 1 [2] ND_fecbdry = Abort.
Proof.
  apply (SetInterfaceToSurfaceDOFMap_two_neighbours_abort
           (edgeSpace ifMeshX1 4) (edgeSpace sdMesh0 12) pmeshOneAttribute 1 [2]
           ND_fecbdry 0 1 2).
  - lia.
  - cbn. lia.
  - reflexivity.
  - reflexivity.
  - cbn. tauto.
  - cbn. tauto.
  - cbn. tauto.
Defined.
Lemma scanElementFaces_last (sdMesh ifMesh : ParMesh) (i : Z) (elFaces : list Z) :
  forall init : Z,
    fold_left
      (fun sdMeshFace f =>
         if FacesCoincideGeometrically sdMesh f ifMesh i then f else sdMeshFace)
      elFaces init
    = default init
        (last (filter (fun f => FacesCoincideGeometrically sdMesh f ifMesh i = true)
                 elFaces)).
Proof.
  induction elFaces as [|f l IH]; intros init; cbn [fold_left]; [reflexivity|].
  rewrite IH, filter_cons.
  destruct (FacesCoincideGeometrically sdMesh f ifMesh i) eqn:Hf.
  - rewrite decide_True by reflexivity.
    destruct (filter _ l) as [|g l'] eqn:Hl; [reflexivity|].
    change (last (f :: g :: l')) with (last (g :: l')).
    destruct (last (g :: l')) eqn:Hlast; [reflexivity|].
    apply last_None in Hlast. discriminate.
  - rewrite decide_False by discriminate. reflexivity.
Qed.

(** X7.  Of the faces of the subdomain element, [SetInterfaceToSurfaceDOFMap]
    takes the last one, in the order the mesh lists them, that
    [FacesCoincideGeometrically] accepts; the search fails when there is
    none, or when that face has a negative index.  A face that is found is
    one of the element and coincides with the interface face. *)
Theorem findSdMeshFace_selects_last_coinciding_face :
  forall (sdMesh ifMesh : ParMesh) (i sdMeshElem : Z),
    findSdMeshFace sdMesh ifMesh i sdMeshElem
    = match last (filter (fun f => FacesCoincideGeometrically sdMesh f ifMesh i = true)
                    (GetElementFaces sdMesh sdMeshElem)) with
      | Some f => if f >=? 0 then Ok f else Abort
      | None => Abort
      end /\
    forall f, findSdMeshFace sdMesh ifMesh i sdMeshElem = Ok f ->
      0 <= f /\ In f (GetElementFaces sdMesh sdMeshElem) /\
      FacesCoincideGeometrically sdMesh f ifMesh i = true.
Proof.
  intros sdMesh ifMesh i sdMeshElem.
  assert (Heq : findSdMeshFace sdMesh ifMesh i sdMeshElem
    = match last (filter (fun f => FacesCoincideGeometrically sdMesh f ifMesh i = true)
                    (GetElementFaces sdMesh sdMeshElem)) with
      | Some f => if f >=? 0 then Ok f else Abort
      | None => Abort
      end).
  { unfold findSdMeshFace, scanElementFaces. cbn zeta. rewrite scanElementFaces_last.
    destruct (last _) as [f|]; cbn; [|reflexivity].
    destruct (f >=? 0); reflexivity. }
  split; [exact Heq|].
  intros f Hf. rewrite Heq in Hf.
  destruct (last _) as [g|] eqn:Hlast; [|discriminate].
  destruct (Z.geb_spec g 0) as [Hge|]; [|discriminate]. injection Hf as ->.
  apply last_Some in Hlast as (l' & Hl').
  assert (Hin : f ∈ filter (fun f => FacesCoincideGeometrically sdMesh f ifMesh i = true)
                  (GetElementFaces sdMesh sdMeshElem)).
  { rewrite Hl'. apply elem_of_app. right. apply list_elem_of_singleton. reflexivity. }
  apply list_elem_of_filter in Hin as [Hc Hin].
  split; [lia|]. split; [apply list_elem_of_In; exact Hin|exact Hc].
Qed.

(** ** The injection operators: bounds *)

Lemma vecGet_outcome {A : Type} (v : list A) (i : Z) :
  (exists a, vecGet v i = Ok a) \/ vecGet v i = OutOfBounds.
Proof.
  unfold vecGet. destruct (0 <=? i); [|right; reflexivity].
  destruct (v !! Z.to_nat i); [left; eauto|right; reflexivity].
Qed.

Lemma vecSet_outcome {A : Type} (v : list A) (i : Z) (a : A) :
  (exists v', vecSet v i a = Ok v') \/ vecSet v i a = OutOfBounds.
Proof.
  unfold vecSet. destruct (_ && _); [left; eauto|right; reflexivity].
Qed.

Lemma forM_Ok_or_OutOfBounds {A St : Type} (body : St -> A -> Res St) (l : list A) :
  (forall s a, (exists s', body s a = Ok s') \/ body s a = OutOfBounds) ->
  forall s, (exists s', forM body l s = Ok s') \/ forM body l s = OutOfBounds.
Proof.
  intros Hbody. induction l as [|a l IH]; intros s; cbn; [left; eauto|].
  destruct (Hbody s a) as [(s' & ->)| ->]; cbn; [apply IH|right; reflexivity].
Qed.
Section InjectionBounds.
Context {R : Type} {sc : Scalar R}.

(** The loop of [InjectionOperator::Mult] reads the table by index; over a
    table of [fullWidth] entries it is the scatter along the table. *)
Lemma injection_scatter_loop (g : Vector R) (ids : list Z) :
  forall (pre : list Z) (y0 : Vector R),
    forM (fun y i => id_i ← vecGet (pre ++ ids) i; g_i ← vecGet g i; vecSet y id_i g_i)
      (seqZ (Z.of_nat (length pre)) (Z.of_nat (length ids))) y0
    = forM (fun y '(i, it) => xi ← vecGet g i; vecSet y it xi)
        (zip (seqZ (Z.of_nat (length pre)) (Z.of_nat (length ids))) ids) y0.
Proof.
  induction ids as [|it ids IH]; intros pre y0; [reflexivity|].
  change (length (it :: ids)) with (S (length ids)).
  rewrite seqZ_S. cbn [zip zip_with forM].
  assert (Hget : vecGet (pre ++ it :: ids) (Z.of_nat (length pre)) = Ok it).
  { apply vecGet_Ok. split; [lia|]. rewrite Nat2Z.id.
    rewrite lookup_app_r by lia. now rewrite Nat.sub_diag. }
  rewrite Hget. cbn.
  destruct (vecGet g (Z.of_nat (length pre))) as [gi| | |]; cbn; try reflexivity.
  destruct (vecSet y0 it gi) as [y1| | |]; cbn; try reflexivity.
  specialize (IH (pre ++ [it]) y1).
  rewrite <- app_assoc in IH. cbn [app] in IH.
  rewrite length_app in IH. cbn [length] in IH.
  replace (Z.of_nat (length pre + 1)) with (Z.of_nat (length pre) + 1) in IH by lia.
  exact IH.
Qed.

(** The loop of [InjectionOperator::MultTranspose] is the gather along the
    table. *)
Lemma injection_gather_loop (x : Vector R) (ids : list Z) :
  forall (pre : list Z) (g0 : Vector R),
    forM (fun g i => id_i ← vecGet (pre ++ ids) i; x_i ← vecGet x id_i; vecSet g i x_i)
      (seqZ (Z.of_nat (length pre)) (Z.of_nat (length ids))) g0
    = forM (fun y '(i, it) => xit ← vecGet x it; vecSet y i xit)
        (zip (seqZ (Z.of_nat (length pre)) (Z.of_nat (length ids))) ids) g0.
Proof.
  induction ids as [|it ids IH]; intros pre g0; [reflexivity|].
  change (length (it :: ids)) with (S (length ids)).
  rewrite seqZ_S. cbn [zip zip_with forM].
  assert (Hget : vecGet (pre ++ it :: ids) (Z.of_nat (length pre)) = Ok it).
  { apply vecGet_Ok. split; [lia|]. rewrite Nat2Z.id.
    rewrite lookup_app_r by lia. now rewrite Nat.sub_diag. }
  rewrite Hget. cbn.
  destruct (vecGet x it) as [xi| | |]; cbn; try reflexivity.
  destruct (vecSet g0 (Z.of_nat (length pre)) xi) as [g1| | |]; cbn; try reflexivity.
  specialize (IH (pre ++ [it]) g1).
  rewrite <- app_assoc in IH. cbn [app] in IH.
  rewrite length_app in IH. cbn [length] in IH.
  replace (Z.of_nat (length pre + 1)) with (Z.of_nat (length pre) + 1) in IH by lia.
  exact IH.
Qed.

Lemma InjectionOperator_Mult_outcome (height fullWidth : Z) (id : list Z)
    (gf : ParGridFunction R) (x : Vector R) :
  (exists y, InjectionOperator_Mult height fullWidth id gf x = Ok y) \/
  InjectionOperator_Mult height fullWidth id gf x = OutOfBounds.
Proof.
  unfold InjectionOperator_Mult. cbn zeta. apply forM_Ok_or_OutOfBounds.
  intros y i.
  destruct (vecGet_outcome id i) as [(id_i & ->)| ->]; cbn; [|right; reflexivity].
  destruct (vecGet_outcome (SetFromTrueDofs gf x) i) as [(g_i & ->)| ->]; cbn;
    [|right; reflexivity].
  apply vecSet_outcome.
Qed.

Lemma InjectionOperator_MultTranspose_outcome (fullWidth : Z) (id : list Z)
    (gf : ParGridFunction R) (x : Vector R) :
  (exists y, InjectionOperator_MultTranspose fullWidth id gf x = Ok y) \/
  InjectionOperator_MultTranspose fullWidth id gf x = OutOfBounds.
Proof.
  unfold InjectionOperator_MultTranspose.
  destruct (forM_Ok_or_OutOfBounds
              (fun g i => id_i ← vecGet id i; x_i ← vecGet x id_i; vecSet g i x_i)
              (seqZ 0 fullWidth)) with (s := zeros (R := R) fullWidth)
    as [(g & ->)| ->]; cbn; [|left; eauto|right; reflexivity].
  intros g i.
  destruct (vecGet_outcome id i) as [(id_i & ->)| ->]; cbn; [|right; reflexivity].
  destruct (vecGet_outcome x id_i) as [(x_i & ->)| ->]; cbn; [|right; reflexivity].
  apply vecSet_outcome.
Qed.

Lemma InjectionOperator_Mult_Ok_iff (height fullWidth : Z) (id : list Z)
    (gf : ParGridFunction R) (x : Vector R) :
  (exists y, InjectionOperator_Mult height fullWidth id gf x = Ok y) <->
  (forall i, 0 <= i < fullWidth ->
     exists id_i, id !! Z.to_nat i = Some id_i /\ 0 <= id_i < height /\
                  i < Z.of_nat (length (SetFromTrueDofs gf x))).
Proof.
  unfold InjectionOperator_Mult. cbn zeta. split.
  - intros (y & Hy) i Hi.
    pose (P := fun (k : nat) (y : Vector R) =>
      length y = Z.to_nat height /\
      forall j : nat, (j < k)%nat ->
        exists id_i, id !! j = Some id_i /\ 0 <= id_i < height /\
                     (j < length (SetFromTrueDofs gf x))%nat).
    assert (HP : P (length (seqZ 0 fullWidth)) y).
    { revert Hy. apply (forM_indexed P).
      - intros k a s s' Ha [Hlen Hprev] Hbody.
        apply seqZ_lookup_nat in Ha as [-> Hk].
        split_bind Hbody as id_i Hid. split_bind Hbody as g_i Hg.
        apply vecGet_Ok in Hid as [_ Hid]. apply vecGet_Ok in Hg as [_ Hg].
        apply vecSet_Ok in Hbody as [Hr ->]. rewrite Nat2Z.id in Hid, Hg.
        split; [rewrite length_insert; exact Hlen|].
        intros j Hj. destruct (Nat.eq_dec j k) as [->|Hne]; [|apply Hprev; lia].
        exists id_i. split; [exact Hid|]. split; [lia|].
        apply lookup_lt_Some in Hg. exact Hg.
      - split; [apply length_zeros|]. intros j Hj. lia. }
    destruct HP as [_ HP]. rewrite length_seqZ in HP.
    destruct (HP (Z.to_nat i)) as (id_i & Hid & Hr & Hg); [lia|].
    exists id_i. split; [exact Hid|]. split; [exact Hr|]. lia.
  - intros Hall.
    destruct (forM_progress (fun (_ : nat) (y : Vector R) => length y = Z.to_nat height)
                (fun y i => id_i ← vecGet id i;
                            g_i ← vecGet (SetFromTrueDofs gf x) i; vecSet y id_i g_i)
                (seqZ 0 fullWidth)) with (s := zeros (R := R) height) as (y & Hy & _).
    + intros k a s Ha Hlen. apply seqZ_lookup_nat in Ha as [-> Hk].
      destruct (Hall (Z.of_nat k)) as (id_i & Hid & Hr & Hg); [lia|].
      rewrite Nat2Z.id in Hid.
      rewrite (proj2 (vecGet_Ok id (Z.of_nat k) id_i)) by (rewrite Nat2Z.id; split; [lia|auto]).
      cbn.
      destruct (vecGet_in_range (SetFromTrueDofs gf x) (Z.of_nat k)) as (g_i & -> & _);
        [lia|]. cbn.
      rewrite vecSet_in_range by lia. eexists. split; [reflexivity|].
      rewrite length_insert. exact Hlen.
    + apply length_zeros.
    + eauto.
Qed.

Lemma InjectionOperator_MultTranspose_Ok_iff (fullWidth : Z) (id : list Z)
    (gf : ParGridFunction R) (x : Vector R) :
  (exists y, InjectionOperator_MultTranspose fullWidth id gf x = Ok y) <->
  (forall i, 0 <= i < fullWidth ->
     exists id_i, id !! Z.to_nat i = Some id_i /\ 0 <= id_i < Z.of_nat (length x)).
Proof.
  unfold InjectionOperator_MultTranspose. split.
  - intros (y & Hy) i Hi. split_bind Hy as g Hg. clear Hy.
    pose (P := fun (k : nat) (g : Vector R) =>
      length g = Z.to_nat fullWidth /\
      forall j : nat, (j < k)%nat ->
        exists id_i, id !! j = Some id_i /\ 0 <= id_i < Z.of_nat (length x)).
    assert (HP : P (length (seqZ 0 fullWidth)) g).
    { revert Hg. apply (forM_indexed P).
      - intros k a s s' Ha [Hlen Hprev] Hbody.
        apply seqZ_lookup_nat in Ha as [-> Hk].
        split_bind Hbody as id_i Hid. split_bind Hbody as x_i Hx.
        apply vecGet_Ok in Hid as [_ Hid]. apply vecGet_Ok in Hx as [Hx0 Hx].
        apply vecSet_Ok in Hbody as [Hr ->]. rewrite Nat2Z.id in Hid.
        split; [rewrite length_insert; exact Hlen|].
        intros j Hj. destruct (Nat.eq_dec j k) as [->|Hne]; [|apply Hprev; lia].
        exists id_i. split; [exact Hid|]. apply lookup_lt_Some in Hx. lia.
      - split; [apply length_zeros|]. intros j Hj. lia. }
    destruct HP as [_ HP]. rewrite length_seqZ in HP.
    destruct (HP (Z.to_nat i)) as (id_i & Hid & Hr); [lia|]. eauto.
  - intros Hall.
    destruct (forM_progress (fun (_ : nat) (g : Vector R) => length g = Z.to_nat fullWidth)
                (fun g i => id_i ← vecGet id i; x_i ← vecGet x id_i; vecSet g i x_i)
                (seqZ 0 fullWidth)) with (s := zeros (R := R) fullWidth) as (g & Hg & _).
    + intros k a s Ha Hlen. apply seqZ_lookup_nat in Ha as [-> Hk].
      destruct (Hall (Z.of_nat k)) as (id_i & Hid & Hr); [lia|].
      rewrite Nat2Z.id in Hid.
      rewrite (proj2 (vecGet_Ok id (Z.of_nat k) id_i)) by (rewrite Nat2Z.id; split; [lia|auto]).
      cbn.
      destruct (vecGet_in_range x id_i) as (x_i & -> & _); [lia|]. cbn.
      rewrite vecSet_in_range by lia. eexists. split; [reflexivity|].
      rewrite length_insert. exact Hlen.
    + apply length_zeros.
    + rewrite Hg. cbn. eauto.
Qed.

End InjectionBounds.

(** X8.  [InjectionOperator::Mult] and [MultTranspose] index their vectors
    with the entries of the table unchecked.  [Mult] succeeds exactly when
    each of the first [fullWidth] entries of the table is an index of the
    output, in [[0, height)], and the grid function has [fullWidth]
    entries; [MultTranspose] exactly when each is an index of its input.
    Any other table, one with a sentinel among them, takes the access out
    of bounds. *)
Theorem InjectionOperator_in_bounds_iff :
  forall (R : Type) (sc : Scalar R) (height fullWidth : Z) (id : list Z)
         (gf : ParGridFunction R) (x : Vector R),
    ((exists y, InjectionOperator_Mult height fullWidth id gf x = Ok y) <->
     (forall i, 0 <= i < fullWidth ->
        exists id_i, id !! Z.to_nat i = Some id_i /\ 0 <= id_i < height /\
                     i < Z.of_nat (length (SetFromTrueDofs gf x)))) /\
    ((exists y, InjectionOperator_Mult height fullWidth id gf x = Ok y) \/
     InjectionOperator_Mult height fullWidth id gf x = OutOfBounds) /\
    ((exists y, InjectionOperator_MultTranspose fullWidth id gf x = Ok y) <->
     (forall i, 0 <= i < fullWidth ->
        exists id_i, id !! Z.to_nat i = Some id_i /\ 0 <= id_i < Z.of_nat (length x))) /\
    ((exists y, InjectionOperator_MultTranspose fullWidth id gf x = Ok y) \/
     InjectionOperator_MultTranspose fullWidth id gf x = OutOfBounds).
Proof.
  intros R sc height fullWidth id gf x.
  split; [apply InjectionOperator_Mult_Ok_iff|].
  split; [apply InjectionOperator_Mult_outcome|].
  split; [apply InjectionOperator_MultTranspose_Ok_iff|].
  apply InjectionOperator_MultTranspose_outcome.
Qed.
(** X9.  Over a table of [fullWidth] distinct indices of the output,
    [InjectionOperator::Mult] writes entry [j] of the grid function at
    position [id[j]] and leaves zero elsewhere, and [MultTranspose] of the
    result reads the grid function back: the round trip is
    [GetTrueDofs] after [SetFromTrueDofs]. *)
Theorem InjectionOperator_roundtrip :
  forall (R : Type) (sc : Scalar R) (height : Z) (interfaceSpace : ParFiniteElementSpace)
         (gf : ParGridFunction R) (id : list Z) (x : Vector R),
    Z.of_nat (length id) = GetVSize interfaceSpace ->
    GetTrueVSize interfaceSpace <= height ->
    NoDup id ->
    (forall it, In it id -> 0 <= it < height) ->
    length (SetFromTrueDofs gf x) = length id ->
    exists (op : Operator R) (y : Vector R),
      new_InjectionOperator height interfaceSpace gf id = Ok op /\
      Mult op x = Ok y /\
      length y = Z.to_nat height /\
      (forall p : nat, ~ In (Z.of_nat p) id -> (p < Z.to_nat height)%nat ->
         y !! p = Some rzero) /\
      (forall (j : nat) (it : Z), id !! j = Some it ->
         y !! Z.to_nat it = SetFromTrueDofs gf x !! j) /\
      MultTranspose op y = Ok (GetTrueDofs gf (SetFromTrueDofs gf x)).
Proof.
  intros R sc height ispace gf id x Hfull Hhw Hnd Hrange Hg.
  unfold new_InjectionOperator. cbn zeta.
  rewrite (proj2 (Z.geb_le _ _) Hhw). cbn.
  destruct (scatter_loop (SetFromTrueDofs gf x) id 0 (zeros height))
    as (y & Hy & Hlen & Hzero & Hval).
  { lia. }
  { intros it Hit. rewrite length_zeros. specialize (Hrange it Hit). lia. }
  { lia. }
  rewrite length_zeros in Hlen.
  assert (HMult : InjectionOperator_Mult height (GetVSize ispace) id gf x = Ok y).
  { unfold InjectionOperator_Mult. cbn zeta. rewrite <- Hfull.
    rewrite <- Hy. exact (injection_scatter_loop (SetFromTrueDofs gf x) id [] (zeros height)). }
  destruct (gather_loop y id 0 (zeros (GetVSize ispace)))
    as (g' & Hg' & Hlen' & _ & Hval').
  { lia. }
  { rewrite length_zeros. lia. }
  { intros it Hit. specialize (Hrange it Hit). lia. }
  rewrite length_zeros in Hlen'.
  assert (Hgg : g' = SetFromTrueDofs gf x).
  { apply list_eq. intros j.
    destruct (id !! j) as [it|] eqn:Hj.
    - pose proof (Hval Hnd j it Hj) as E1. pose proof (Hval' j it Hj) as E2.
      change (Z.to_nat 0 + j)%nat with j in E1, E2. congruence.
    - apply lookup_ge_None in Hj.
      rewrite (proj2 (lookup_ge_None g' j)) by lia.
      rewrite (proj2 (lookup_ge_None (SetFromTrueDofs gf x) j)) by lia. reflexivity. }
  eexists. exists y. split; [reflexivity|]. cbn [Mult MultTranspose].
  split; [exact HMult|]. split; [exact Hlen|]. split.
  - intros p Hp Hph. rewrite (Hzero p Hp). apply lookup_replicate. split; [reflexivity|lia].
  - split; [intros j it Hj; exact (Hval Hnd j it Hj)|].
    unfold InjectionOperator_MultTranspose.
    pose proof (injection_gather_loop y id [] (zeros (GetVSize ispace))) as E.
    cbn [length app] in E. change (Z.of_nat 0) with 0 in E.
    rewrite Hg', Hfull in E. rewrite E. cbn. rewrite Hgg. reflexivity.
Qed.

Lemma InjectionOperator_roundtrip_witness :
  exists (op : Operator Z) (y : Vector Z),
    new_InjectionOperator 12 (edgeSpace ifMeshX1 4) serialGridFunction [3; 11; 7; 8]
      = Ok op /\
    Mult op [7; 8; 9; 10] = Ok y /\
    length y = Z.to_nat 12 /\
    (forall p : nat, ~ In (Z.of_nat p) [3; 11; 7; 8] -> (p < Z.to_nat 12)%nat ->
       y !! p = Some rzero) /\
    (forall (j : nat) (it : Z), [3; 11; 7; 8] !! j = Some it ->
       y !! Z.to_nat it = SetFromTrueDofs serialGridFunction [7; 8; 9; 10] !! j) /\
    MultTranspose op y
      = Ok (GetTrueDofs serialGridFunction
              (SetFromTrueDofs serialGridFunction [7; 8; 9; 10])).
Proof.
  apply (InjectionOperator_roundtrip Z _ 12 (edgeSpace ifMeshX1 4) serialGridFunction
           [3; 11; 7; 8] [7; 8; 9; 10]).
  - reflexivity.
  - cbn. lia.
  - repeat constructor; cbn; rewrite ?list_elem_of_In; cbn; intuition lia.
  - intros it Hit. cbn in Hit. intuition lia.
  - reflexivity.
Defined.

Section SetInjectionBounds.
Context {R : Type} {sc : Scalar R}.

Lemma SetInjectionOperator_Mult_outcome (height : Z) (id : list Z) (x : Vector R) :
  (exists y, SetInjectionOperator_Mult height id x = Ok y) \/
  SetInjectionOperator_Mult height id x = OutOfBounds.
Proof.
  unfold SetInjectionOperator_Mult. apply forM_Ok_or_OutOfBounds.
  intros y [i it].
  destruct (vecGet_outcome x i) as [(x_i & ->)| ->]; cbn; [|right; reflexivity].
  apply vecSet_outcome.
Qed.

Lemma SetInjectionOperator_Mult_Ok_iff (height : Z) (id : list Z) (x : Vector R) :
  (exists y, SetInjectionOperator_Mult height id x = Ok y) <->
  (length id <= length x)%nat /\ forall it, In it id -> 0 <= it < height.
Proof.
  unfold SetInjectionOperator_Mult. split.
  - intros (y & Hy).
    pose (P := fun (k : nat) (y : Vector R) =>
      length y = Z.to_nat height /\ (k <= length x)%nat /\
      forall (j : nat) it, (j < k)%nat -> id !! j = Some it -> 0 <= it < height).
    assert (HP : P (length (zip (seqZ 0 (Z.of_nat (length id))) id)) y).
    { revert Hy. apply (forM_indexed P).
      - intros k [i it] s s' Ha (Hlen & Hk & Hprev) Hbody.
        apply lookup_zip_with_Some in Ha as (i' & it' & [= <- <-] & Hi & Hit).
        apply seqZ_lookup_nat in Hi as [-> _].
        split_bind Hbody as x_i Hx. apply vecGet_Ok in Hx as [_ Hx].
        rewrite Nat2Z.id in Hx. apply lookup_lt_Some in Hx.
        apply vecSet_Ok in Hbody as [Hr ->].
        split; [rewrite length_insert; exact Hlen|]. split; [lia|].
        intros j it0 Hj Hj0. destruct (Nat.eq_dec j k) as [->|Hne].
        + rewrite Hit in Hj0. injection Hj0 as <-. lia.
        + apply (Hprev j); [lia|assumption].
      - split; [apply length_zeros|]. split; [lia|]. intros j it Hj. lia. }
    rewrite length_zip_with, length_seqZ, Nat2Z.id, Nat.min_id in HP.
    destruct HP as (_ & Hk & Hall). split; [exact Hk|].
    intros it Hit. apply list_elem_of_In, list_elem_of_lookup in Hit as (j & Hj).
    apply (Hall j); [|exact Hj]. apply lookup_lt_Some in Hj. exact Hj.
  - intros [Hlen Hall].
    destruct (scatter_loop x id 0 (zeros height)) as (y & Hy & _).
    + lia.
    + intros it Hit. rewrite length_zeros. specialize (Hall it Hit). lia.
    + lia.
    + eauto.
Qed.

Lemma SetInjectionOperator_MultTranspose_outcome (width : Z) (id : list Z) (x : Vector R) :
  (exists y, SetInjectionOperator_MultTranspose width id x = Ok y) \/
  SetInjectionOperator_MultTranspose width id x = OutOfBounds.
Proof.
  unfold SetInjectionOperator_MultTranspose. apply forM_Ok_or_OutOfBounds.
  intros y [i it].
  destruct (vecGet_outcome x it) as [(x_i & ->)| ->]; cbn; [|right; reflexivity].
  apply vecSet_outcome.
Qed.

Lemma SetInjectionOperator_MultTranspose_Ok_iff (id : list Z) (x : Vector R) :
  (exists y, SetInjectionOperator_MultTranspose (Z.of_nat (length id)) id x = Ok y) <->
  forall it, In it id -> 0 <= it < Z.of_nat (length x).
Proof.
  unfold SetInjectionOperator_MultTranspose. split.
  - intros (y & Hy).
    pose (P := fun (k : nat) (y : Vector R) =>
      forall (j : nat) it, (j < k)%nat -> id !! j = Some it ->
        0 <= it < Z.of_nat (length x)).
    assert (HP : P (length (zip (seqZ 0 (Z.of_nat (length id))) id)) y).
    { revert Hy. apply (forM_indexed P).
      - intros k [i it] s s' Ha Hprev Hbody.
        apply lookup_zip_with_Some in Ha as (i' & it' & [= <- <-] & Hi & Hit).
        split_bind Hbody as x_i Hx. apply vecGet_Ok in Hx as [Hx0 Hx].
        apply lookup_lt_Some in Hx.
        intros j it0 Hj Hj0. destruct (Nat.eq_dec j k) as [->|Hne].
        + rewrite Hit in Hj0. injection Hj0 as <-. lia.
        + apply (Hprev j); [lia|assumption].
      - intros j it Hj. lia. }
    rewrite length_zip_with, length_seqZ, Nat2Z.id, Nat.min_id in HP.
    intros it Hit. apply list_elem_of_In, list_elem_of_lookup in Hit as (j & Hj).
    apply (HP j); [|exact Hj]. apply lookup_lt_Some in Hj. exact Hj.
  - intros Hall.
    destruct (SetInjectionOperator_MultTranspose_lookup id x Hall) as (y & Hy & _).
    unfold SetInjectionOperator_MultTranspose in Hy. eauto.
Qed.

End SetInjectionBounds.

(** X10.  The check [height >= width] of the constructor of
    [SetInjectionOperator] bounds the number of indices, not the indices:
    [Mult] of the operator succeeds exactly when the input has an entry for
    each index of the set and every index of the set is in [[0, height)],
    [MultTranspose] exactly when every index is an index of its input; in
    every other case an access is out of bounds. *)
Theorem SetInjectionOperator_in_bounds_iff :
  forall (R : Type) (sc : Scalar R) (height : Z) (a : list Z) (op : Operator R)
         (x : Vector R),
    new_SetInjectionOperator height a = Ok op ->
    ((exists y, Mult op x = Ok y) <->
     (length a <= length x)%nat /\ forall it, In it a -> 0 <= it < height) /\
    ((exists y, Mult op x = Ok y) \/ Mult op x = OutOfBounds) /\
    ((exists y, MultTranspose op x = Ok y) <->
     forall it, In it a -> 0 <= it < Z.of_nat (length x)) /\
    ((exists y, MultTranspose op x = Ok y) \/ MultTranspose op x = OutOfBounds).
Proof.
  intros R sc height a op x H. unfold new_SetInjectionOperator in H.
  split_bind H as u Hu. injection H as <-. cbn [Mult MultTranspose].
  split; [apply SetInjectionOperator_Mult_Ok_iff|].
  split; [apply SetInjectionOperator_Mult_outcome|].
  split; [apply SetInjectionOperator_MultTranspose_Ok_iff|].
  apply SetInjectionOperator_MultTranspose_outcome.
Qed.

Lemma SetInjectionOperator_in_bounds_iff_witness :
  match new_SetInjectionOperator (R := Z) 2 [1; 5] with
  | Ok op =>
      Mult op [7; 8] = OutOfBounds /\
      ~ (forall it, In it [1; 5] -> 0 <= it < 2)
  | _ => False
  end.
Proof.
  destruct (new_SetInjectionOperator (R := Z) 2 [1; 5]) as [op| | |] eqn:E;
    try (vm_compute in E; discriminate).
  pose proof (SetInjectionOperator_in_bounds_iff Z _ 2 [1; 5] op [7; 8] E)
    as (Hiff & Hout & _).
  assert (Hbad : ~ (forall it, In it [1; 5] -> 0 <= it < 2)).
  { intros Hall. specialize (Hall 5). cbn in Hall. lia. }
  split; [|exact Hbad].
  destruct Hout as [Hok|Hoob]; [|exact Hoob].
  exfalso. apply Hbad. apply Hiff. exact Hok.
Defined.
(** X11.  [Mult] after [MultTranspose] of a [SetInjectionOperator] keeps the
    entries of a vector at the indices of the set and puts zero at every
    other index. *)
Theorem SetInjectionOperator_Mult_MultTranspose_projects :
  forall (R : Type) (sc : Scalar R) (height : Z) (a : list Z) (op : Operator R)
         (y : Vector R),
    new_SetInjectionOperator height a = Ok op ->
    NoDup a ->
    (forall it, In it a -> 0 <= it < height) ->
    length y = Z.to_nat height ->
    exists (x y' : Vector R),
      MultTranspose op y = Ok x /\ Mult op x = Ok y' /\
      length y' = length y /\
      forall p : nat, (p < length y)%nat ->
        (In (Z.of_nat p) a -> y' !! p = y !! p) /\
        (~ In (Z.of_nat p) a -> y' !! p = Some rzero).
Proof.
  intros R sc height a op y H Hnd Hrange Hy. unfold new_SetInjectionOperator in H.
  split_bind H as u Hu. injection H as <-. cbn [Mult MultTranspose].
  destruct (SetInjectionOperator_MultTranspose_lookup a y) as (x & Hx & Hlx & Hxv).
  { intros it Hit. specialize (Hrange it Hit). lia. }
  destruct (SetInjectionOperator_Mult_lookup height a x Hrange Hlx)
    as (y' & Hy' & Hly' & Hzero & Hval).
  exists x, y'. split; [exact Hx|]. split; [exact Hy'|]. split; [congruence|].
  intros p Hp. split.
  - intros Hin. apply list_elem_of_In, list_elem_of_lookup in Hin as (j & Hj).
    pose proof (Hval Hnd j _ Hj) as E1. pose proof (Hxv j _ Hj) as E2.
    rewrite Nat2Z.id in E1, E2. congruence.
  - intros Hnin. apply Hzero; [exact Hnin|lia].
Qed.

Lemma SetInjectionOperator_Mult_MultTranspose_projects_witness :
  match new_SetInjectionOperator (R := Z) 5 [1; 3; 4] with
  | Ok op =>
      exists x y' : Vector Z,
        MultTranspose op [10; 11; 12; 13; 14] = Ok x /\ Mult op x = Ok y' /\
        length y' = length [10; 11; 12; 13; 14] /\
        forall p : nat, (p < length [10; 11; 12; 13; 14])%nat ->
          (In (Z.of_nat p) [1; 3; 4] -> y' !! p = [10; 11; 12; 13; 14] !! p) /\
          (~ In (Z.of_nat p) [1; 3; 4] -> y' !! p = Some rzero)
  | _ => False
  end.
Proof.
  destruct (new_SetInjectionOperator (R := Z) 5 [1; 3; 4]) as [op| | |] eqn:E;
    try (vm_compute in E; discriminate).
  apply (SetInjectionOperator_Mult_MultTranspose_projects Z _ 5 [1; 3; 4] op
           [10; 11; 12; 13; 14] E).
  - repeat constructor; cbn; rewrite ?list_elem_of_In; cbn; intuition lia.
  - intros it Hit. cbn in Hit. intuition lia.
  - reflexivity.
Defined.

(** ** The bookkeeping of the constructor *)

Lemma push_back_at_Ok (v v' : list (list Z)) (sd i : Z) :
  push_back_at v sd i = Ok v' ->
  0 <= sd < Z.of_nat (length v) /\
  length v' = length v /\
  forall (m : nat) (lst' : list Z), v' !! m = Some lst' ->
    exists lst, v !! m = Some lst /\
      forall x, In x lst' <-> In x lst \/ (x = i /\ Z.of_nat m = sd).
Proof.
  unfold push_back_at. intros H. split_bind H as l Hl.
  apply vecGet_Ok in Hl as [Hsd Hl]. apply vecSet_Ok in H as [Hr Hv]. subst v'.
  split; [exact Hr|]. split; [apply length_insert|].
  intros m lst' Hm. destruct (Nat.eq_dec m (Z.to_nat sd)) as [Heq|Hne].
  - subst m. rewrite list_lookup_insert_eq in Hm by lia. injection Hm as Hm. subst lst'.
    exists l. split; [exact Hl|]. intros x. rewrite in_app_iff. cbn. split.
    + intros [Hx|[Hx|[]]]; [left; exact Hx|right]. split; [auto|lia].
    + intros [Hx|[Hx _]]; [left; exact Hx|right; left; auto].
  - rewrite list_lookup_insert_ne in Hm by lia. exists lst'. split; [exact Hm|].
    intros x. split; [auto|]. intros [Hx|[_ E]]; [exact Hx|lia].
Qed.

Lemma forM_steps_Ok {A St : Type} (body : St -> A -> Res St) (l : list A) :
  forall s s', forM body l s = Ok s' ->
  forall (k : nat) a, l !! k = Some a -> exists s1 s2, body s1 a = Ok s2.
Proof.
  induction l as [|x l IH]; intros s s' H k a Hk; [discriminate|].
  cbn in H. split_bind H as s1 Hs1. destruct k as [|k].
  - injection Hk as <-. eauto.
  - exact (IH _ _ H k a Hk).
Qed.

Section InterfaceLoop.
Context {R : Type} {sc : Scalar R} (lib : Library R) (args : DDMArgs).

Lemma interfaceLoop_inv (im : InterfaceMembers R) :
  interfaceLoop lib args = Ok im ->
  interfaceLoopInv lib args (Z.to_nat (numInterfaces args)) im.
Proof.
  intros H. unfold interfaceLoop in H.
  apply (forM_indexed (interfaceLoopInv lib args)) in H.
  - rewrite length_seqZ in H. exact H.
  - intros k a st st' Hk Hinv Hbody. apply seqZ_lookup_nat in Hk as [-> Hk].
    destruct Hinv as ((HlenO & HO) & (HlenG & HG1 & HG2) & (HlenS & HS)).
    split_bind Hbody as pm Hpm. split_bind Hbody as ifli Hifli.
    split_bind Hbody as u Hver.
    apply vecGet_Ok in Hpm as [_ Hpm]. apply vecGet_Ok in Hifli as [_ Hifli].
    rewrite Nat2Z.id in Hpm, Hifli.
    apply MFEM_VERIFY_Ok in Hver. apply eqb_prop in Hver.
    assert (HOk : forall objs' : list (option (InterfaceObjects R)),
              objs' = interfaceObjects st ++ [CreateInterfaceMatrices lib <$> pm] ->
              (0 <= ifli ->
                 exists li, localInterfaces args !! Z.to_nat ifli = Some li /\
                   0 <= FirstSubdomain li < numSubdomains args /\
                   0 <= SecondSubdomain li < numSubdomains args) ->
              length objs' = S k /\
              forall j : nat, (j < S k)%nat ->
                exists pm l,
                  pmeshIF args !! j = Some pm /\ interfaceLocalIndex args !! j = Some l /\
                  objs' !! j = Some (CreateInterfaceMatrices lib <$> pm) /\
                  (0 <= l <-> is_Some pm) /\
                  (0 <= l -> exists li, localInterfaces args !! Z.to_nat l = Some li /\
                               0 <= FirstSubdomain li < numSubdomains args /\
                               0 <= SecondSubdomain li < numSubdomains args)).
    { intros objs' -> Hli. split; [rewrite length_app; cbn; lia|].
      intros j Hj. destruct (Nat.eq_dec j k) as [->|Hne].
      - exists pm, ifli. split; [exact Hpm|]. split; [exact Hifli|].
        split; [rewrite lookup_app_r by lia; rewrite HlenO, Nat.sub_diag; reflexivity|].
        split; [|exact Hli].
        destruct (Z.geb_spec ifli 0) as [Hge|Hlt].
        + symmetry in Hver. apply bool_decide_eq_true in Hver. tauto.
        + symmetry in Hver. apply bool_decide_eq_false in Hver. split; [lia|tauto].
      - destruct (HO j ltac:(lia)) as (pm' & l' & H1 & H2 & H3 & H4).
        exists pm', l'. split; [exact H1|]. split; [exact H2|].
        split; [rewrite lookup_app_l by lia; exact H3|exact H4]. }
    destruct (Z.geb_spec ifli 0) as [Hge|Hlt].
    + split_bind Hbody as li Hli. split_bind Hbody as sdli1 Hp1.
      split_bind Hbody as sdli2 Hp2. split_bind Hbody as g Hg.
      split_bind Hbody as u2 Hver2. split_bind Hbody as gii Hset.
      injection Hbody as <-. unfold interfaceLoopInv.
      cbn [interfaceObjects globalInterfaceIndex subdomainLocalInterfaces].
      apply vecGet_Ok in Hli as [_ Hli]. apply vecGet_Ok in Hg as [_ Hg].
      apply MFEM_VERIFY_Ok in Hver2. apply vecSet_Ok in Hset as [Hr ->].
      apply push_back_at_Ok in Hp1 as (Hr1 & Hl1 & Hm1).
      apply push_back_at_Ok in Hp2 as (Hr2 & Hl2 & Hm2).
      assert (Hg' : g = -1).
      { apply orb_true_iff in Hver2 as [E|E]; apply Z.eqb_eq in E; [|exact E].
        destruct (HG1 _ _ Hg) as [->|[Hb _]]; [reflexivity|lia]. }
      subst g.
      split; [|split].
      * apply HOk; [reflexivity|]. intros _. exists li. split; [exact Hli|]. lia.
      * split; [rewrite length_insert; exact HlenG|]. split.
        -- intros l g Hl. destruct (Nat.eq_dec l (Z.to_nat ifli)) as [->|Hne].
           ++ rewrite list_lookup_insert_eq in Hl by lia. injection Hl as <-.
              right. split; [lia|]. rewrite Nat2Z.id, Z2Nat.id by lia. exact Hifli.
           ++ rewrite list_lookup_insert_ne in Hl by lia.
              destruct (HG1 _ _ Hl) as [->|[Hb Hi]]; [left; reflexivity|right].
              split; [lia|exact Hi].
        -- intros j l Hj Hjl Hl0. destruct (Nat.eq_dec j k) as [->|Hne].
           ++ assert (l = ifli) as -> by congruence.
              apply list_lookup_insert_eq. lia.
           ++ pose proof (HG2 j l ltac:(lia) Hjl Hl0) as Hold.
              destruct (Z.eq_dec l ifli) as [->|Hne'].
              ** rewrite Hg in Hold. injection Hold. lia.
              ** rewrite list_lookup_insert_ne by lia. exact Hold.
      * split; [lia|]. intros m lst2 Hlst2 i.
        destruct (Hm2 m lst2 Hlst2) as (lst1 & Hlst1 & E2).
        destruct (Hm1 m lst1 Hlst1) as (lst & Hlst & E1).
        rewrite E2, E1, (HS m lst Hlst i). split.
        -- intros [[(l & li' & Hi & H1 & H2 & H3 & H4)|[-> Hm]]|[-> Hm]].
           ++ exists l, li'. split; [lia|auto].
           ++ exists ifli, li. rewrite Nat2Z.id. split; [lia|]. auto.
           ++ exists ifli, li. rewrite Nat2Z.id. split; [lia|]. auto.
        -- intros (l & li' & Hi & H1 & H2 & H3 & H4).
           destruct (Z.eq_dec i (Z.of_nat k)) as [->|Hne].
           ++ rewrite Nat2Z.id in H1. assert (l = ifli) as -> by congruence.
              assert (li' = li) as -> by congruence.
              destruct H4 as [H4|H4]; [left; right|right]; auto.
           ++ left. left. exists l, li'. split; [lia|auto].
    + injection Hbody as <-. unfold interfaceLoopInv.
      cbn [interfaceObjects globalInterfaceIndex subdomainLocalInterfaces].
      split; [|split].
      * apply HOk; [reflexivity|]. intros Hc. lia.
      * split; [exact HlenG|]. split.
        -- intros l g Hl. destruct (HG1 _ _ Hl) as [->|[Hb Hi]]; [left; reflexivity|right].
           split; [lia|exact Hi].
        -- intros j l Hj Hjl Hl0. destruct (Nat.eq_dec j k) as [->|Hne].
           ++ assert (l = ifli) by congruence. lia.
           ++ apply (HG2 j l); [lia|assumption..].
      * split; [exact HlenS|]. intros m lst Hlst i. rewrite (HS m lst Hlst i). split.
        -- intros (l & li' & Hi & Hrest). exists l, li'. split; [lia|exact Hrest].
        -- intros (l & li' & Hi & H1 & H2 & Hrest).
           destruct (Z.eq_dec i (Z.of_nat k)) as [->|Hne].
           ++ rewrite Nat2Z.id in H1. assert (l = ifli) by congruence. lia.
           ++ exists l, li'. split; [lia|auto].
  - split; [|split].
    + split; [reflexivity|]. intros j Hj. lia.
    + cbn. split; [unfold numLocalInterfaces; rewrite length_replicate; lia|]. split.
      * intros l g Hl. apply lookup_replicate in Hl as [-> _]. left. reflexivity.
      * intros j l Hj. lia.
    + cbn. split; [apply length_replicate|].
      intros m lst Hlst i. apply lookup_replicate in Hlst as [-> _]. split; [intros []|].
      intros (l & li & Hi & _). lia.
Qed.

End InterfaceLoop.
Section ConstructorSteps.
Context {R : Type} {sc : Scalar R} (lib : Library R) (args : DDMArgs).

Lemma globalInterfaceLoop_steps (im : InterfaceMembers R) (sm : SurfaceMembers R)
    (sd : SubdomainMembers R) (offsets : list Z) (C : BlockOperator R)
    (arrays : list InterfaceOffsets) :
  globalInterfaceLoop args im sm sd offsets = Ok (C, arrays) ->
  forall ili, 0 <= ili < Z.of_nat (length (localInterfaces args)) ->
    exists li A0 A1,
      localInterfaces args !! Z.to_nat ili = Some li /\
      FirstSubdomain li < SecondSubdomain li /\
      CreateInterfaceOperator args im sm sd ili 0 = Ok A0 /\
      CreateInterfaceOperator args im sm sd ili 1 = Ok A1.
Proof.
  intros H ili Hili.
  destruct (globalInterfaceLoop_run args im sm sd offsets C arrays H)
    as (_ & _ & _ & Hall & _).
  destruct (lookup_lt_is_Some_2 (localInterfaces args) (Z.to_nat ili)) as [li Hli]; [lia|].
  destruct (Hall _ li Hli) as (Hlt & _ & _ & w0 & c01 & w1 & c10 & H0 & H1 & _).
  rewrite Z2Nat.id in H0, H1 by lia. exists li, (w0, c01), (w1, c10). auto.
Qed.

Lemma CreateInterfaceOperator_index (im : InterfaceMembers R) (sm : SurfaceMembers R)
    (sd : SubdomainMembers R) (ili orientation : Z)
    (A : InterfaceOffsets * (InterfaceOffsets -> Operator R)) :
  CreateInterfaceOperator args im sm sd ili orientation = Ok A ->
  exists idx obj,
    0 <= ili /\ globalInterfaceIndex im !! Z.to_nat ili = Some idx /\
    0 <= idx /\ interfaceObjects im !! Z.to_nat idx = Some (Some obj).
Proof.
  intros H. unfold CreateInterfaceOperator in H.
  split_bind H as li Hli. split_bind H as idx Hidx. split_bind H as p Hp.
  split_bind H as u Hver. split_bind H as obj Hobj.
  apply vecGet_Ok in Hidx as [Hili Hidx]. apply vecGet_Ok in Hp as [Hidx0 Hp].
  destruct p as [o|]; [|discriminate]. exists idx, o. auto.
Qed.

Lemma surfaceLoop_meshes (im : InterfaceMembers R) (sm : SurfaceMembers R) :
  surfaceLoop lib args im = Ok sm ->
  forall (m : nat) (x : Z) (rest : list Z),
    (Z.of_nat m < numSubdomains args) ->
    subdomainLocalInterfaces im !! m = Some (x :: rest) ->
    exists mesh, pmeshSD args !! m = Some (Some mesh).
Proof.
  intros H m x rest Hm Hsdli. unfold surfaceLoop in H.
  destruct (forM_steps_Ok _ _ _ _ H m (Z.of_nat m)) as (s1 & s2 & Hbody).
  { apply lookup_seqZ. lia. }
  split_bind Hbody as sdli_m Hs. split_bind Hbody as pm Hpm.
  split_bind Hbody as inner Hinner.
  apply vecGet_Ok in Hs as [_ Hs]. apply vecGet_Ok in Hpm as [_ Hpm].
  rewrite Nat2Z.id in Hs, Hpm. rewrite Hsdli in Hs. injection Hs as Hs. subst sdli_m.
  unfold surfaceInnerLoop in Hinner. cbn [forM] in Hinner.
  split_bind Hinner as st1 Hstep.
  split_bind Hstep as obj Hobj. split_bind Hstep as offs1 Ho1.
  split_bind Hstep as offs2 Ho2. split_bind Hstep as ifli Hifli.
  split_bind Hstep as u Hver. split_bind Hstep as li Hli.
  split_bind Hstep as fes Hfes.
  destruct pm as [mesh|]; [eauto|discriminate].
Qed.

End ConstructorSteps.

(** X13.  After a construction that succeeds, [globalInterfaceIndex] and
    [interfaceLocalIndex] are inverse to each other between the local
    interfaces and the interfaces whose local index is not negative: no two
    interfaces have one local index, and every local interface is the local
    index of an interface. *)
Theorem globalInterfaceIndex_inverts_interfaceLocalIndex :
  forall (R : Type) (sc : Scalar R) (lib : Library R) (args : DDMArgs)
         (ddm : DDMInterfaceOperator R),
    new_DDMInterfaceOperator lib args = Ok ddm ->
    let gii := globalInterfaceIndex (interfaceMembers ddm) in
    length gii = length (localInterfaces args) /\
    (forall i l, 0 <= i < numInterfaces args ->
       interfaceLocalIndex args !! Z.to_nat i = Some l -> 0 <= l ->
       gii !! Z.to_nat l = Some i) /\
    (forall l : nat, (l < length (localInterfaces args))%nat ->
       exists i, gii !! l = Some i /\ 0 <= i < numInterfaces args /\
                 interfaceLocalIndex args !! Z.to_nat i = Some (Z.of_nat l)) /\
    (forall i j l, 0 <= i < numInterfaces args -> 0 <= j < numInterfaces args ->
       interfaceLocalIndex args !! Z.to_nat i = Some l ->
       interfaceLocalIndex args !! Z.to_nat j = Some l -> 0 <= l -> i = j).
Proof.
  intros R sc lib args ddm H gii.
  destruct (new_DDMInterfaceOperator_Ok lib args ddm H)
    as (Hn & im & sm & sd & Him & Hsm & Hsd & Hver & C & arrays & S & HC & HS & ->).
  subst gii. cbn [interfaceMembers].
  destruct (interfaceLoop_inv lib args im Him) as (_ & (HlenG & HG1 & HG2) & _).
  assert (Hfwd : forall i l, 0 <= i < numInterfaces args ->
       interfaceLocalIndex args !! Z.to_nat i = Some l -> 0 <= l ->
       globalInterfaceIndex im !! Z.to_nat l = Some i).
  { intros i l Hi Hl Hl0. rewrite (HG2 (Z.to_nat i) l); [f_equal|..]; try assumption; lia. }
  split; [exact HlenG|]. split; [exact Hfwd|]. split.
  - intros l Hl.
    destruct (globalInterfaceLoop_steps args im sm sd _ C arrays HC (Z.of_nat l))
      as (li & A0 & A1 & _ & _ & HA0 & _); [lia|].
    destruct (CreateInterfaceOperator_index args im sm sd _ _ _ HA0)
      as (idx & obj & _ & Hidx & Hidx0 & _).
    rewrite Nat2Z.id in Hidx. exists idx. split; [exact Hidx|].
    destruct (HG1 l idx Hidx) as [->|[Hb Hi]]; [lia|]. split; [lia|exact Hi].
  - intros i j l Hi Hj Hil Hjl Hl0.
    pose proof (Hfwd i l Hi Hil Hl0) as E1. pose proof (Hfwd j l Hj Hjl Hl0) as E2.
    congruence.
Qed.

Lemma globalInterfaceIndex_inverts_interfaceLocalIndex_witness :
  match new_DDMInterfaceOperator cubesLibrary cubesArgs with
  | Ok ddm =>
      length (globalInterfaceIndex (interfaceMembers ddm))
        = length (localInterfaces cubesArgs) /\
      (forall i l, 0 <= i < numInterfaces cubesArgs ->
         interfaceLocalIndex cubesArgs !! Z.to_nat i = Some l -> 0 <= l ->
         globalInterfaceIndex (interfaceMembers ddm) !! Z.to_nat l = Some i) /\
      (forall l : nat, (l < length (localInterfaces cubesArgs))%nat ->
         exists i, globalInterfaceIndex (interfaceMembers ddm) !! l = Some i /\
                   0 <= i < numInterfaces cubesArgs /\
                   interfaceLocalIndex cubesArgs !! Z.to_nat i = Some (Z.of_nat l)) /\
      (forall i j l, 0 <= i < numInterfaces cubesArgs -> 0 <= j < numInterfaces cubesArgs ->
         interfaceLocalIndex cubesArgs !! Z.to_nat i = Some l ->
         interfaceLocalIndex cubesArgs !! Z.to_nat j = Some l -> 0 <= l -> i = j)
  | _ => False
  end.
Proof.
  destruct (new_DDMInterfaceOperator cubesLibrary cubesArgs) as [ddm| | |] eqn:E;
    try (vm_compute in E; discriminate).
  exact (globalInterfaceIndex_inverts_interfaceLocalIndex Z _ cubesLibrary cubesArgs ddm E).
Defined.

(** X14.  After a construction that succeeds, the list
    [subdomainLocalInterfaces[m]] holds exactly the interfaces with a local
    index that is not negative whose first or second subdomain is [m]. *)
Theorem subdomainLocalInterfaces_are_the_incident_interfaces :
  forall (R : Type) (sc : Scalar R) (lib : Library R) (args : DDMArgs)
         (ddm : DDMInterfaceOperator R),
    new_DDMInterfaceOperator lib args = Ok ddm ->
    let sdli := subdomainLocalInterfaces (interfaceMembers ddm) in
    length sdli = Z.to_nat (numSubdomains args) /\
    forall (m : nat) (lst : list Z), sdli !! m = Some lst ->
      forall i, In i lst <->
        exists l li,
          0 <= i < numInterfaces args /\
          interfaceLocalIndex args !! Z.to_nat i = Some l /\ 0 <= l /\
          localInterfaces args !! Z.to_nat l = Some li /\
          (FirstSubdomain li = Z.of_nat m \/ SecondSubdomain li = Z.of_nat m).
Proof.
  intros R sc lib args ddm H sdli.
  destruct (new_DDMInterfaceOperator_members lib args ddm H) as (Him & _).
  destruct (interfaceLoop_inv lib args _ Him) as (_ & _ & (HlenS & HS)).
  split; [exact HlenS|]. intros m lst Hlst i. rewrite (HS m lst Hlst i).
  split; intros (l & li & Hi & Hrest); exists l, li; (split; [lia|exact Hrest]).
Qed.

Lemma subdomainLocalInterfaces_are_the_incident_interfaces_witness :
  match new_DDMInterfaceOperator cubesLibrary cubesArgs with
  | Ok ddm =>
      length (subdomainLocalInterfaces (interfaceMembers ddm))
        = Z.to_nat (numSubdomains cubesArgs) /\
      forall (m : nat) (lst : list Z),
        subdomainLocalInterfaces (interfaceMembers ddm) !! m = Some lst ->
        forall i, In i lst <->
          exists l li,
            0 <= i < numInterfaces cubesArgs /\
            interfaceLocalIndex cubesArgs !! Z.to_nat i = Some l /\ 0 <= l /\
            localInterfaces cubesArgs !! Z.to_nat l = Some li /\
            (FirstSubdomain li = Z.of_nat m \/ SecondSubdomain li = Z.of_nat m)
  | _ => False
  end.
Proof.
  destruct (new_DDMInterfaceOperator cubesLibrary cubesArgs) as [ddm| | |] eqn:E;
    try (vm_compute in E; discriminate).
  exact (subdomainLocalInterfaces_are_the_incident_interfaces Z _ cubesLibrary cubesArgs
           ddm E).
Defined.

(** X15.  A construction succeeds only on a process that holds what its
    local interfaces need: the objects of interface [i] are null exactly
    when its mesh is, which is exactly when its local index is negative;
    and the two subdomains of each local interface are in range, the first
    below the second, and both have a mesh. *)
Theorem local_interfaces_have_their_meshes :
  forall (R : Type) (sc : Scalar R) (lib : Library R) (args : DDMArgs)
         (ddm : DDMInterfaceOperator R),
    new_DDMInterfaceOperator lib args = Ok ddm ->
    (length (interfaceObjects (interfaceMembers ddm)) = Z.to_nat (numInterfaces args) /\
     forall i, 0 <= i < numInterfaces args ->
       exists pm l,
         pmeshIF args !! Z.to_nat i = Some pm /\
         interfaceLocalIndex args !! Z.to_nat i = Some l /\
         interfaceObjects (interfaceMembers ddm) !! Z.to_nat i
           = Some (CreateInterfaceMatrices lib <$> pm) /\
         (pm = None <-> l < 0)) /\
    (forall (l : nat) (li : SubdomainInterface),
       localInterfaces args !! l = Some li ->
       0 <= FirstSubdomain li /\ FirstSubdomain li < SecondSubdomain li /\
       SecondSubdomain li < numSubdomains args /\
       exists mesh0 mesh1,
         pmeshSD args !! Z.to_nat (FirstSubdomain li) = Some (Some mesh0) /\
         pmeshSD args !! Z.to_nat (SecondSubdomain li) = Some (Some mesh1)).
Proof.
  intros R sc lib args ddm H.
  destruct (new_DDMInterfaceOperator_Ok lib args ddm H)
    as (Hn & im & sm & sd & Him & Hsm & Hsd & Hver & C & arrays & S & HC & HS & ->).
  cbn [interfaceMembers].
  destruct (interfaceLoop_inv lib args im Him)
    as ((HlenO & HO) & (HlenG & HG1 & HG2) & (HlenS & HSd)).
  split.
  - split; [exact HlenO|]. intros i Hi.
    destruct (HO (Z.to_nat i) ltac:(lia)) as (pm & l & H1 & H2 & H3 & H4 & _).
    exists pm, l. split; [exact H1|]. split; [exact H2|]. split; [exact H3|].
    destruct pm as [mesh|]; split; intros Hc.
    + discriminate.
    + assert (0 <= l) by (apply H4; eauto). lia.
    + destruct (Z_lt_le_dec l 0) as [Hl|Hl]; [exact Hl|].
      apply H4 in Hl. destruct Hl as [? [=]].
    + reflexivity.
  - intros l li Hli.
    pose proof (lookup_lt_Some _ _ _ Hli) as Hl.
    destruct (globalInterfaceLoop_steps args im sm sd _ C arrays HC (Z.of_nat l))
      as (li' & A0 & A1 & Hli' & Hlt & HA0 & _); [lia|].
    rewrite Nat2Z.id, Hli in Hli'. injection Hli' as <-.
    destruct (CreateInterfaceOperator_index args im sm sd _ _ _ HA0)
      as (idx & obj & _ & Hidx & Hidx0 & _).
    rewrite Nat2Z.id in Hidx.
    destruct (HG1 l idx Hidx) as [->|[Hb Hi]]; [lia|].
    destruct (HO (Z.to_nat idx) ltac:(lia)) as (pm & l' & _ & H2 & _ & _ & H5).
    rewrite Hi in H2. injection H2 as <-.
    destruct (H5 ltac:(lia)) as (li' & Hli' & Hf & Hs).
    rewrite Nat2Z.id, Hli in Hli'. injection Hli' as <-.
    split; [lia|]. split; [exact Hlt|]. split; [lia|].
    assert (Hmesh : forall m : Z, 0 <= m < numSubdomains args ->
              (FirstSubdomain li = m \/ SecondSubdomain li = m) ->
              exists mesh, pmeshSD args !! Z.to_nat m = Some (Some mesh)).
    { intros m Hm Hinc.
      destruct (lookup_lt_is_Some_2 (subdomainLocalInterfaces im) (Z.to_nat m))
        as [lst Hlst]; [lia|].
      assert (Hin : In idx lst).
      { apply (HSd _ _ Hlst). exists (Z.of_nat l), li.
        rewrite Nat2Z.id. split; [lia|]. split; [exact Hi|].
        split; [lia|]. split; [exact Hli|]. rewrite Z2Nat.id by lia. exact Hinc. }
      destruct lst as [|x rest]; [destruct Hin|].
      apply (surfaceLoop_meshes lib args im sm Hsm (Z.to_nat m) x rest); [lia|exact Hlst]. }
    destruct (Hmesh (FirstSubdomain li) Hf (or_introl eq_refl)) as (mesh0 & Hm0).
    destruct (Hmesh (SecondSubdomain li) Hs (or_intror eq_refl)) as (mesh1 & Hm1).
    eauto.
Qed.

Lemma local_interfaces_have_their_meshes_witness :
  match new_DDMInterfaceOperator cubesLibrary cubesArgs with
  | Ok ddm =>
      (length (interfaceObjects (interfaceMembers ddm))
         = Z.to_nat (numInterfaces cubesArgs) /\
       forall i, 0 <= i < numInterfaces cubesArgs ->
         exists pm l,
           pmeshIF cubesArgs !! Z.to_nat i = Some pm /\
           interfaceLocalIndex cubesArgs !! Z.to_nat i = Some l /\
           interfaceObjects (interfaceMembers ddm) !! Z.to_nat i
             = Some (CreateInterfaceMatrices cubesLibrary <$> pm) /\
           (pm = None <-> l < 0)) /\
      (forall (l : nat) (li : SubdomainInterface),
         localInterfaces cubesArgs !! l = Some li ->
         0 <= FirstSubdomain li /\ FirstSubdomain li < SecondSubdomain li /\
         SecondSubdomain li < numSubdomains cubesArgs /\
         exists mesh0 mesh1,
           pmeshSD cubesArgs !! Z.to_nat (FirstSubdomain li) = Some (Some mesh0) /\
           pmeshSD cubesArgs !! Z.to_nat (SecondSubdomain li) = Some (Some mesh1))
  | _ => False
  end.
Proof.
  destruct (new_DDMInterfaceOperator cubesLibrary cubesArgs) as [ddm| | |] eqn:E;
    try (vm_compute in E; discriminate).
  exact (local_interfaces_have_their_meshes Z _ cubesLibrary cubesArgs ddm E).
Defined.
(** ** The sizes of the blocks of the global operators *)

Section BlockSizes.
Context {R : Type} {sc : Scalar R} (lib : Library R) (args : DDMArgs).

Lemma findInterfaceInSubdomain_sum (im : InterfaceMembers R) (sd interfaceIndex : Z)
    (sdif os osComp : Z) :
  findInterfaceInSubdomain im sd interfaceIndex = Ok (sdif, os, osComp) ->
  0 <= sd /\
  int_wrap (os + osComp)
  = int_wrap (sumZ (map (interfaceSizeAt im)
                      (subdomainLocalInterfaces im !!! Z.to_nat sd))).
Proof.
  unfold findInterfaceInSubdomain. intros H. split_bind H as sdli Hsdli.
  apply vecGet_Ok in Hsdli as [Hsd Hsdli]. split; [exact Hsd|].
  rewrite (list_lookup_total_correct _ _ _ Hsdli).
  set (P := fun (k : nat) (st : Z * Z * Z) =>
              eqm32 (st.1.2 + st.2) (sumZ (map (interfaceSizeAt im) (take k sdli)))).
  apply (forM_indexed P) in H.
  - unfold P in H. cbn [fst snd] in H.
    rewrite length_zip_with, length_seqZ, Nat2Z.id, Nat.min_id, firstn_all in H. exact H.
  - intros k [i sdli_i] [[f o] oc] st' Hk HP Hbody. unfold P in HP. cbn [fst snd] in HP.
    apply lookup_zip_with_Some in Hk as (i' & x & [= <- <-] & _ & Hx).
    split_bind Hbody as sdif' Hsdif. split_bind Hbody as obj Hobj.
    apply interfaceAt_size in Hobj as [_ Hobj].
    unfold P. rewrite (take_S_r _ _ _ Hx), map_app. cbn [map]. rewrite sumZ_snoc, <- HP.
    rewrite Hobj in Hbody. unfold eqm32.
    destruct (sdif' =? -1); injection Hbody as <-; cbn [fst snd]; int_ring.
  - unfold P. cbn. reflexivity.
Qed.

Lemma tdofsBdrySize_Ok (sd : SubdomainMembers R) (m b : Z) :
  tdofsBdrySize sd m = Ok b ->
  0 <= m < Z.of_nat (length (tdofsBdry sd)) /\ b = boundarySize (tdofsBdry sd) (Z.to_nat m).
Proof.
  unfold tdofsBdrySize. intros H. split_bind H as s Hs. injection H as <-.
  apply vecGet_Ok in Hs as [Hm Hs]. pose proof (lookup_lt_Some _ _ _ Hs).
  split; [lia|]. unfold boundarySize. now rewrite (list_lookup_total_correct _ _ _ Hs).
Qed.

(** The operator [C_{sd0,sd1} R_{sd1}^T] has the size the comment on
    [CreateInterfaceOperator] gives, [n_{sd0}] by [n_{sd1}] as [int]s,
    whatever the arrays of offsets hold when it is applied. *)
Lemma CreateInterfaceOperator_dims (im : InterfaceMembers R) (sm : SurfaceMembers R)
    (sd : SubdomainMembers R) (ili orientation : Z) (w : InterfaceOffsets)
    (A : InterfaceOffsets -> Operator R) :
  CreateInterfaceOperator args im sm sd ili orientation = Ok (w, A) ->
  exists li,
    localInterfaces args !! Z.to_nat ili = Some li /\
    let sd0 := if orientation =? 0 then FirstSubdomain li else SecondSubdomain li in
    let sd1 := if orientation =? 0 then SecondSubdomain li else FirstSubdomain li in
    0 <= sd0 < Z.of_nat (length (tdofsBdry sd)) /\
    0 <= sd1 < Z.of_nat (length (tdofsBdry sd)) /\
    forall seen : InterfaceOffsets,
      Height (A seen) = int_wrap (boundarySize (tdofsBdry sd) (Z.to_nat sd0)
                                  + interfaceSizes im (Z.to_nat sd0)) /\
      Width (A seen) = int_wrap (boundarySize (tdofsBdry sd) (Z.to_nat sd1)
                                 + interfaceSizes im (Z.to_nat sd1)).
Proof.
  intros H. unfold CreateInterfaceOperator in H.
  split_bind H as li Hli. apply vecGet_Ok in Hli as [_ Hli].
  exists li. split; [exact Hli|]. cbn zeta.
  set (sd0 := if orientation =? 0 then FirstSubdomain li else SecondSubdomain li) in *.
  set (sd1 := if orientation =? 0 then SecondSubdomain li else FirstSubdomain li) in *.
  split_bind H as idx Hidx. split_bind H as p Hp. split_bind H as u Hver.
  split_bind H as obj Hobj.
  split_bind H as [[sd0if sd0os] sd0osComp] Hf0.
  split_bind H as [[sd1if sd1os] sd1osComp] Hf1.
  split_bind H as u0 Hv0. split_bind H as u1 Hv1.
  split_bind H as Cij HCij. split_bind H as bdry0 Hb0. split_bind H as bdry1 Hb1.
  split_bind H as injs0 Hi0. split_bind H as inj0 Hj0.
  split_bind H as injs1 Hi1. split_bind H as inj1 Hj1.
  split_bind H as p1 Hp1. split_bind H as o1 Ho1.
  split_bind H as p0 Hp0. split_bind H as o0 Ho0.
  injection H as _ <-.
  apply findInterfaceInSubdomain_sum in Hf0 as [_ Hs0].
  apply findInterfaceInSubdomain_sum in Hf1 as [_ Hs1].
  apply tdofsBdrySize_Ok in Hb0 as [Hr0 ->]. apply tdofsBdrySize_Ok in Hb1 as [Hr1 ->].
  split; [exact Hr0|]. split; [exact Hr1|]. intros seen.
  unfold interfaceSizes.
  cbn [Height Width TripleProductOperator BlockOperator_ref BlockOperator_Operator
       row_offsets col_offsets SetBlock new_BlockOperator].
  unfold PartialSum. rewrite !PartialSum_from_last by discriminate.
  cbn [default from_option]. unfold id, sumZ. cbn [foldr].
  split.
  - transitivity (int_wrap (boundarySize (tdofsBdry sd) (Z.to_nat sd0)
                            + (sd0os + sd0osComp))); [int_ring|].
    rewrite (Hs0 : eqm32 _ _). reflexivity.
  - transitivity (int_wrap (boundarySize (tdofsBdry sd) (Z.to_nat sd1)
                            + (sd1os + sd1osComp))); [int_ring|].
    rewrite (Hs1 : eqm32 _ _). reflexivity.
Qed.

Lemma subdomainInjection_dims (im : InterfaceMembers R) (sm : SurfaceMembers R)
    (sd : SubdomainMembers R) (m : Z) (o : SubdomainObjects R) (inj : BlockOperator R) :
  subdomainInjection im sm sd m o = Ok inj ->
  exists fes,
    0 <= m < Z.of_nat (length (tdofsBdry sd)) /\
    fespace sm !! Z.to_nat m = Some (Some fes) /\
    Height (BlockOperator_Operator inj)
    = int_wrap (GetTrueVSize fes + interfaceSizes im (Z.to_nat m)) /\
    Width (BlockOperator_Operator inj)
    = int_wrap (boundarySize (tdofsBdry sd) (Z.to_nat m)
                + interfaceSizes im (Z.to_nat m)).
Proof.
  intros H. unfold subdomainInjection in H.
  split_bind H as p Hp. split_bind H as fes Hfes. split_bind H as sdli Hsdli.
  split_bind H as ifsize Hif. split_bind H as bdry Hb. injection H as <-.
  apply vecGet_Ok in Hp as [_ Hp]. destruct p as [fes'|]; [|discriminate].
  injection Hfes as ->. apply vecGet_Ok in Hsdli as [_ Hsdli].
  apply tdofsBdrySize_Ok in Hb as [Hr ->].
  exists fes. split; [exact Hr|]. split; [exact Hp|].
  assert (Hsum : ifsize = int_wrap (interfaceSizes im (Z.to_nat m))).
  { unfold interfaceSizes. rewrite (list_lookup_total_correct _ _ _ Hsdli).
    set (P := fun (k : nat) (s : Z) =>
                s = int_wrap (sumZ (map (interfaceSizeAt im) (take k sdli)))).
    apply (forM_indexed P) in Hif.
    - unfold P in Hif. now rewrite firstn_all in Hif.
    - intros k a s s' Hk HP Hbody. unfold P in *.
      split_bind Hbody as q Hq. destruct q as [obj|]; [|discriminate].
      injection Hbody as <-.
      rewrite (take_S_r _ _ _ Hk), map_app. cbn [map]. rewrite sumZ_snoc, HP.
      assert (Ea : interfaceSizeAt im a
                   = GetTrueVSize (ifespace obj) + GetTrueVSize (iH1fespace obj))
        by (unfold interfaceSizeAt; now rewrite Hq).
      rewrite Ea. unfold ifTrueSize. int_ring.
    - reflexivity. }
  rewrite Hsum.
  cbn [Height Width BlockOperator_Operator row_offsets col_offsets SetBlock
       new_BlockOperator].
  unfold PartialSum. rewrite !PartialSum_from_last by discriminate.
  cbn [default from_option]. unfold id, sumZ. cbn [foldr]. split; int_ring.
Qed.

End BlockSizes.

(** X16.  After a construction that succeeds, with true-DOF counts that
    are not negative and whose total does not exceed the largest [int],
    every block set in [globalInterfaceOp] and in [globalSubdomainOp] has
    the height of its block row and the width of its block column in
    [block_trueOffsets]: the operator for an interface between [sd0] and
    [sd1] is [n_{sd0}] by [n_{sd1}], and the block of subdomain [m] is
    [n_m] by [n_m]. *)
Theorem global_blocks_fit_block_trueOffsets :
  forall (R : Type) (sc : Scalar R) (lib : Library R) (args : DDMArgs)
         (ddm : DDMInterfaceOperator R),
    new_DDMInterfaceOperator lib args = Ok ddm ->
    (forall (idx : nat) obj,
       interfaceObjects (interfaceMembers ddm) !! idx = Some (Some obj) ->
       0 <= GetTrueVSize (ifespace obj) /\ 0 <= GetTrueVSize (iH1fespace obj)) ->
    totalSize ddm (Z.to_nat (numSubdomains args)) <= INT_MAX ->
    let fits (i j : Z) (A : Operator R) :=
      exists rlo clo : Z,
        0 <= i /\ 0 <= j /\
        block_trueOffsets ddm !! Z.to_nat i = Some rlo /\
        block_trueOffsets ddm !! S (Z.to_nat i) = Some (rlo + Height A) /\
        block_trueOffsets ddm !! Z.to_nat j = Some clo /\
        block_trueOffsets ddm !! S (Z.to_nat j) = Some (clo + Width A) /\
        Height A = subdomainBlockSize ddm (Z.to_nat i) /\
        Width A = subdomainBlockSize ddm (Z.to_nat j) in
    (forall (i j : Z) (A : Operator R) (c : R),
       blocks (globalInterfaceOp ddm) i j = Some (A, c) -> fits i j A) /\
    (forall (i j : Z) (A : Operator R) (c : R),
       blocks (globalSubdomainOp ddm) i j = Some (A, c) -> fits i j A).
Proof.
  intros R sc lib args ddm H Hnn Hmax fits.
  pose proof (block_trueOffsets_blocks lib args ddm H) as (Hoffs & _).
  destruct (new_DDMInterfaceOperator_Ok lib args ddm H)
    as (Hn & im & sm & sd & Him & Hsm & Hsd & Hver & C & arrays & S & HC & HS & Hddm).
  pose proof (surfaceLoop_sizes lib args im sm ltac:(lia) Hsm) as [Hoffs1 Hsz1].
  pose proof (subdomainLoop_sizes lib args im sm sd _ ltac:(lia) Hoffs1 Hsz1 Hsd)
    as (HlenB & _).
  set (N := Z.to_nat (numSubdomains args)) in *.
  destruct (PartialSum_blocks (subdomainBlockSize ddm) N) as (_ & _ & Hl & _ & _).
  cbn zeta in Hoffs, Hl. rewrite <- Hoffs in Hl.
  assert (Hbs : forall m, 0 <= subdomainBlockSize ddm m)
    by (intros m; exact (subdomainBlockSize_nonneg ddm m Hnn)).
  assert (Hpre : forall m, (m <= N)%nat ->
            block_trueOffsets ddm !! m
            = Some (sumZ (map (subdomainBlockSize ddm) (seq 0 m)))).
  { intros m Hm. rewrite (Hl m Hm). f_equal. apply int_wrap_small.
    pose proof (sumZ_prefix_le (subdomainBlockSize ddm) m N Hbs Hm) as Hle.
    unfold totalSize in Hmax. unfold INT_MAX in *. lia. }
  assert (Hsmall : forall m, (m < N)%nat ->
            int_wrap (subdomainBlockSize ddm m) = subdomainBlockSize ddm m).
  { intros m Hm. apply int_wrap_small.
    pose proof (sumZ_prefix_le (subdomainBlockSize ddm) m N Hbs ltac:(lia)) as Hle1.
    pose proof (sumZ_prefix_le (subdomainBlockSize ddm) (Datatypes.S m) N Hbs ltac:(lia))
      as Hle2.
    rewrite seq_S, map_app in Hle2. cbn [map Nat.add] in Hle2. rewrite sumZ_snoc in Hle2.
    pose proof (Hbs m). unfold totalSize in Hmax. unfold INT_MAX in *. lia. }
  assert (Hfit : forall (i j : Z) (A : Operator R),
            0 <= i < Z.of_nat N -> 0 <= j < Z.of_nat N ->
            Height A = int_wrap (subdomainBlockSize ddm (Z.to_nat i)) ->
            Width A = int_wrap (subdomainBlockSize ddm (Z.to_nat j)) -> fits i j A).
  { intros i j A Hi Hj HA WA.
    rewrite Hsmall in HA, WA by lia.
    exists (sumZ (map (subdomainBlockSize ddm) (seq 0 (Z.to_nat i)))),
           (sumZ (map (subdomainBlockSize ddm) (seq 0 (Z.to_nat j)))).
    rewrite HA, WA, !Hpre by lia.
    rewrite !seq_S, !map_app. cbn [map Nat.add]. rewrite !sumZ_snoc.
    repeat split; try reflexivity; lia. }
  assert (Hsize : forall m : nat,
            subdomainBlockSize ddm m = boundarySize (tdofsBdry sd) m + interfaceSizes im m).
  { intros m. rewrite Hddm. reflexivity. }
  assert (HCo : globalInterfaceOp ddm = C) by (rewrite Hddm; reflexivity).
  assert (HSo : globalSubdomainOp ddm = S) by (rewrite Hddm; reflexivity).
  rewrite HCo, HSo. split.
  - intros i j A c Hb.
    destruct (globalInterfaceLoop_run args im sm sd _ C arrays HC)
      as (_ & _ & _ & _ & HCb).
    destruct (HCb i j A c Hb)
      as (_ & l & li & w0 & c01 & w1 & c10 & Hli & _ & H0 & H1 & _ & Hcase).
    destruct Hcase as [(Ei & Ej & EA)|(Ei & Ej & EA)]; subst i j A.
    + destruct (CreateInterfaceOperator_dims args im sm sd _ _ _ _ H0)
        as (li' & Hli' & Hr0 & Hr1 & Hdims).
      rewrite Nat2Z.id, Hli in Hli'. injection Hli' as Eli. subst li'.
      cbn in Hr0, Hr1, Hdims. destruct (Hdims w1) as [Hh Hw].
      apply Hfit; [lia|lia|rewrite Hsize; exact Hh|rewrite Hsize; exact Hw].
    + destruct (CreateInterfaceOperator_dims args im sm sd _ _ _ _ H1)
        as (li' & Hli' & Hr0 & Hr1 & Hdims).
      rewrite Nat2Z.id, Hli in Hli'. injection Hli' as Eli. subst li'.
      cbn in Hr0, Hr1, Hdims. destruct (Hdims w1) as [Hh Hw].
      apply Hfit; [lia|lia|rewrite Hsize; exact Hh|rewrite Hsize; exact Hw].
  - intros i j A c Hb.
    destruct (globalSubdomainLoop_blocks args im sm sd _ S HS) as (_ & _ & HSb).
    destruct (HSb i j A c Hb) as (<- & _ & o & inj & Ho & Hinj & ->).
    destruct (subdomainInjection_dims im sm sd i o inj Hinj) as (fes & Hr & _ & _ & Hw).
    apply Hfit; try lia; rewrite Hsize; cbn [Height Width TripleProductOperator
      TransposeOperator]; exact Hw.
Qed.

Lemma global_blocks_fit_block_trueOffsets_witness :
  match new_DDMInterfaceOperator cubesLibrary cubesArgs with
  | Ok ddm =>
      block_trueOffsets ddm = [0; 20; 40] /\
      (forall (i j : Z) (A : Operator Z) (c : Z),
         blocks (globalInterfaceOp ddm) i j = Some (A, c) ->
         Height A = subdomainBlockSize ddm (Z.to_nat i) /\
         Width A = subdomainBlockSize ddm (Z.to_nat j)) /\
      (forall (i j : Z) (A : Operator Z) (c : Z),
         blocks (globalSubdomainOp ddm) i j = Some (A, c) ->
         Height A = subdomainBlockSize ddm (Z.to_nat i) /\
         Width A = subdomainBlockSize ddm (Z.to_nat j))
  | _ => False
  end.
Proof.
  destruct (new_DDMInterfaceOperator cubesLibrary cubesArgs) as [ddm| | |] eqn:E;
    try (vm_compute in E; discriminate).
  assert (Hnn : forall (idx : nat) obj,
            interfaceObjects (interfaceMembers ddm) !! idx = Some (Some obj) ->
            0 <= GetTrueVSize (ifespace obj) /\ 0 <= GetTrueVSize (iH1fespace obj)).
  { apply (interface_sizes_nonneg ddm [Some (4, 4)]).
    - apply (run_proj _ _
               (fun d => map (fmap (fun o : InterfaceObjects Z =>
                                      (GetTrueVSize (ifespace o),
                                       GetTrueVSize (iH1fespace o))))
                           (interfaceObjects (interfaceMembers d))) _ E).
      vm_compute. reflexivity.
    - intros p [[= <-]|[]]. cbn. lia. }
  assert (Hmax : totalSize ddm (Z.to_nat (numSubdomains cubesArgs)) <= INT_MAX).
  { assert (Htotal : totalSize ddm (Z.to_nat (numSubdomains cubesArgs)) = 40).
    { apply (run_proj _ _
               (fun d => totalSize d (Z.to_nat (numSubdomains cubesArgs))) _ E).
      vm_compute. reflexivity. }
    rewrite Htotal. unfold INT_MAX. lia. }
  pose proof (global_blocks_fit_block_trueOffsets Z _ cubesLibrary cubesArgs ddm E
                Hnn Hmax) as [HC HS].
  split.
  - exact (run_proj _ ddm block_trueOffsets [0; 20; 40] E
             ltac:(vm_compute; reflexivity)).
  - split.
    + intros i j A c Hb. destruct (HC i j A c Hb) as (rlo & clo & H). tauto.
    + intros i j A c Hb. destruct (HS i j A c Hb) as (rlo & clo & H). tauto.
Defined.
(** ** The subdomain operator and its preconditioner *)

Section SubdomainBlocks.
Context {R : Type} {sc : Scalar R}.

Lemma subdomainInterfaceBlocks_blocks (obj : InterfaceObjects R) (inj : Operator R)
    (i : Z) (op : BlockOperator R) (r c : Z) :
  blocks (subdomainInterfaceBlocks obj inj i op) r c
  = if (r =? 2 * i + 2) && (c =? 2 * i + 2) then Some (ifH1mass obj, rone)
    else if (r =? 2 * i + 1) && (c =? 2 * i + 1) then Some (ifNDmass obj, rdiv rone alpha)
    else if (r =? 2 * i + 2) && (c =? 2 * i + 1)
         then Some (TransposeOperator (ifNDH1grad obj), rone)
    else if (r =? 2 * i + 1) && (c =? 0)
         then Some (ProductOperator
                      (SumOperator (ifNDmass obj) (ifNDcurlcurl obj) rone (rdiv beta alpha))
                      (TransposeOperator inj), rone)
    else if (r =? 2 * i + 1) && (c =? 2 * i + 2)
         then Some (ifNDH1grad obj, rdiv gamma alpha)
    else if (r =? 0) && (c =? 2 * i + 2)
         then Some (ProductOperator inj (ifNDH1grad obj), ropp gamma)
    else blocks op r c.
Proof. reflexivity. Qed.

Lemma subdomainInterfaceBlocks_other (obj : InterfaceObjects R) (inj : Operator R)
    (i : Z) (op : BlockOperator R) (r c : Z) :
  ~ interfaceBlockPosition i r c ->
  blocks (subdomainInterfaceBlocks obj inj i op) r c = blocks op r c.
Proof.
  intros Hn. rewrite subdomainInterfaceBlocks_blocks. unfold interfaceBlockPosition in Hn.
  destruct (Z.eqb_spec r (2 * i + 2)), (Z.eqb_spec c (2 * i + 2)),
    (Z.eqb_spec r (2 * i + 1)), (Z.eqb_spec c (2 * i + 1)),
    (Z.eqb_spec c 0), (Z.eqb_spec r 0); cbn; try reflexivity; exfalso; lia.
Qed.

Lemma interfaceBlockPosition_disjoint (i k r c : Z) :
  0 <= i -> 0 <= k -> i <> k ->
  interfaceBlockPosition i r c -> ~ interfaceBlockPosition k r c.
Proof. unfold interfaceBlockPosition. lia. Qed.

Lemma interfaceBlockPosition_search (n : nat) (r c : Z) :
  (exists i : nat, (i < n)%nat /\ interfaceBlockPosition (Z.of_nat i) r c) \/
  (forall i : nat, (i < n)%nat -> ~ interfaceBlockPosition (Z.of_nat i) r c).
Proof.
  induction n as [|n [(i & Hi & Hp)|Hnone]].
  - right. intros i Hi. lia.
  - left. exists i. split; [lia|exact Hp].
  - assert (Hdec : interfaceBlockPosition (Z.of_nat n) r c \/
                   ~ interfaceBlockPosition (Z.of_nat n) r c)
      by (unfold interfaceBlockPosition; lia).
    destruct Hdec as [Hp|Hn]; [left; exists n; split; [lia|exact Hp]|right].
    intros i Hi. destruct (Nat.eq_dec i n) as [->|Hne]; [exact Hn|apply Hnone; lia].
Qed.

Lemma CreateSubdomainOperator_pattern (im : InterfaceMembers R) (sm : SurfaceMembers R)
    (subdomain : Z) (sdND_m : Operator R) (op : BlockOperator R) (offs : list Z) :
  CreateSubdomainOperator im sm subdomain sdND_m = Ok (op, offs) ->
  let sdli := subdomainLocalInterfaces im !!! Z.to_nat subdomain in
  blocks op 0 0 = Some (sdND_m, rone) /\
  (forall (i : nat) (interfaceIndex : Z), sdli !! i = Some interfaceIndex ->
     exists (obj : InterfaceObjects R) (inj : Operator R),
       interfaceAt im interfaceIndex = Ok obj /\
       (InterfaceToSurfaceInjection sm !!! Z.to_nat subdomain) !! i = Some inj /\
       forall r c, interfaceBlockPosition (Z.of_nat i) r c ->
         blocks op r c
         = blocks (subdomainInterfaceBlocks obj inj (Z.of_nat i)
                     (new_BlockOperator offs offs)) r c) /\
  (forall r c A coef, blocks op r c = Some (A, coef) ->
     (r = 0 /\ c = 0) \/
     exists i : nat, (i < length sdli)%nat /\ interfaceBlockPosition (Z.of_nat i) r c).
Proof.
  unfold CreateSubdomainOperator. intros H.
  split_bind H as offs' Hoffs. split_bind H as sdli Hsdli. split_bind H as op' Hloop.
  injection H as -> ->.
  apply vecGet_Ok in Hsdli as [_ Hsdli]. apply list_lookup_total_correct in Hsdli.
  cbn zeta. rewrite Hsdli.
  set (op0 := SetBlock (new_BlockOperator offs offs) 0 0 sdND_m rone) in *.
  set (P := fun (k : nat) (o : BlockOperator R) =>
              (forall r c, (forall i : nat, (i < k)%nat ->
                              ~ interfaceBlockPosition (Z.of_nat i) r c) ->
                 blocks o r c = blocks op0 r c) /\
              (forall (i : nat) (interfaceIndex : Z), (i < k)%nat ->
                 sdli !! i = Some interfaceIndex ->
                 exists (obj : InterfaceObjects R) (inj : Operator R),
                   interfaceAt im interfaceIndex = Ok obj /\
                   (InterfaceToSurfaceInjection sm !!! Z.to_nat subdomain) !! i = Some inj /\
                   forall r c, interfaceBlockPosition (Z.of_nat i) r c ->
                     blocks o r c
                     = blocks (subdomainInterfaceBlocks obj inj (Z.of_nat i)
                                 (new_BlockOperator offs offs)) r c)).
  apply (forM_indexed P) in Hloop.
  - destruct Hloop as (Hother & Hset).
    assert (Hlen : length (zip (seqZ 0 (Z.of_nat (length sdli))) sdli) = length sdli).
    { rewrite length_zip, length_seqZ. lia. }
    rewrite Hlen in Hother, Hset.
    split; [|split].
    + rewrite Hother; [unfold op0; reflexivity|].
      intros i _. unfold interfaceBlockPosition. lia.
    + intros i idx Hi. apply (Hset i idx); [|exact Hi].
      apply lookup_lt_Some in Hi. exact Hi.
    + intros r c A coef Hb.
      destruct (interfaceBlockPosition_search (length sdli) r c) as [Hex|Hnone]; [right; exact Hex|].
      left. rewrite (Hother r c Hnone) in Hb. unfold op0 in Hb. cbn in Hb.
      destruct (Z.eqb_spec r 0), (Z.eqb_spec c 0); cbn in Hb; try discriminate. auto.
  - intros k [i idx] o o' Hk (Hother & Hset) Hbody.
    apply lookup_zip_with_Some in Hk as (i' & idx' & [= -> ->] & Hi & Hidx).
    apply seqZ_lookup_nat in Hi as [-> Hi].
    split_bind Hbody as obj Hobj. split_bind Hbody as injs Hinjs.
    split_bind Hbody as inj Hinj. injection Hbody as <-.
    apply vecGet_Ok in Hinjs as [_ Hinjs]. apply list_lookup_total_correct in Hinjs.
    apply vecGet_Ok in Hinj as [_ Hinj]. rewrite Nat2Z.id in Hinj.
    unfold P. split.
    + intros r c Hn. rewrite subdomainInterfaceBlocks_other by (apply Hn; lia).
      apply Hother. intros i' Hi'. apply Hn. lia.
    + intros i' idx0 Hi' Hidx0. destruct (Nat.eq_dec i' k) as [->|Hne].
      * rewrite Hidx in Hidx0. injection Hidx0 as <-.
        exists obj, inj. rewrite Hinjs. split; [exact Hobj|]. split; [exact Hinj|].
        intros r c Hpos. rewrite !subdomainInterfaceBlocks_blocks.
        unfold interfaceBlockPosition in Hpos.
        destruct (Z.eqb_spec r (2 * Z.of_nat k + 2)), (Z.eqb_spec c (2 * Z.of_nat k + 2)),
          (Z.eqb_spec r (2 * Z.of_nat k + 1)), (Z.eqb_spec c (2 * Z.of_nat k + 1)),
          (Z.eqb_spec c 0), (Z.eqb_spec r 0); cbn; try reflexivity; exfalso; lia.
      * destruct (Hset i' idx0 ltac:(lia) Hidx0) as (obj' & inj' & H1 & H2 & H3).
        exists obj', inj'. split; [exact H1|]. split; [exact H2|].
        intros r c Hpos. rewrite subdomainInterfaceBlocks_other; [apply H3; exact Hpos|].
        apply (interfaceBlockPosition_disjoint (Z.of_nat i')); [lia|lia|lia|exact Hpos].
  - unfold P. split; [reflexivity|]. intros i idx Hi. lia.
Qed.

End SubdomainBlocks.

Section SubdomainObjects.
Context {R : Type} {sc : Scalar R} (lib : Library R) (args : DDMArgs).

Lemma CreateSubdomainPreconditionerStrumpack_pattern (im : InterfaceMembers R)
    (subdomain : Z) (sdND_m : Operator R) (offs : list Z) (prec : BlockOperator R) :
  CreateSubdomainPreconditionerStrumpack lib im subdomain sdND_m offs = Ok prec ->
  let sdli := subdomainLocalInterfaces im !!! Z.to_nat subdomain in
  row_offsets prec = offs /\ col_offsets prec = offs /\
  blocks prec 0 0 = Some (STRUMPACKSolver lib sdND_m, rone) /\
  (forall (i : nat) (interfaceIndex : Z), sdli !! i = Some interfaceIndex ->
     exists obj : InterfaceObjects R,
       interfaceAt im interfaceIndex = Ok obj /\
       blocks prec (2 * Z.of_nat i + 1) (2 * Z.of_nat i + 1)
         = Some (ScaledOperator (STRUMPACKSolver lib (ifNDmass obj)) alpha, rone) /\
       blocks prec (2 * Z.of_nat i + 2) (2 * Z.of_nat i + 2)
         = Some (STRUMPACKSolver lib (ifH1mass obj), rone)) /\
  (forall r c A coef, blocks prec r c = Some (A, coef) ->
     r = c /\ 0 <= r <= 2 * Z.of_nat (length sdli)).
Proof.
  unfold CreateSubdomainPreconditionerStrumpack. intros H.
  split_bind H as sdli Hsdli.
  apply vecGet_Ok in Hsdli as [_ Hsdli]. apply list_lookup_total_correct in Hsdli.
  cbn zeta. rewrite Hsdli.
  set (P := fun (k : nat) (o : BlockOperator R) =>
              row_offsets o = offs /\ col_offsets o = offs /\
              blocks o 0 0 = Some (STRUMPACKSolver lib sdND_m, rone) /\
              (forall (i : nat) (interfaceIndex : Z), (i < k)%nat ->
                 sdli !! i = Some interfaceIndex ->
                 exists obj : InterfaceObjects R,
                   interfaceAt im interfaceIndex = Ok obj /\
                   blocks o (2 * Z.of_nat i + 1) (2 * Z.of_nat i + 1)
                     = Some (ScaledOperator (STRUMPACKSolver lib (ifNDmass obj)) alpha, rone) /\
                   blocks o (2 * Z.of_nat i + 2) (2 * Z.of_nat i + 2)
                     = Some (STRUMPACKSolver lib (ifH1mass obj), rone)) /\
              (forall r c A coef, blocks o r c = Some (A, coef) ->
                 r = c /\ 0 <= r <= 2 * Z.of_nat k)).
  apply (forM_indexed P) in H.
  - assert (Hlen : length (zip (seqZ 0 (Z.of_nat (length sdli))) sdli) = length sdli).
    { rewrite length_zip, length_seqZ. lia. }
    rewrite Hlen in H. destruct H as (Hr & Hc & H0 & Hset & Honly).
    split; [exact Hr|]. split; [exact Hc|]. split; [exact H0|]. split; [|exact Honly].
    intros i idx Hi. apply (Hset i idx); [|exact Hi]. apply lookup_lt_Some in Hi. exact Hi.
  - intros k [i idx] o o' Hk (Hr & Hc & H0 & Hset & Honly) Hbody.
    apply lookup_zip_with_Some in Hk as (i' & idx' & [= -> ->] & Hi & Hidx).
    apply seqZ_lookup_nat in Hi as [-> Hi].
    split_bind Hbody as obj Hobj. injection Hbody as <-.
    unfold P. cbn [row_offsets col_offsets blocks SetBlock].
    split; [exact Hr|]. split; [exact Hc|]. split; [|split].
    + destruct (Z.eqb_spec 0 (2 * Z.of_nat k + 2)); [lia|].
      destruct (Z.eqb_spec 0 (2 * Z.of_nat k + 1)); [lia|]. cbn. exact H0.
    + intros i' idx0 Hi' Hidx0. destruct (Nat.eq_dec i' k) as [->|Hne].
      * rewrite Hidx in Hidx0. injection Hidx0 as <-. exists obj.
        split; [exact Hobj|]. rewrite !Z.eqb_refl. cbn.
        destruct (Z.eqb_spec (2 * Z.of_nat k + 1) (2 * Z.of_nat k + 2)); [lia|].
        cbn. split; reflexivity.
      * destruct (Hset i' idx0 ltac:(lia) Hidx0) as (obj' & H1 & H2 & H3).
        exists obj'. split; [exact H1|].
        destruct (Z.eqb_spec (2 * Z.of_nat i' + 1) (2 * Z.of_nat k + 2)); [lia|].
        destruct (Z.eqb_spec (2 * Z.of_nat i' + 1) (2 * Z.of_nat k + 1)); [lia|].
        destruct (Z.eqb_spec (2 * Z.of_nat i' + 2) (2 * Z.of_nat k + 2)); [lia|].
        destruct (Z.eqb_spec (2 * Z.of_nat i' + 2) (2 * Z.of_nat k + 1)); [lia|].
        cbn. split; assumption.
    + intros r c A coef Hb.
      destruct (Z.eqb_spec r (2 * Z.of_nat k + 2)), (Z.eqb_spec c (2 * Z.of_nat k + 2));
        cbn in Hb; try lia;
        destruct (Z.eqb_spec r (2 * Z.of_nat k + 1)), (Z.eqb_spec c (2 * Z.of_nat k + 1));
        cbn in Hb; try lia;
        destruct (Honly r c A coef Hb); lia.
  - unfold P. cbn. split; [reflexivity|]. split; [reflexivity|]. split; [reflexivity|].
    split; [intros i idx Hi; lia|].
    intros r c A coef Hb.
    destruct (Z.eqb_spec r 0), (Z.eqb_spec c 0); cbn in Hb; try discriminate. lia.
Qed.

(** What the second loop over the subdomains leaves at each index. *)
Lemma subdomainLoop_objects (im : InterfaceMembers R) (sm : SurfaceMembers R)
    (sd : SubdomainMembers R) :
  subdomainLoop lib args im sm = Ok sd ->
  length (subdomainObjects sd) = Z.to_nat (numSubdomains args) /\
  forall m : nat, (m < Z.to_nat (numSubdomains args))%nat ->
    exists pm, pmeshSD args !! m = Some pm /\
      match pm with
      | None => subdomainObjects sd !! m = Some None /\ tdofsBdry sd !! m = Some []
      | Some _ =>
          exists fes o,
            fespace sm !! m = Some (Some fes) /\
            subdomainObjects sd !! m = Some (Some o) /\
            tdofsBdry sd !! m = Some (FindBoundaryTrueDOFs fes []) /\
            new_SetInjectionOperator (GetTrueVSize fes) (FindBoundaryTrueDOFs fes [])
              = Ok (tdofsBdryInjection o) /\
            sdND o = assemble_sdND lib fes /\
            CreateSubdomainOperator im sm (Z.of_nat m) (sdND o)
              = Ok (Asd o, trueOffsetsSD o) /\
            CreateSubdomainPreconditionerStrumpack lib im (Z.of_nat m) (sdND o)
              (trueOffsetsSD o) = Ok (precAsd o) /\
            invAsd o = GMRESSolver lib (BlockOperator_Operator (Asd o))
                         (BlockOperator_Operator (precAsd o))
      end.
Proof.
  intros H. unfold subdomainLoop in H.
  set (Q := fun (st : SubdomainMembers R) (m : nat) =>
    exists pm, pmeshSD args !! m = Some pm /\
      match pm with
      | None => subdomainObjects st !! m = Some None /\ tdofsBdry st !! m = Some []
      | Some _ =>
          exists fes o,
            fespace sm !! m = Some (Some fes) /\
            subdomainObjects st !! m = Some (Some o) /\
            tdofsBdry st !! m = Some (FindBoundaryTrueDOFs fes []) /\
            new_SetInjectionOperator (GetTrueVSize fes) (FindBoundaryTrueDOFs fes [])
              = Ok (tdofsBdryInjection o) /\
            sdND o = assemble_sdND lib fes /\
            CreateSubdomainOperator im sm (Z.of_nat m) (sdND o)
              = Ok (Asd o, trueOffsetsSD o) /\
            CreateSubdomainPreconditionerStrumpack lib im (Z.of_nat m) (sdND o)
              (trueOffsetsSD o) = Ok (precAsd o) /\
            invAsd o = GMRESSolver lib (BlockOperator_Operator (Asd o))
                         (BlockOperator_Operator (precAsd o))
      end).
  set (P := fun (k : nat) (st : SubdomainMembers R) =>
              length (subdomainObjects st) = k /\ length (tdofsBdry st) = k /\
              forall m : nat, (m < k)%nat -> Q st m).
  apply (forM_indexed P) in H.
  - rewrite length_seqZ in H. destruct H as (Hlen & _ & HQ). split; [exact Hlen|exact HQ].
  - intros k a st st' Hk (HlenO & HlenB & HQ) Hbody.
    apply seqZ_lookup_nat in Hk as [-> Hk].
    split_bind Hbody as pm Hpm. apply vecGet_Ok in Hpm as [_ Hpm].
    rewrite Nat2Z.id in Hpm.
    assert (Hold : forall (st'' : SubdomainMembers R) (x : option (SubdomainObjects R))
                     (b : list Z),
              subdomainObjects st'' = subdomainObjects st ++ [x] ->
              tdofsBdry st'' = tdofsBdry st ++ [b] ->
              forall m : nat, (m < k)%nat -> Q st'' m).
    { intros st'' x b Ho Hb m Hm. destruct (HQ m Hm) as (pm' & Hpm' & Hcase).
      exists pm'. split; [exact Hpm'|]. rewrite Ho, Hb. destruct pm' as [mesh'|].
      - destruct Hcase as (fes & o & H1 & H2 & H3 & Hrest). exists fes, o.
        split; [exact H1|]. rewrite !lookup_app_l by lia. auto.
      - rewrite !lookup_app_l by lia. exact Hcase. }
    destruct pm as [mesh|].
    + split_bind Hbody as p Hp. split_bind Hbody as fes Hfes.
      split_bind Hbody as offsets Hadd. split_bind Hbody as inj Hinj.
      split_bind Hbody as [A offs] HA. split_bind Hbody as prec Hprec.
      injection Hbody as <-.
      apply vecGet_Ok in Hp as [_ Hp]. rewrite Nat2Z.id in Hp.
      destruct p as [fes'|]; [|discriminate]. injection Hfes as ->.
      unfold P. cbn [subdomainObjects tdofsBdry].
      split; [rewrite length_app; cbn; lia|]. split; [rewrite length_app; cbn; lia|].
      intros m Hm. destruct (Nat.eq_dec m k) as [->|Hne].
      * exists (Some mesh). split; [exact Hpm|].
        eexists fes, _. split; [exact Hp|].
        cbn [subdomainObjects tdofsBdry].
        rewrite !lookup_app_r by lia. rewrite HlenO, HlenB, Nat.sub_diag.
        split; [reflexivity|]. split; [reflexivity|].
        cbn [tdofsBdryInjection sdND Asd trueOffsetsSD precAsd invAsd].
        split; [exact Hinj|]. split; [reflexivity|]. split; [exact HA|].
        split; [exact Hprec|reflexivity].
      * eapply Hold; [reflexivity|reflexivity|lia].
    + injection Hbody as <-. unfold P. cbn [subdomainObjects tdofsBdry].
      split; [rewrite length_app; cbn; lia|]. split; [rewrite length_app; cbn; lia|].
      intros m Hm. destruct (Nat.eq_dec m k) as [->|Hne].
      * exists None. split; [exact Hpm|]. cbn [subdomainObjects tdofsBdry].
        rewrite !lookup_app_r by lia. rewrite HlenO, HlenB, Nat.sub_diag.
        split; reflexivity.
      * eapply Hold; [reflexivity|reflexivity|lia].
  - unfold P. cbn. split; [reflexivity|]. split; [reflexivity|]. intros m Hm. lia.
Qed.

End SubdomainObjects.

(** Decide the tests on block indices of a goal. *)
Ltac eqb_cases :=
  repeat match goal with
         | |- context [Z.eqb ?a ?b] => destruct (Z.eqb_spec a b); try lia; cbn [andb]
         end.

Lemma subdomainObjects_created {R : Type} {sc : Scalar R} (lib : Library R)
    (args : DDMArgs) (ddm : DDMInterfaceOperator R) (m : nat) (o : SubdomainObjects R) :
  new_DDMInterfaceOperator lib args = Ok ddm ->
  subdomainObjects (subdomainMembers ddm) !! m = Some (Some o) ->
  (m < Z.to_nat (numSubdomains args))%nat /\
  exists mesh fes,
    pmeshSD args !! m = Some (Some mesh) /\
    fespace (surfaceMembers ddm) !! m = Some (Some fes) /\
    tdofsBdry (subdomainMembers ddm) !! m = Some (FindBoundaryTrueDOFs fes []) /\
    new_SetInjectionOperator (GetTrueVSize fes) (FindBoundaryTrueDOFs fes [])
      = Ok (tdofsBdryInjection o) /\
    sdND o = assemble_sdND lib fes /\
    CreateSubdomainOperator (interfaceMembers ddm) (surfaceMembers ddm) (Z.of_nat m) (sdND o)
      = Ok (Asd o, trueOffsetsSD o) /\
    CreateSubdomainPreconditionerStrumpack lib (interfaceMembers ddm) (Z.of_nat m) (sdND o)
      (trueOffsetsSD o) = Ok (precAsd o) /\
    invAsd o = GMRESSolver lib (BlockOperator_Operator (Asd o))
                 (BlockOperator_Operator (precAsd o)).
Proof.
  intros H Ho.
  destruct (new_DDMInterfaceOperator_members lib args ddm H) as (_ & _ & Hsd).
  destruct (subdomainLoop_objects lib args _ _ _ Hsd) as (Hlen & HQ).
  pose proof (lookup_lt_Some _ _ _ Ho) as Hm. rewrite Hlen in Hm.
  split; [exact Hm|].
  destruct (HQ m Hm) as (pm & Hpm & Hcase). destruct pm as [mesh|].
  - destruct Hcase as (fes & o' & H1 & H2 & Hrest).
    rewrite Ho in H2. injection H2 as <-. exists mesh, fes. auto.
  - destruct Hcase as [Hnone _]. rewrite Ho in Hnone. discriminate.
Qed.



(** X18.  The preconditioner [precAsd[m]] is block diagonal over the
    offsets of [Asd[m]]: a direct solver of the stiffness matrix at
    [(0, 0)], [alpha] times a direct solver of the interface mass matrix at
    each [f] block, a direct solver of the H1 mass matrix at each [rho]
    block, and nothing off the diagonal; every block of it sits where
    [Asd[m]] has a diagonal block.  [invAsd[m]] is GMRES on [Asd[m]] with
    this preconditioner. *)
Theorem precAsd_is_block_diagonal :
  forall (R : Type) (sc : Scalar R) (lib : Library R) (args : DDMArgs)
         (ddm : DDMInterfaceOperator R) (m : nat) (o : SubdomainObjects R),
    new_DDMInterfaceOperator lib args = Ok ddm ->
    subdomainObjects (subdomainMembers ddm) !! m = Some (Some o) ->
    let im := interfaceMembers ddm in
    let sdli := subdomainLocalInterfaces im !!! m in
    row_offsets (precAsd o) = row_offsets (Asd o) /\
    col_offsets (precAsd o) = col_offsets (Asd o) /\
    blocks (precAsd o) 0 0 = Some (STRUMPACKSolver lib (sdND o), rone) /\
    (forall (i : nat) (interfaceIndex : Z), sdli !! i = Some interfaceIndex ->
       exists obj : InterfaceObjects R,
         interfaceAt im interfaceIndex = Ok obj /\
         blocks (precAsd o) (2 * Z.of_nat i + 1) (2 * Z.of_nat i + 1)
           = Some (ScaledOperator (STRUMPACKSolver lib (ifNDmass obj)) alpha, rone) /\
         blocks (precAsd o) (2 * Z.of_nat i + 2) (2 * Z.of_nat i + 2)
           = Some (STRUMPACKSolver lib (ifH1mass obj), rone)) /\
    (forall r c A coef, blocks (precAsd o) r c = Some (A, coef) ->
       r = c /\ is_Some (blocks (Asd o) r r)) /\
    invAsd o = GMRESSolver lib (BlockOperator_Operator (Asd o))
                 (BlockOperator_Operator (precAsd o)).
Proof.
  intros R sc lib args ddm m o H Ho im sdli. subst im sdli.
  destruct (subdomainObjects_created lib args ddm m o H Ho)
    as (Hm & mesh & fes & _ & _ & _ & _ & _ & HA & HP & Hinv).
  destruct (CreateSubdomainOperator_row0 _ _ _ _ _ _ HA) as (_ & Hr & Hc & _).
  destruct (CreateSubdomainOperator_pattern _ _ _ _ _ _ HA) as (H00 & Hset & _).
  destruct (CreateSubdomainPreconditionerStrumpack_pattern lib _ _ _ _ _ HP)
    as (Hpr & Hpc & Hp00 & Hpset & Hponly).
  cbn zeta in Hset, Hpset, Hponly. rewrite Nat2Z.id in Hset, Hpset, Hponly.
  split; [congruence|]. split; [congruence|]. split; [exact Hp00|].
  split; [exact Hpset|]. split; [|exact Hinv].
  intros r c A coef Hb. destruct (Hponly r c A coef Hb) as [<- Hrange].
  split; [reflexivity|].
  destruct (Z.eq_dec r 0) as [->|Hne]; [rewrite H00; eauto|].
  assert (Hcase : exists i : nat,
            (i < length (subdomainLocalInterfaces (interfaceMembers ddm) !!! m))%nat /\
            (r = 2 * Z.of_nat i + 1 \/ r = 2 * Z.of_nat i + 2)).
  { exists (Z.to_nat ((r - 1) / 2)).
    pose proof (Z.div_mod (r - 1) 2 ltac:(lia)) as Hdm.
    pose proof (Z.mod_pos_bound (r - 1) 2 ltac:(lia)) as Hmod.
    assert (0 <= (r - 1) / 2) by (apply Z.div_pos; lia).
    split; [|rewrite Z2Nat.id by lia; lia].
    assert ((r - 1) / 2
            < Z.of_nat (length (subdomainLocalInterfaces (interfaceMembers ddm) !!! m)));
      [|lia].
    apply Z.div_lt_upper_bound; lia. }
  destruct Hcase as (i & Hi & Hri).
  destruct (lookup_lt_is_Some_2 _ i Hi) as [idx Hidx].
  destruct (Hset i idx Hidx) as (obj & inj & _ & _ & Hpos).
  destruct Hri as [-> | ->]; rewrite Hpos by (unfold interfaceBlockPosition; lia);
    rewrite subdomainInterfaceBlocks_blocks; eqb_cases; eauto.
Qed.

Lemma precAsd_is_block_diagonal_witness :
  match new_DDMInterfaceOperator cubesLibrary cubesArgs with
  | Ok ddm =>
      match subdomainObjects (subdomainMembers ddm) !! 0%nat with
      | Some (Some o) =>
          row_offsets (precAsd o) = row_offsets (Asd o) /\
          (forall r c A coef, blocks (precAsd o) r c = Some (A, coef) ->
             r = c /\ is_Some (blocks (Asd o) r r)) /\
          invAsd o = GMRESSolver cubesLibrary (BlockOperator_Operator (Asd o))
                       (BlockOperator_Operator (precAsd o))
      | _ => False
      end
  | _ => False
  end.
Proof.
  destruct (new_DDMInterfaceOperator cubesLibrary cubesArgs) as [ddm| | |] eqn:E;
    try (vm_compute in E; discriminate).
  assert (Hsome : match subdomainObjects (subdomainMembers ddm) !! 0%nat with
               | Some (Some _) => true
               | _ => false
               end = true).
  { apply (run_proj _ ddm
             (fun d => match subdomainObjects (subdomainMembers d) !! 0%nat with
                       | Some (Some _) => true
                       | _ => false
                       end) true E).
    vm_compute. reflexivity. }
  destruct (subdomainObjects (subdomainMembers ddm) !! 0%nat) as [[o|]|] eqn:Ho;
    try discriminate Hsome.
  destruct (precAsd_is_block_diagonal Z _ cubesLibrary cubesArgs ddm 0%nat o E Ho)
    as (Hr & _ & _ & _ & Honly & Hinv).
  split; [exact Hr|]. split; [exact Honly|exact Hinv].
Defined.
(** ** Which blocks the global operators have *)

Lemma sumZ_insert (l : list Z) (i : nat) (cur v : Z) :
  l !! i = Some cur -> sumZ (<[i := v]> l) = sumZ l - cur + v.
Proof.
  revert i. induction l as [|y l IH]; intros [|i] H; try discriminate.
  - cbn in H. injection H as ->. unfold sumZ. cbn. lia.
  - cbn in H. rewrite insert_cons_S. unfold sumZ in *. cbn. rewrite (IH i H). lia.
Qed.

Lemma sumZ_replicate_0 (n : nat) : sumZ (replicate n 0) = 0.
Proof.
  induction n as [|n IH]; [reflexivity|].
  unfold sumZ in *. cbn [replicate foldr]. rewrite IH. reflexivity.
Qed.

Lemma PartialSum_last_sum (l : list Z) :
  l <> [] -> last (PartialSum l) = Some (int_wrap (sumZ l)).
Proof. intros H. unfold PartialSum. rewrite PartialSum_from_last by exact H. reflexivity. Qed.

Section GlobalPresence.
Context {R : Type} {sc : Scalar R} (lib : Library R) (args : DDMArgs).

(** The last offset of [trueOffsetsSD[m]] is the true size of the
    subdomain space plus the sizes of the interfaces of the subdomain, as an
    [int]. *)
Lemma subdomainOffsets_last (im : InterfaceMembers R) (sm : SurfaceMembers R)
    (subdomain : Z) (offsets : list Z) :
  subdomainOffsets im sm subdomain = Ok offsets ->
  exists fes,
    fespace sm !! Z.to_nat subdomain = Some (Some fes) /\
    last offsets
    = Some (int_wrap (GetTrueVSize fes + interfaceSizes im (Z.to_nat subdomain))).
Proof.
  unfold subdomainOffsets. intros H.
  split_bind H as sdli Hsdli. split_bind H as p Hp. split_bind H as fes Hfes.
  split_bind H as offs0 Hoffs0. split_bind H as offs Hloop. injection H as <-.
  apply vecGet_Ok in Hsdli as [_ Hsdli]. apply vecGet_Ok in Hp as [_ Hp].
  destruct p as [fes'|]; [|discriminate]. injection Hfes as ->.
  exists fes. split; [exact Hp|].
  unfold interfaceSizes. rewrite (list_lookup_total_correct _ _ _ Hsdli).
  apply vecSet_Ok in Hoffs0 as [Hr0 ->].
  set (n := length sdli) in *.
  set (P := fun (k : nat) (o : list Z) =>
              length o = S (S (2 * n)) /\
              eqm32 (sumZ o)
                (GetTrueVSize fes + sumZ (map (interfaceSizeAt im) (take k sdli)))).
  apply (forM_indexed P) in Hloop.
  - destruct Hloop as [Hlen Hsum].
    rewrite PartialSum_last_sum by (intros ->; discriminate).
    rewrite length_zip, length_seqZ in Hsum.
    replace (Z.to_nat (Z.of_nat n) `min` length sdli)%nat with (length sdli) in Hsum
      by (unfold n; lia).
    rewrite firstn_all in Hsum. f_equal. exact Hsum.
  - intros k [i idx] o o' Hk [Hlen Hsum] Hbody.
    apply lookup_zip_with_Some in Hk as (i' & idx' & [= -> ->] & Hi & Hidx).
    split_bind Hbody as q Hq. destruct q as [obj|]; [|discriminate].
    split_bind Hbody as o1 Hadd1.
    apply addAt_Ok in Hadd1 as (_ & cur1 & Hcur1 & ->).
    apply addAt_Ok in Hbody as (_ & cur2 & Hcur2 & ->).
    unfold P. split; [rewrite !length_insert; exact Hlen|].
    rewrite (sumZ_insert _ _ _ _ Hcur2), (sumZ_insert _ _ _ _ Hcur1).
    assert (Hsz : interfaceSizeAt im idx'
                  = GetTrueVSize (ifespace obj) + GetTrueVSize (iH1fespace obj))
      by (unfold interfaceSizeAt; now rewrite Hq).
    rewrite (take_S_r _ _ _ Hidx), map_app. cbn [map]. rewrite sumZ_snoc, Hsz.
    unfold eqm32 in *.
    transitivity (int_wrap (sumZ o + (GetTrueVSize (ifespace obj)
                                      + GetTrueVSize (iH1fespace obj)))); [int_ring|].
    rewrite (Hsum : eqm32 _ _). f_equal. lia.
  - unfold P. split.
    + rewrite length_insert, length_replicate. unfold n. lia.
    + rewrite take_0. cbn [map]. change (sumZ []) with 0.
      rewrite (sumZ_insert _ _ 0).
      * rewrite sumZ_replicate_0. unfold eqm32. f_equal. lia.
      * apply lookup_replicate_2. rewrite length_replicate in Hr0. lia.
Qed.

Lemma globalSubdomainLoop_present (im : InterfaceMembers R) (sm : SurfaceMembers R)
    (sd : SubdomainMembers R) (offsets : list Z) (S : BlockOperator R) :
  globalSubdomainLoop args im sm sd offsets = Ok S ->
  forall (m : nat) (o : SubdomainObjects R),
    (m < Z.to_nat (numSubdomains args))%nat ->
    subdomainObjects sd !! m = Some (Some o) ->
    exists inj,
      subdomainInjection im sm sd (Z.of_nat m) o = Ok inj /\
      blocks S (Z.of_nat m) (Z.of_nat m) = Some (subdomainBlock inj o, rone).
Proof.
  intros H. unfold globalSubdomainLoop in H.
  set (P := fun (k : nat) (op : BlockOperator R) =>
              forall (m : nat) (o : SubdomainObjects R), (m < k)%nat ->
                subdomainObjects sd !! m = Some (Some o) ->
                exists inj,
                  subdomainInjection im sm sd (Z.of_nat m) o = Ok inj /\
                  blocks op (Z.of_nat m) (Z.of_nat m) = Some (subdomainBlock inj o, rone)).
  apply (forM_indexed P) in H.
  - rewrite length_seqZ in H. exact H.
  - intros k a op op' Hk HP Hbody. apply seqZ_lookup_nat in Hk as [-> Hk].
    split_bind Hbody as p Hp. apply vecGet_Ok in Hp as [_ Hp]. rewrite Nat2Z.id in Hp.
    intros m o Hm Ho. destruct (Nat.eq_dec m k) as [->|Hne].
    + rewrite Hp in Ho. injection Ho as ->.
      split_bind Hbody as inj Hinj. injection Hbody as <-.
      exists inj. split; [exact Hinj|]. cbn. rewrite Z.eqb_refl. reflexivity.
    + destruct (HP m o ltac:(lia) Ho) as (inj & Hinj & Hb).
      exists inj. split; [exact Hinj|].
      destruct p as [o'|].
      * split_bind Hbody as inj' Hinj'. injection Hbody as <-. cbn.
        destruct (Z.eqb_spec (Z.of_nat m) (Z.of_nat k)); [lia|]. exact Hb.
      * injection Hbody as <-. exact Hb.
  - intros m o Hm. lia.
Qed.

Lemma globalInterfaceLoop_present (im : InterfaceMembers R) (sm : SurfaceMembers R)
    (sd : SubdomainMembers R) (offsets : list Z) (C : BlockOperator R)
    (arrays : list InterfaceOffsets) :
  globalInterfaceLoop args im sm sd offsets = Ok (C, arrays) ->
  forall (l : nat) (li : SubdomainInterface),
    localInterfaces args !! l = Some li ->
    is_Some (blocks C (FirstSubdomain li) (SecondSubdomain li)) /\
    is_Some (blocks C (SecondSubdomain li) (FirstSubdomain li)).
Proof.
  intros H l li Hli.
  destruct (globalInterfaceLoop_run args im sm sd offsets C arrays H)
    as (_ & _ & _ & Hall & _).
  destruct (Hall l li Hli) as (_ & H1 & H2 & _). split; assumption.
Qed.

End GlobalPresence.

(** X19.  After a construction that succeeds, [globalSubdomainOp] has a
    diagonal block exactly for the subdomains that have a mesh, and
    [globalInterfaceOp] has, for every local interface, a block at
    [(sd0, sd1)] and one at [(sd1, sd0)], and none on its diagonal. *)
Theorem global_operators_block_presence :
  forall (R : Type) (sc : Scalar R) (lib : Library R) (args : DDMArgs)
         (ddm : DDMInterfaceOperator R),
    new_DDMInterfaceOperator lib args = Ok ddm ->
    (forall m : nat, (m < Z.to_nat (numSubdomains args))%nat ->
       (is_Some (blocks (globalSubdomainOp ddm) (Z.of_nat m) (Z.of_nat m)) <->
        exists mesh, pmeshSD args !! m = Some (Some mesh))) /\
    (forall (l : nat) (li : SubdomainInterface),
       localInterfaces args !! l = Some li ->
       is_Some (blocks (globalInterfaceOp ddm) (FirstSubdomain li) (SecondSubdomain li)) /\
       is_Some (blocks (globalInterfaceOp ddm) (SecondSubdomain li) (FirstSubdomain li))) /\
    (forall m : Z, blocks (globalInterfaceOp ddm) m m = None).
Proof.
  intros R sc lib args ddm H.
  destruct (new_DDMInterfaceOperator_Ok lib args ddm H)
    as (Hn & im & sm & sd & Him & Hsm & Hsd & Hver & C & arrays & S & HC & HS & ->).
  cbn [globalSubdomainOp globalInterfaceOp].
  destruct (subdomainLoop_objects lib args _ _ _ Hsd) as (Hlen & HQ).
  split; [|split].
  - intros m Hm. destruct (HQ m Hm) as (pm & Hpm & Hcase). split.
    + intros [[A c] Hb].
      destruct (globalSubdomainLoop_blocks args im sm sd _ S HS) as (_ & _ & HSb).
      destruct (HSb _ _ _ _ Hb) as (_ & _ & o & inj & Ho & _).
      unfold subdomainAt in Ho. split_bind Ho as p Hp.
      apply vecGet_Ok in Hp as [_ Hp]. rewrite Nat2Z.id in Hp.
      destruct p as [o'|]; [|discriminate].
      destruct pm as [mesh|]; [eauto|]. destruct Hcase as [Hnone _]. congruence.
    + intros (mesh & Hmesh). rewrite Hpm in Hmesh. injection Hmesh as ->.
      destruct Hcase as (fes & o & _ & Ho & _).
      destruct (globalSubdomainLoop_present args im sm sd _ S HS m o Hm Ho) as (inj & _ & Hb).
      rewrite Hb. eauto.
  - exact (globalInterfaceLoop_present args im sm sd _ C arrays HC).
  - intros m. destruct (blocks C m m) as [[A c]|] eqn:Hb; [|reflexivity]. exfalso.
    destruct (globalInterfaceLoop_run args im sm sd _ C arrays HC)
      as (_ & _ & _ & _ & HCb).
    destruct (HCb _ _ _ _ Hb)
      as (_ & l & li & w0 & c01 & w1 & c10 & _ & Hlt & _ & _ & _ & Hcase).
    destruct Hcase as [(E1 & E2 & _)|(E1 & E2 & _)]; lia.
Qed.

Lemma global_operators_block_presence_witness :
  match new_DDMInterfaceOperator cubesLibrary cubesArgs with
  | Ok ddm =>
      (forall m : nat, (m < Z.to_nat (numSubdomains cubesArgs))%nat ->
         (is_Some (blocks (globalSubdomainOp ddm) (Z.of_nat m) (Z.of_nat m)) <->
          exists mesh, pmeshSD cubesArgs !! m = Some (Some mesh))) /\
      (forall (l : nat) (li : SubdomainInterface),
         localInterfaces cubesArgs !! l = Some li ->
         is_Some (blocks (globalInterfaceOp ddm) (FirstSubdomain li) (SecondSubdomain li)) /\
         is_Some (blocks (globalInterfaceOp ddm) (SecondSubdomain li) (FirstSubdomain li))) /\
      (forall m : Z, blocks (globalInterfaceOp ddm) m m = None)
  | _ => False
  end.
Proof.
  destruct (new_DDMInterfaceOperator cubesLibrary cubesArgs) as [ddm| | |] eqn:E;
    try (vm_compute in E; discriminate).
  exact (global_operators_block_presence Z _ cubesLibrary cubesArgs ddm E).
Defined.

(** X20.  The three factors of the block of [globalSubdomainOp] for a
    subdomain with a mesh compose: the block is [inj^T invAsd inj] with
    [inj] the block injection of the subdomain, and the height of [inj] is
    the size of [Asd[m]] and of [precAsd[m]], the true size of the
    subdomain space plus the sizes of its interfaces, added as [int]s. *)
Theorem subdomain_block_factors_compose :
  forall (R : Type) (sc : Scalar R) (lib : Library R) (args : DDMArgs)
         (ddm : DDMInterfaceOperator R) (m : nat) (o : SubdomainObjects R),
    new_DDMInterfaceOperator lib args = Ok ddm ->
    subdomainObjects (subdomainMembers ddm) !! m = Some (Some o) ->
    exists (inj : BlockOperator R) (fes : ParFiniteElementSpace),
      fespace (surfaceMembers ddm) !! m = Some (Some fes) /\
      subdomainInjection (interfaceMembers ddm) (surfaceMembers ddm)
        (subdomainMembers ddm) (Z.of_nat m) o = Ok inj /\
      blocks (globalSubdomainOp ddm) (Z.of_nat m) (Z.of_nat m)
        = Some (TripleProductOperator (TransposeOperator (BlockOperator_Operator inj))
                  (invAsd o) (BlockOperator_Operator inj), rone) /\
      Height (BlockOperator_Operator inj)
        = int_wrap (GetTrueVSize fes + interfaceSizes (interfaceMembers ddm) m) /\
      Height (BlockOperator_Operator (Asd o)) = Height (BlockOperator_Operator inj) /\
      Width (BlockOperator_Operator (Asd o)) = Height (BlockOperator_Operator inj) /\
      Height (BlockOperator_Operator (precAsd o)) = Height (BlockOperator_Operator inj) /\
      Width (BlockOperator_Operator (precAsd o)) = Height (BlockOperator_Operator inj).
Proof.
  intros R sc lib args ddm m o H Ho.
  destruct (subdomainObjects_created lib args ddm m o H Ho)
    as (Hm & mesh & fes & _ & Hfes & _ & _ & _ & HA & HP & _).
  destruct (new_DDMInterfaceOperator_Ok lib args ddm H)
    as (Hn & im & sm & sd & Him & Hsm & Hsd & Hver & C & arrays & S & HC & HS & Hddm).
  assert (E1 : interfaceMembers ddm = im) by (rewrite Hddm; reflexivity).
  assert (E2 : surfaceMembers ddm = sm) by (rewrite Hddm; reflexivity).
  assert (E3 : subdomainMembers ddm = sd) by (rewrite Hddm; reflexivity).
  assert (E4 : globalSubdomainOp ddm = S) by (rewrite Hddm; reflexivity).
  rewrite E1, E2, E3, E4 in *.
  destruct (globalSubdomainLoop_present args im sm sd _ S HS m o Hm Ho) as (inj & Hinj & Hb).
  destruct (subdomainInjection_dims im sm sd _ o inj Hinj) as (fes' & _ & Hfes' & Hh & _).
  rewrite Nat2Z.id in Hfes', Hh. rewrite Hfes in Hfes'. injection Hfes' as <-.
  destruct (CreateSubdomainOperator_row0 _ _ _ _ _ _ HA) as (Hoffs & Hr & Hc & _).
  destruct (subdomainOffsets_last _ _ _ _ Hoffs) as (fes'' & Hfes'' & Hlast).
  rewrite Nat2Z.id in Hfes'', Hlast. rewrite Hfes in Hfes''. injection Hfes'' as <-.
  destruct (CreateSubdomainPreconditionerStrumpack_pattern lib _ _ _ _ _ HP)
    as (Hpr & Hpc & _).
  exists inj, fes. split; [exact Hfes|]. split; [exact Hinj|]. split; [exact Hb|].
  split; [exact Hh|].
  unfold BlockOperator_Operator at 1 3 5 7. cbn [Height Width].
  rewrite Hr, Hc, Hpr, Hpc, Hlast, Hh. cbn. auto.
Qed.

Lemma subdomain_block_factors_compose_witness :
  match new_DDMInterfaceOperator cubesLibrary cubesArgs with
  | Ok ddm =>
      match subdomainObjects (subdomainMembers ddm) !! 1%nat with
      | Some (Some o) =>
          exists (inj : BlockOperator Z) (fes : ParFiniteElementSpace),
            fespace (surfaceMembers ddm) !! 1%nat = Some (Some fes) /\
            subdomainInjection (interfaceMembers ddm) (surfaceMembers ddm)
              (subdomainMembers ddm) (Z.of_nat 1) o = Ok inj /\
            blocks (globalSubdomainOp ddm) (Z.of_nat 1) (Z.of_nat 1)
              = Some (TripleProductOperator (TransposeOperator (BlockOperator_Operator inj))
                        (invAsd o) (BlockOperator_Operator inj), rone) /\
            Height (BlockOperator_Operator inj)
              = int_wrap (GetTrueVSize fes + interfaceSizes (interfaceMembers ddm) 1) /\
            Height (BlockOperator_Operator (Asd o)) = Height (BlockOperator_Operator inj) /\
            Width (BlockOperator_Operator (Asd o)) = Height (BlockOperator_Operator inj) /\
            Height (BlockOperator_Operator (precAsd o))
              = Height (BlockOperator_Operator inj) /\
            Width (BlockOperator_Operator (precAsd o))
              = Height (BlockOperator_Operator inj)
      | _ => False
      end
  | _ => False
  end.
Proof.
  destruct (new_DDMInterfaceOperator cubesLibrary cubesArgs) as [ddm| | |] eqn:E;
    try (vm_compute in E; discriminate).
  assert (Hsome : match subdomainObjects (subdomainMembers ddm) !! 1%nat with
                  | Some (Some _) => true
                  | _ => false
                  end = true).
  { apply (run_proj _ ddm
             (fun d => match subdomainObjects (subdomainMembers d) !! 1%nat with
                       | Some (Some _) => true
                       | _ => false
                       end) true E).
    vm_compute. reflexivity. }
  destruct (subdomainObjects (subdomainMembers ddm) !! 1%nat) as [[o|]|] eqn:Ho;
    try discriminate Hsome.
  exact (subdomain_block_factors_compose Z _ cubesLibrary cubesArgs ddm 1%nat o E Ho).
Defined.
(** ** The surface injections of the constructor *)

Section SurfaceInjections.
Context {R : Type} {sc : Scalar R} (lib : Library R) (args : DDMArgs).

(** What the first loop over the subdomains stores for the [i]-th
    interface, of index [interfaceIndex], of subdomain [m]. *)
Lemma surfaceInnerLoop_injections (im : InterfaceMembers R) (m : Z)
    (fespace_m : option ParFiniteElementSpace) (sdli : list Z) (size : Z) (offsets : list Z)
    (size' : Z) (offsets' : list Z) (injs : list (Operator R)) (datas : list (list Z)) :
  surfaceInnerLoop lib args im m fespace_m sdli size offsets
    = Ok (size', offsets', injs, datas) ->
  length injs = length sdli /\ length datas = length sdli /\
  forall (i : nat) (interfaceIndex : Z), sdli !! i = Some interfaceIndex ->
    exists obj fes ifli li data inj,
      interfaceAt im interfaceIndex = Ok obj /\
      fespace_m = Some fes /\
      interfaceLocalIndex args !! Z.to_nat interfaceIndex = Some ifli /\ 0 <= ifli /\
      localInterfaces args !! Z.to_nat ifli = Some li /\
      SetInterfaceToSurfaceDOFMap (ifespace obj) fes (pmesh args) (m + 1) (faces li)
        (fecbdry lib) = Ok data /\
      new_InjectionOperator (GetTrueVSize fes) (ifespace obj)
        (new_ParGridFunction lib (ifespace obj)) data = Ok inj /\
      injs !! i = Some inj /\ datas !! i = Some data.
Proof.
  intros H. unfold surfaceInnerLoop in H.
  set (P := fun (k : nat) (st : Z * list Z * list (Operator R) * list (list Z)) =>
              length st.1.2 = k /\ length st.2 = k /\
              forall (i : nat) (interfaceIndex : Z), (i < k)%nat ->
                sdli !! i = Some interfaceIndex ->
                exists obj fes ifli li data inj,
                  interfaceAt im interfaceIndex = Ok obj /\
                  fespace_m = Some fes /\
                  interfaceLocalIndex args !! Z.to_nat interfaceIndex = Some ifli /\
                  0 <= ifli /\
                  localInterfaces args !! Z.to_nat ifli = Some li /\
                  SetInterfaceToSurfaceDOFMap (ifespace obj) fes (pmesh args) (m + 1)
                    (faces li) (fecbdry lib) = Ok data /\
                  new_InjectionOperator (GetTrueVSize fes) (ifespace obj)
                    (new_ParGridFunction lib (ifespace obj)) data = Ok inj /\
                  st.1.2 !! i = Some inj /\ st.2 !! i = Some data).
  apply (forM_indexed P) in H.
  - destruct H as (H1 & H2 & H3). cbn [fst snd] in H1, H2, H3.
    split; [exact H1|]. split; [exact H2|].
    intros i idx Hi. apply (H3 i idx); [|exact Hi]. apply lookup_lt_Some in Hi. exact Hi.
  - intros k idx [[[sz offs] ijs] ds] st' Hk (Hl1 & Hl2 & Hprev) Hbody.
    cbn [fst snd] in Hl1, Hl2, Hprev.
    split_bind Hbody as obj Hobj. split_bind Hbody as o1 Ho1. split_bind Hbody as o2 Ho2.
    split_bind Hbody as ifli Hifli. split_bind Hbody as u Hver.
    split_bind Hbody as li Hli. split_bind Hbody as fes Hfes.
    split_bind Hbody as data Hdata. split_bind Hbody as inj Hinj.
    injection Hbody as <-. unfold P. cbn [fst snd].
    apply vecGet_Ok in Hifli as [_ Hifli]. apply vecGet_Ok in Hli as [_ Hli].
    apply MFEM_VERIFY_Ok in Hver. apply Z.geb_le in Hver.
    destruct fespace_m as [fes'|]; [|discriminate]. injection Hfes as ->.
    split; [rewrite length_app; cbn; lia|]. split; [rewrite length_app; cbn; lia|].
    intros i idx0 Hi Hidx0. destruct (Nat.eq_dec i k) as [->|Hne].
    + rewrite Hk in Hidx0. injection Hidx0 as <-.
      exists obj, fes, ifli, li, data, inj.
      rewrite !lookup_app_r by lia. rewrite Hl1, Hl2, Nat.sub_diag. cbn.
      repeat split; try assumption; reflexivity.
    + destruct (Hprev i idx0 ltac:(lia) Hidx0)
        as (obj' & fes'' & ifli' & li' & data' & inj' & G1 & G2 & G3 & G4 & G5 & G6 & G7
            & G8 & G9).
      exists obj', fes'', ifli', li', data', inj'.
      rewrite !lookup_app_l by lia. repeat split; assumption.
  - unfold P. cbn. split; [reflexivity|]. split; [reflexivity|]. intros i idx Hi. lia.
Qed.

Lemma surfaceLoop_injections (im : InterfaceMembers R) (sm : SurfaceMembers R) :
  surfaceLoop lib args im = Ok sm ->
  forall m : nat, (m < Z.to_nat (numSubdomains args))%nat ->
    exists pm sdli injs datas,
      pmeshSD args !! m = Some pm /\
      fespace sm !! m = Some (fec_Space lib <$> pm) /\
      subdomainLocalInterfaces im !! m = Some sdli /\
      InterfaceToSurfaceInjection sm !! m = Some injs /\
      InterfaceToSurfaceInjectionData sm !! m = Some datas /\
      length injs = length sdli /\ length datas = length sdli /\
      forall (i : nat) (interfaceIndex : Z), sdli !! i = Some interfaceIndex ->
        exists obj fes ifli li data inj,
          interfaceAt im interfaceIndex = Ok obj /\
          fec_Space lib <$> pm = Some fes /\
          interfaceLocalIndex args !! Z.to_nat interfaceIndex = Some ifli /\ 0 <= ifli /\
          localInterfaces args !! Z.to_nat ifli = Some li /\
          SetInterfaceToSurfaceDOFMap (ifespace obj) fes (pmesh args) (Z.of_nat m + 1)
            (faces li) (fecbdry lib) = Ok data /\
          new_InjectionOperator (GetTrueVSize fes) (ifespace obj)
            (new_ParGridFunction lib (ifespace obj)) data = Ok inj /\
          injs !! i = Some inj /\ datas !! i = Some data.
Proof.
  intros H. unfold surfaceLoop in H.
  set (Q := fun (st : SurfaceMembers R) (m : nat) =>
    exists pm sdli injs datas,
      pmeshSD args !! m = Some pm /\
      fespace st !! m = Some (fec_Space lib <$> pm) /\
      subdomainLocalInterfaces im !! m = Some sdli /\
      InterfaceToSurfaceInjection st !! m = Some injs /\
      InterfaceToSurfaceInjectionData st !! m = Some datas /\
      length injs = length sdli /\ length datas = length sdli /\
      forall (i : nat) (interfaceIndex : Z), sdli !! i = Some interfaceIndex ->
        exists obj fes ifli li data inj,
          interfaceAt im interfaceIndex = Ok obj /\
          fec_Space lib <$> pm = Some fes /\
          interfaceLocalIndex args !! Z.to_nat interfaceIndex = Some ifli /\ 0 <= ifli /\
          localInterfaces args !! Z.to_nat ifli = Some li /\
          SetInterfaceToSurfaceDOFMap (ifespace obj) fes (pmesh args) (Z.of_nat m + 1)
            (faces li) (fecbdry lib) = Ok data /\
          new_InjectionOperator (GetTrueVSize fes) (ifespace obj)
            (new_ParGridFunction lib (ifespace obj)) data = Ok inj /\
          injs !! i = Some inj /\ datas !! i = Some data).
  set (P := fun (k : nat) (st : SurfaceMembers R) =>
              length (fespace st) = k /\ length (InterfaceToSurfaceInjection st) = k /\
              length (InterfaceToSurfaceInjectionData st) = k /\
              forall m : nat, (m < k)%nat -> Q st m).
  apply (forM_indexed P) in H.
  - rewrite length_seqZ in H. destruct H as (_ & _ & _ & HQ). exact HQ.
  - intros k a st st' Hk (Hl1 & Hl2 & Hl3 & HQ) Hbody.
    apply seqZ_lookup_nat in Hk as [-> Hk].
    split_bind Hbody as sdli_m Hs. split_bind Hbody as pm Hpm.
    split_bind Hbody as [[[size offsets] injs] datas] Hinner. injection Hbody as <-.
    apply vecGet_Ok in Hs as [_ Hs]. apply vecGet_Ok in Hpm as [_ Hpm].
    rewrite Nat2Z.id in Hs, Hpm.
    apply surfaceInnerLoop_injections in Hinner as (Hli & Hld & Hfacts).
    unfold P. cbn [fespace InterfaceToSurfaceInjection InterfaceToSurfaceInjectionData].
    rewrite !length_app. cbn [length].
    split; [lia|]. split; [lia|]. split; [lia|].
    intros m Hm. destruct (Nat.eq_dec m k) as [->|Hne].
    + exists pm, sdli_m, injs, datas.
      cbn [fespace InterfaceToSurfaceInjection InterfaceToSurfaceInjectionData].
      rewrite !lookup_app_r by lia. rewrite Hl1, Hl2, Hl3, Nat.sub_diag. cbn.
      repeat split; try assumption; try reflexivity.
    + destruct (HQ m ltac:(lia)) as (pm' & sdli' & injs' & datas' & G1 & G2 & G3 & G4 & G5
                                      & G6 & G7 & G8).
      exists pm', sdli', injs', datas'.
      cbn [fespace InterfaceToSurfaceInjection InterfaceToSurfaceInjectionData].
      rewrite !lookup_app_l by lia. repeat split; assumption.
  - unfold P. cbn. repeat split; try reflexivity. intros m Hm. lia.
Qed.

End SurfaceInjections.

(** X21.  After a construction that succeeds, the surface injection
    [InterfaceToSurfaceInjection[m][i]] of the [i]-th interface of
    subdomain [m] is the [InjectionOperator] over the table that
    [SetInterfaceToSurfaceDOFMap] returns for the Nedelec space of that
    interface, the space of the subdomain, the attribute [m + 1] and the
    faces of the local interface; the table is kept in
    [InterfaceToSurfaceInjectionData[m][i]].  Its height is the true size
    of the subdomain space and its width that of the interface space. *)
Theorem surface_injections_use_the_dof_map :
  forall (R : Type) (sc : Scalar R) (lib : Library R) (args : DDMArgs)
         (ddm : DDMInterfaceOperator R) (m i : nat) (interfaceIndex : Z),
    new_DDMInterfaceOperator lib args = Ok ddm ->
    (m < Z.to_nat (numSubdomains args))%nat ->
    (subdomainLocalInterfaces (interfaceMembers ddm) !!! m) !! i = Some interfaceIndex ->
    exists (obj : InterfaceObjects R) (fes : ParFiniteElementSpace) (ifli : Z)
           (li : SubdomainInterface) (data : list Z) (inj : Operator R),
      interfaceAt (interfaceMembers ddm) interfaceIndex = Ok obj /\
      fespace (surfaceMembers ddm) !! m = Some (Some fes) /\
      interfaceLocalIndex args !! Z.to_nat interfaceIndex = Some ifli /\ 0 <= ifli /\
      localInterfaces args !! Z.to_nat ifli = Some li /\
      SetInterfaceToSurfaceDOFMap (ifespace obj) fes (pmesh args) (Z.of_nat m + 1)
        (faces li) (fecbdry lib) = Ok data /\
      (InterfaceToSurfaceInjectionData (surfaceMembers ddm) !!! m) !! i = Some data /\
      (InterfaceToSurfaceInjection (surfaceMembers ddm) !!! m) !! i = Some inj /\
      length data = Z.to_nat (GetVSize (ifespace obj)) /\
      Height inj = GetTrueVSize fes /\ Width inj = GetTrueVSize (ifespace obj) /\
      Width inj <= Height inj /\
      (forall x, Mult inj x
                 = InjectionOperator_Mult (GetTrueVSize fes) (GetVSize (ifespace obj)) data
                     (new_ParGridFunction lib (ifespace obj)) x) /\
      (forall x, MultTranspose inj x
                 = InjectionOperator_MultTranspose (GetVSize (ifespace obj)) data
                     (new_ParGridFunction lib (ifespace obj)) x).
Proof.
  intros R sc lib args ddm m i idx H Hm Hi.
  destruct (new_DDMInterfaceOperator_members lib args ddm H) as (_ & Hsm & _).
  destruct (surfaceLoop_injections lib args _ _ Hsm m Hm)
    as (pm & sdli & injs & datas & Hpm & Hfes & Hsdli & Hinjs & Hdatas & _ & _ & Hfacts).
  rewrite (list_lookup_total_correct _ _ _ Hsdli) in Hi.
  destruct (Hfacts i idx Hi)
    as (obj & fes & ifli & li & data & inj & G1 & G2 & G3 & G4 & G5 & G6 & G7 & G8 & G9).
  exists obj, fes, ifli, li, data, inj.
  rewrite (list_lookup_total_correct _ _ _ Hinjs), (list_lookup_total_correct _ _ _ Hdatas).
  rewrite G2 in Hfes.
  split; [exact G1|]. split; [exact Hfes|]. split; [exact G3|]. split; [exact G4|].
  split; [exact G5|]. split; [exact G6|]. split; [exact G9|]. split; [exact G8|].
  split.
  { unfold SetInterfaceToSurfaceDOFMap in G6. split_bind G6 as t Ht. injection G6 as <-.
    apply SetInterfaceToSurfaceDOFMap_run_inv in Ht as [_ Hlen]. exact Hlen. }
  unfold new_InjectionOperator in G7. split_bind G7 as u Hu. injection G7 as <-.
  apply MFEM_VERIFY_Ok in Hu. apply Z.geb_le in Hu. cbn.
  repeat split; try reflexivity. exact Hu.
Qed.

Lemma surface_injections_use_the_dof_map_witness :
  match new_DDMInterfaceOperator cubesLibrary cubesArgs with
  | Ok ddm =>
      exists (obj : InterfaceObjects Z) (fes : ParFiniteElementSpace) (data : list Z)
             (inj : Operator Z),
        SetInterfaceToSurfaceDOFMap (ifespace obj) fes (pmesh cubesArgs) (Z.of_nat 1 + 1)
          [2] (fecbdry cubesLibrary) = Ok data /\
        (InterfaceToSurfaceInjection (surfaceMembers ddm) !!! 1%nat) !! 0%nat = Some inj /\
        Height inj = GetTrueVSize fes /\ Width inj = GetTrueVSize (ifespace obj)
  | _ => False
  end.
Proof.
  destruct (new_DDMInterfaceOperator cubesLibrary cubesArgs) as [ddm| | |] eqn:E;
    try (vm_compute in E; discriminate).
  destruct (surface_injections_use_the_dof_map Z _ cubesLibrary cubesArgs ddm 1%nat 0%nat 0 E)
    as (obj & fes & ifli & li & data & inj & _ & _ & Hifli & _ & Hli & Hdata & _ & Hinj
        & _ & Hh & Hw & _).
  - cbn. lia.
  - apply (run_proj _ ddm
             (fun d => (subdomainLocalInterfaces (interfaceMembers d) !!! 1%nat) !! 0%nat)
             (Some 0) E).
    vm_compute. reflexivity.
  - cbn in Hifli. injection Hifli as <-. cbn in Hli. injection Hli as <-.
    exists obj, fes, data, inj. cbn [faces] in Hdata. auto.
Defined.
(** ** Matching the edges and the vertices of a face *)

Lemma edgesMatch_two (ifMesh sdMesh : ParMesh) (a b c d : Z) :
  edgesMatch ifMesh sdMesh [a; b] [c; d]
  = Ok (verticesEqual vertexTol (GetVertex ifMesh a) (GetVertex sdMesh c)
        && verticesEqual vertexTol (GetVertex ifMesh b) (GetVertex sdMesh d)).
Proof.
  unfold edgesMatch. change (seqZ 0 2) with [0; 1]. cbn [forM].
  change (vecGet [a; b] 0) with (Ok a). change (vecGet [c; d] 0) with (Ok c).
  change (vecGet [a; b] 1) with (Ok b). change (vecGet [c; d] 1) with (Ok d).
  cbn [mbind Res_bind].
  destruct (verticesEqual vertexTol (GetVertex ifMesh a) (GetVertex sdMesh c));
    cbn [mbind Res_bind];
    destruct (verticesEqual vertexTol (GetVertex ifMesh b) (GetVertex sdMesh d));
    reflexivity.
Qed.

(** The scan of the edges of the subdomain face for the one that matches an
    edge of the interface element. *)
Lemma edgeScan_unique (ifMesh sdMesh : ParMesh) (ifVert : list Z) (sdEdge : list Z)
    (sd_k : Z) :
  forM
    (fun sd_k k =>
       sdEdge_k ← vecGet sdEdge k;
       let sdVert := GetEdgeVertices sdMesh sdEdge_k in
       _ ← MFEM_VERIFY (length sdVert =? 2)%nat;
       m ← edgesMatch ifMesh sdMesh ifVert sdVert;
       if (m : bool) then
         _ ← MFEM_VERIFY (sd_k =? -1);
         Ok k
       else Ok sd_k)
    (seqZ 0 (Z.of_nat (length sdEdge))) (-1) = Ok sd_k ->
  0 <= sd_k ->
  exists e,
    sdEdge !! Z.to_nat sd_k = Some e /\
    edgesMatch ifMesh sdMesh ifVert (GetEdgeVertices sdMesh e) = Ok true /\
    forall (k' : nat) e', sdEdge !! k' = Some e' ->
      edgesMatch ifMesh sdMesh ifVert (GetEdgeVertices sdMesh e') = Ok true ->
      k' = Z.to_nat sd_k.
Proof.
  intros H Hge.
  set (P := fun (n : nat) (s : Z) =>
    (s = -1 /\
     forall (k : nat) e, (k < n)%nat -> sdEdge !! k = Some e ->
       edgesMatch ifMesh sdMesh ifVert (GetEdgeVertices sdMesh e) <> Ok true) \/
    (0 <= s < Z.of_nat n /\
     exists e, sdEdge !! Z.to_nat s = Some e /\
       edgesMatch ifMesh sdMesh ifVert (GetEdgeVertices sdMesh e) = Ok true /\
       forall (k : nat) e', (k < n)%nat -> sdEdge !! k = Some e' ->
         edgesMatch ifMesh sdMesh ifVert (GetEdgeVertices sdMesh e') = Ok true ->
         k = Z.to_nat s)).
  apply (forM_indexed P) in H.
  - rewrite length_seqZ, Nat2Z.id in H. destruct H as [[-> _]|[Hr (e & He & Hm & Hu)]]; [lia|].
    exists e. split; [exact He|]. split; [exact Hm|].
    intros k' e' Hk' Hm'. apply (Hu k' e'); [|exact Hk'|exact Hm'].
    apply lookup_lt_Some in Hk'. exact Hk'.
  - intros n a s s' Hn HP Hbody. apply seqZ_lookup_nat in Hn as [-> Hn].
    split_bind Hbody as e Hget. apply vecGet_Ok in Hget as [_ Hget].
    rewrite Nat2Z.id in Hget. cbn zeta in Hbody.
    split_bind Hbody as u Hlen. split_bind Hbody as mt Hmatch.
    destruct mt.
    + split_bind Hbody as u' Hfirst. injection Hbody as <-.
      apply MFEM_VERIFY_Ok in Hfirst. apply Z.eqb_eq in Hfirst. subst s.
      destruct HP as [[_ Hnone]|[Hr _]]; [|lia].
      right. split; [lia|]. exists e. rewrite Nat2Z.id.
      split; [exact Hget|]. split; [exact Hmatch|].
      intros k e' Hk He' Hm'. destruct (Nat.eq_dec k n) as [->|Hne]; [reflexivity|].
      exfalso. apply (Hnone k e'); [lia|assumption..].
    + injection Hbody as <-. destruct HP as [[-> Hnone]|[Hr (e0 & He0 & Hm0 & Hu)]].
      * left. split; [reflexivity|]. intros k e' Hk He'.
        destruct (Nat.eq_dec k n) as [->|Hne].
        -- rewrite Hget in He'. injection He' as <-. rewrite Hmatch. discriminate.
        -- apply (Hnone k e'); [lia|exact He'].
      * right. split; [lia|]. exists e0. split; [exact He0|]. split; [exact Hm0|].
        intros k e' Hk He' Hm'. destruct (Nat.eq_dec k n) as [->|Hne].
        -- rewrite Hget in He'. injection He' as <-. rewrite Hmatch in Hm'. discriminate.
        -- apply (Hu k e'); [lia|assumption..].
  - left. split; [reflexivity|]. intros k e Hk. lia.
Qed.

(** X22.  When the edge DOFs of an interface element are mapped, each of
    its edges matches exactly one edge of the subdomain face: a second
    match, or none, stops the run.  Two edges match when their first end
    points coincide and their second end points coincide, in the order the
    meshes list them, so that an edge listed in the other direction does
    not match. *)
Theorem mapEdgeDofs_matches_each_edge_once :
  forall (ifespace fespace : ParFiniteElementSpace) (i sdMeshFace : Z) (t t' : DofTable),
    mapEdgeDofs ifespace fespace i sdMeshFace t = Ok t' ->
    let ifMesh := GetParMesh ifespace in
    let sdMesh := GetParMesh fespace in
    let ifEdge := GetElementEdges ifMesh i in
    let sdEdge := GetFaceEdges sdMesh sdMeshFace in
    length ifEdge = length sdEdge /\
    (forall ifEdge_j, In ifEdge_j ifEdge ->
       length (GetEdgeVertices ifMesh ifEdge_j) = 2%nat /\
       exists (k : nat) (sdEdge_k : Z),
         sdEdge !! k = Some sdEdge_k /\
         edgesMatch ifMesh sdMesh (GetEdgeVertices ifMesh ifEdge_j)
           (GetEdgeVertices sdMesh sdEdge_k) = Ok true /\
         forall (k' : nat) (e' : Z), sdEdge !! k' = Some e' ->
           edgesMatch ifMesh sdMesh (GetEdgeVertices ifMesh ifEdge_j)
             (GetEdgeVertices sdMesh e') = Ok true ->
           k' = k) /\
    (forall a b c d : Z,
       edgesMatch ifMesh sdMesh [a; b] [c; d]
       = Ok (verticesEqual vertexTol (GetVertex ifMesh a) (GetVertex sdMesh c)
             && verticesEqual vertexTol (GetVertex ifMesh b) (GetVertex sdMesh d))).
Proof.
  intros ifespace fespace i sdMeshFace t t' H ifMesh sdMesh ifEdge sdEdge.
  unfold mapEdgeDofs in H. cbn zeta in H. fold ifMesh sdMesh ifEdge sdEdge in H.
  split_bind H as u Hlen. apply MFEM_VERIFY_Ok in Hlen. apply Nat.eqb_eq in Hlen.
  split; [exact Hlen|]. split; [|intros a b c d; apply edgesMatch_two].
  intros ifEdge_j Hin.
  apply list_elem_of_In, list_elem_of_lookup in Hin as (j & Hj).
  destruct (forM_steps_Ok _ _ _ _ H j ifEdge_j Hj) as (s1 & s2 & Hbody).
  cbn zeta in Hbody.
  split_bind Hbody as u2 Hlen2. apply MFEM_VERIFY_Ok in Hlen2. apply Nat.eqb_eq in Hlen2.
  split; [exact Hlen2|].
  split_bind Hbody as sd_k Hscan. split_bind Hbody as u3 Hge.
  apply MFEM_VERIFY_Ok in Hge. apply Z.geb_le in Hge.
  destruct (edgeScan_unique ifMesh sdMesh _ sdEdge sd_k Hscan Hge) as (e & He & Hm & Hu).
  exists (Z.to_nat sd_k), e. auto.
Qed.

Lemma mapEdgeDofs_matches_each_edge_once_witness :
  length (GetElementEdges ifMeshX1 0) = length (GetFaceEdges sdMesh1 4) /\
  (forall ifEdge_j, In ifEdge_j (GetElementEdges ifMeshX1 0) ->
     length (GetEdgeVertices ifMeshX1 ifEdge_j) = 2%nat /\
     exists (k : nat) (sdEdge_k : Z),
       GetFaceEdges sdMesh1 4 !! k = Some sdEdge_k /\
       edgesMatch ifMeshX1 sdMesh1 (GetEdgeVertices ifMeshX1 ifEdge_j)
         (GetEdgeVertices sdMesh1 sdEdge_k) = Ok true /\
       forall (k' : nat) (e' : Z), GetFaceEdges sdMesh1 4 !! k' = Some e' ->
         edgesMatch ifMeshX1 sdMesh1 (GetEdgeVertices ifMeshX1 ifEdge_j)
           (GetEdgeVertices sdMesh1 e') = Ok true ->
         k' = k) /\
  (forall a b c d : Z,
     edgesMatch ifMeshX1 sdMesh1 [a; b] [c; d]
     = Ok (verticesEqual vertexTol (GetVertex ifMeshX1 a) (GetVertex sdMesh1 c)
           && verticesEqual vertexTol (GetVertex ifMeshX1 b) (GetVertex sdMesh1 d))).
Proof.
  apply (mapEdgeDofs_matches_each_edge_once (edgeSpace ifMeshX1 4) (edgeSpace sdMesh1 12)
           0 4 (mkDofTable [-1; -1; -1; -1] [])
           (mkDofTable [3; 11; 7; 8] [(3, 8); (2, 7); (1, 11); (0, 3)])).
  vm_compute. reflexivity.
Defined.

(** ** The position of an interface among those of a subdomain *)

Section FindInterface.
Context {R : Type} {sc : Scalar R}.

Lemma findInterfaceInSubdomain_scan (im : InterfaceMembers R) (sdli : list Z)
    (interfaceIndex sdif os osComp : Z) :
  forM
    (fun '(sdif, os, osComp) '(i, sdli_i) =>
       sdif ← (if sdli_i =? interfaceIndex
               then _ ← MFEM_VERIFY (sdif =? -1); Ok i
               else Ok sdif);
       obj ← interfaceAt im sdli_i;
       if sdif =? -1 then Ok (sdif, int_add os (ifTrueSize obj), osComp)
       else Ok (sdif, os, int_add osComp (ifTrueSize obj)))
    (zip (seqZ 0 (Z.of_nat (length sdli))) sdli) (-1, 0, 0) = Ok (sdif, os, osComp) ->
  (sdif = -1 /\ (forall j : nat, sdli !! j <> Some interfaceIndex) /\
   os = int_wrap (sumZ (map (interfaceSizeAt im) sdli)) /\ osComp = 0) \/
  (0 <= sdif /\ sdli !! Z.to_nat sdif = Some interfaceIndex /\
   (forall j : nat, sdli !! j = Some interfaceIndex -> Z.of_nat j = sdif) /\
   os = int_wrap (sumZ (map (interfaceSizeAt im) (take (Z.to_nat sdif) sdli))) /\
   osComp = int_wrap (sumZ (map (interfaceSizeAt im) (drop (Z.to_nat sdif) sdli)))).
Proof.
  intros H.
  set (P := fun (k : nat) (st : Z * Z * Z) =>
    (st.1.1 = -1 /\ (forall j : nat, (j < k)%nat -> sdli !! j <> Some interfaceIndex) /\
     st.1.2 = int_wrap (sumZ (map (interfaceSizeAt im) (take k sdli))) /\ st.2 = 0) \/
    (0 <= st.1.1 < Z.of_nat k /\ sdli !! Z.to_nat st.1.1 = Some interfaceIndex /\
     (forall j : nat, (j < k)%nat -> sdli !! j = Some interfaceIndex ->
        Z.of_nat j = st.1.1) /\
     st.1.2 = int_wrap (sumZ (map (interfaceSizeAt im) (take (Z.to_nat st.1.1) sdli))) /\
     st.2 = int_wrap (sumZ (map (interfaceSizeAt im)
                              (drop (Z.to_nat st.1.1) (take k sdli)))))).
  apply (forM_indexed P) in H.
  - unfold P in H. cbn [fst snd] in H.
    rewrite length_zip_with, length_seqZ, Nat2Z.id, Nat.min_id, firstn_all in H.
    destruct H as [(Hf & Hnone & Ho & Hoc)|(Hf & Hat & Huniq & Ho & Hoc)].
    + left. split; [exact Hf|]. split; [|split; [exact Ho|exact Hoc]].
      intros j Hj. apply (Hnone j); [|exact Hj].
      apply lookup_lt_Some in Hj. exact Hj.
    + right. split; [lia|]. split; [exact Hat|]. split; [|split; [exact Ho|exact Hoc]].
      intros j Hj. apply (Huniq j); [|exact Hj].
      apply lookup_lt_Some in Hj. exact Hj.
  - intros k [i x] [[f o] oc] st' Hk HP Hbody. unfold P in HP. cbn [fst snd] in HP.
    apply lookup_zip_with_Some in Hk as (i' & x' & Hpair & Hi & Hx).
    injection Hpair as Ei Ex. subst i' x'.
    apply lookup_seqZ in Hi as [Ei _]. rewrite Z.add_0_l in Ei.
    assert (Htake : take (S k) sdli = take k sdli ++ [x]) by exact (take_S_r _ _ _ Hx).
    assert (Hlen : length (take k sdli) = k).
    { rewrite length_take. apply lookup_lt_Some in Hx. lia. }
    destruct (Z.eqb_spec x interfaceIndex) as [Exi|Exi].
    + split_bind Hbody as f' Hf'. split_bind Hf' as u Hv. apply MFEM_VERIFY_Ok in Hv.
      apply Z.eqb_eq in Hv. injection Hf' as Ef'. subst f'.
      split_bind Hbody as obj Hobj. apply interfaceAt_size in Hobj as [Hobj Hwrap].
      rewrite Hwrap in Hbody.
      destruct (Z.eqb_spec i (-1)) as [Hi1|Hi1]; [lia|].
      injection Hbody as Est. subst st'. unfold P. cbn [fst snd]. right.
      destruct HP as [(Hf & Hnone & Ho & Hoc)|(Hf & _)]; [|lia].
      subst i. rewrite Nat2Z.id. split; [lia|]. split; [rewrite Hx; now f_equal|].
      split.
      { intros j Hj Hjx. destruct (Nat.eq_dec j k) as [Ejk|Ejk]; [now subst j|].
        exfalso. apply (Hnone j); [lia|exact Hjx]. }
      split; [exact Ho|].
      rewrite Htake, drop_app_length' by (symmetry; exact Hlen). cbn [map].
      unfold sumZ. cbn [foldr]. rewrite Hoc. int_ring.
    + split_bind Hbody as f' Hf'. injection Hf' as Ef'. subst f'.
      split_bind Hbody as obj Hobj. apply interfaceAt_size in Hobj as [Hobj Hwrap].
      rewrite Hwrap in Hbody.
      destruct HP as [(Hf & Hnone & Ho & Hoc)|(Hf & Hat & Huniq & Ho & Hoc)].
      * subst f. change (-1 =? -1) with true in Hbody.
        injection Hbody as Est. subst st'. unfold P. cbn [fst snd]. left.
        split; [reflexivity|]. split.
        { intros j Hj Hjx. destruct (Nat.eq_dec j k) as [Ejk|Ejk].
          - subst j. rewrite Hx in Hjx. injection Hjx as Hjx. contradiction.
          - apply (Hnone j); [lia|exact Hjx]. }
        split; [|exact Hoc].
        rewrite Htake, map_app. cbn [map]. rewrite sumZ_snoc, Ho. int_ring.
      * destruct (Z.eqb_spec f (-1)) as [Hf1|Hf1]; [lia|].
        injection Hbody as Est. subst st'. unfold P. cbn [fst snd]. right.
        split; [lia|]. split; [exact Hat|]. split.
        { intros j Hj Hjx. destruct (Nat.eq_dec j k) as [Ejk|Ejk].
          - subst j. rewrite Hx in Hjx. injection Hjx as Hjx. contradiction.
          - apply (Huniq j); [lia|exact Hjx]. }
        split; [exact Ho|].
        rewrite Htake, drop_app_le by (rewrite Hlen; lia).
        rewrite map_app. cbn [map]. rewrite sumZ_snoc, Hoc. int_ring.
  - unfold P. cbn [fst snd]. left. split; [reflexivity|]. split; [intros j Hj; lia|].
    split; reflexivity.
Qed.

End FindInterface.

(** X24 ([CreateInterfaceOperator], the two search loops).  When the search
    for an interface among the interfaces of a subdomain ends normally, either
    the interface is not in the list, the position is still -1, [os] is the
    size of all the interfaces and [osComp] is 0; or the position found is the
    one place of the list that holds the interface, [os] is the size of the
    interfaces before that place and [osComp] the size of those from that
    place on.  The sizes are [int] sums.  A list that holds the interface
    twice ends the run. *)
Theorem findInterfaceInSubdomain_position :
  forall (R : Type) (sc : Scalar R) (im : InterfaceMembers R)
         (sd interfaceIndex sdif os osComp : Z),
    findInterfaceInSubdomain im sd interfaceIndex = Ok (sdif, os, osComp) ->
    let sdli := subdomainLocalInterfaces im !!! Z.to_nat sd in
    (sdif = -1 /\ ~ In interfaceIndex sdli /\
     os = int_wrap (sumZ (map (interfaceSizeAt im) sdli)) /\ osComp = 0) \/
    (0 <= sdif /\ sdli !! Z.to_nat sdif = Some interfaceIndex /\
     (forall j : nat, sdli !! j = Some interfaceIndex -> Z.of_nat j = sdif) /\
     os = int_wrap (sumZ (map (interfaceSizeAt im) (take (Z.to_nat sdif) sdli))) /\
     osComp = int_wrap (sumZ (map (interfaceSizeAt im) (drop (Z.to_nat sdif) sdli)))).
Proof.
  intros R sc im sd interfaceIndex sdif os osComp H sdli.
  unfold findInterfaceInSubdomain in H. split_bind H as l Hl.
  apply vecGet_Ok in Hl as [_ Hl].
  assert (El : sdli = l) by (unfold sdli; exact (list_lookup_total_correct _ _ _ Hl)).
  rewrite El. apply findInterfaceInSubdomain_scan in H.
  destruct H as [(Hf & Hnone & Ho & Hoc)|Hfound].
  - left. split; [exact Hf|]. split; [|split; [exact Ho|exact Hoc]].
    intros Hin. apply list_elem_of_In, list_elem_of_lookup in Hin as (j & Hj).
    exact (Hnone j Hj).
  - right. exact Hfound.
Qed.

Lemma findInterfaceInSubdomain_position_witness :
  match new_DDMInterfaceOperator cubesLibrary cubesArgs with
  | Ok ddm =>
      let im := interfaceMembers ddm in
      let sdli := subdomainLocalInterfaces im !!! Z.to_nat 1 in
      sdli !! Z.to_nat 0 = Some 0 /\
      (forall j : nat, sdli !! j = Some 0 -> Z.of_nat j = 0) /\
      0 = int_wrap (sumZ (map (interfaceSizeAt im) (take (Z.to_nat 0) sdli))) /\
      8 = int_wrap (sumZ (map (interfaceSizeAt im) (drop (Z.to_nat 0) sdli)))
  | _ => False
  end.
Proof.
  destruct (new_DDMInterfaceOperator cubesLibrary cubesArgs) as [ddm| | |] eqn:E;
    try (vm_compute in E; discriminate).
  assert (Hrun : findInterfaceInSubdomain (interfaceMembers ddm) 1 0 = Ok (0, 0, 8)).
  { apply (run_proj _ ddm (fun d => findInterfaceInSubdomain (interfaceMembers d) 1 0)
             (Ok (0, 0, 8)) E).
    vm_compute. reflexivity. }
  destruct (findInterfaceInSubdomain_position Z _ (interfaceMembers ddm) 1 0 0 0 8 Hrun)
    as [(Hf & _)|(_ & Hfound)]; [discriminate Hf|exact Hfound].
Defined.
